(** * Rohini lookup: the in-memory search engine of [server.py]

    A shallow embedding of the CSV / search helpers, the dataset loader and
    the three query handlers of [server.py], with the properties of the
    name-column choice, the normaliser, the suggest and lookup queries and
    the reload path.

    Python strings are sequences of Unicode code points; a pandas frame whose
    cells are all strings is an ordered association list of columns; the
    module globals [DF], [NAME_COL], [DISPLAY_COLS] are an explicit state
    threaded through a small state-and-exception monad.  What the program
    takes from the Python runtime (the Unicode character database, the [re]
    engine, the pseudo-random sampler of pandas, floating-point division and
    mean) is an interface, [PyRuntime]; a table-driven instance of it,
    [Frag_runtime], serves the concrete examples. *)

From Stdlib Require Import String Ascii.
From Stdlib Require Import List ZArith NArith PeanoNat Lia Bool QArith.
From Stdlib Require Import DecimalString.
Import ListNotations.
Close Scope Q_scope.


(** ** Python strings *)

Definition cp := N.
Definition str := list cp.

(** An ASCII literal as a Python string. *)
Definition py (s : string) : str :=
  map N_of_ascii (list_ascii_of_string s).

Fixpoint str_eqb (a b : str) : bool :=
  match a, b with
  | [], [] => true
  | x :: a', y :: b' => N.eqb x y && str_eqb a' b'
  | _, _ => false
  end.

(** [x in xs] on a list of strings. *)
Definition mem (x : str) (xs : list str) : bool := existsb (str_eqb x) xs.

(** Truth value of a string: the empty string is false. *)
Definition truthy (s : str) : bool :=
  match s with [] => false | _ => true end.

(** [str.startswith]. *)
Fixpoint startswith (p s : str) : bool :=
  match p, s with
  | [], _ => true
  | x :: p', y :: s' => N.eqb x y && startswith p' s'
  | _ :: _, [] => false
  end.

(** [str.isspace] on one code point: the white space of CPython's
    [_PyUnicode_IsWhitespace], which [str.strip()] removes. *)
Definition isspace (c : cp) : bool :=
  ((9 <=? c) && (c <=? 13) || (28 <=? c) && (c <=? 32)
   || (c =? 133) || (c =? 160) || (c =? 5760)
   || (8192 <=? c) && (c <=? 8202)
   || (c =? 8232) || (c =? 8233) || (c =? 8239) || (c =? 8287)
   || (c =? 12288))%N.

Fixpoint dropwhile {A} (p : A -> bool) (l : list A) : list A :=
  match l with
  | [] => []
  | x :: l' => if p x then dropwhile p l' else l
  end.

Definition lstrip (s : str) : str := dropwhile isspace s.
Definition rstrip (s : str) : str := rev (dropwhile isspace (rev s)).

(** [str.strip()]. *)
Definition strip (s : str) : str := rstrip (lstrip s).

(** Literal containment, [needle in hay]. *)
Fixpoint substring (needle hay : str) : bool :=
  startswith needle hay ||
  match hay with
  | [] => false
  | _ :: hay' => substring needle hay'
  end.

(** ** Floats

    A float of the program that is not NaN is the rational number it
    denotes; NaN is [None], and every comparison with NaN is false. *)

Definition Q_of_bool (b : bool) : Q := if b then 1%Q else 0%Q.

(** [m >= q] for a mean [m] that may be NaN. *)
Definition nan_ge (m : option Q) (q : Q) : bool :=
  match m with
  | Some x => Qle_bool q x
  | None => false
  end.

(** [sum(p(x) for x in l)], the number of elements with the property. *)
Definition count {A} (p : A -> bool) (l : list A) : nat := length (filter p l).

(** ** What the program takes from the Python runtime *)

Class PyRuntime := {
  (** [unicodedata.normalize("NFKD", s)] *)
  nfkd : str -> str;
  (** [unicodedata.category(ch) == "Mn"] *)
  is_Mn : cp -> bool;
  (** [str.lower] *)
  lower : str -> str;
  (** [str.isdigit] and [str.isalpha] on one code point *)
  isdigit : cp -> bool;
  isalpha : cp -> bool;
  (** [re.compile(pat)]: [None] when it raises [re.error], otherwise the
      test [compiled.search(s) is not None] *)
  re_compile : str -> option (str -> bool);
  (** the positions that [Series.sample(n, random_state=seed)] draws from a
      series of [len] cells *)
  sample_positions : N -> nat -> nat -> list nat;
  (** the float [a / b] for two counts, [b] positive, and [Series.mean()] of
      a series of floats, [None] for NaN; a float that is not NaN is given by
      its rational value *)
  fdiv : nat -> nat -> Q;
  fmean : list Q -> option Q
}.

(** Facts of the Unicode character database that the normaliser relies on:
    lower-casing a decomposed string without non-spacing marks yields no
    non-spacing mark, and a string made of characters of lower-cased strings
    is not changed by lower-casing. *)
Class UnicodeLaws (R : PyRuntime) : Prop := {
  lower_no_Mn : forall s c,
    In c (lower (filter (fun ch => negb (is_Mn ch)) (nfkd s))) ->
    is_Mn c = false;
  lower_stable : forall s t, incl t (lower s) -> lower t = t
}.

(** Facts of floating-point arithmetic that the classifier relies on: a
    quotient of counts and a mean of non-negative floats are not negative;
    only the mean of an empty series is NaN; the mean of a series of booleans
    is the rounded quotient of two counts and reaches one half exactly when
    half of the cells are true. *)
Class FloatLaws (R : PyRuntime) : Prop := {
  fdiv_nonneg : forall a b, (0 <= fdiv a b)%Q;
  fmean_nan : forall l, fmean l = None <-> l = [];
  fmean_nonneg : forall l m,
    Forall (fun q => 0 <= q)%Q l -> fmean l = Some m -> (0 <= m)%Q;
  fmean_bools : forall bs : list bool,
    nan_ge (fmean (map Q_of_bool bs)) (1 # 2) = true <->
    bs <> [] /\ (length bs <= 2 * length (filter (fun b => b) bs))%nat
}.

(** The characters with a meaning of their own in a pattern of [re]:
    [. ^ $ * + ? { } [ ] \ | ( )]. *)
Definition special (c : cp) : bool :=
  existsb (N.eqb c)
          [46; 94; 36; 42; 43; 63; 123; 125; 91; 93; 92; 124; 40; 41]%N.

(** A pattern without any of them. *)
Definition plain (pat : str) : bool := forallb (fun c => negb (special c)) pat.

(** A plain pattern compiles, and it is found where it is contained. *)
Class RegexLaws (R : PyRuntime) : Prop := {
  re_literal : forall pat,
    plain pat = true ->
    exists found,
      re_compile pat = Some found /\ forall s, found s = substring pat s
}.

(** A sample without replacement has the size asked for and draws positions
    of the series. *)
Class SampleLaws (R : PyRuntime) : Prop := {
  sample_length : forall seed len n,
    (n <= len)%nat -> length (sample_positions seed len n) = n;
  sample_bound : forall seed len n i,
    (n <= len)%nat -> In i (sample_positions seed len n) -> (i < len)%nat
}.

(** ** Regular expressions

    A small regular-expression syntax with matching by derivatives.  It
    carries the fixed identifier pattern of [_is_probably_epic] and the
    pattern fragment of the example runtime. *)

Inductive regex :=
| Void                       (* matches nothing *)
| Eps                        (* the empty string *)
| Chr (c : cp)               (* one literal character *)
| Dot                        (* [.]: any character but a newline *)
| Range (lo hi : cp)         (* [[lo-hi]] *)
| Seq (r1 r2 : regex)
| Alt (r1 r2 : regex)
| Star (r : regex).

Fixpoint nullable (r : regex) : bool :=
  match r with
  | Void | Chr _ | Dot | Range _ _ => false
  | Eps | Star _ => true
  | Seq r1 r2 => nullable r1 && nullable r2
  | Alt r1 r2 => nullable r1 || nullable r2
  end.

Definition of_bool (b : bool) : regex := if b then Eps else Void.

Fixpoint deriv (c : cp) (r : regex) : regex :=
  match r with
  | Void | Eps => Void
  | Chr d => of_bool (N.eqb c d)
  | Dot => of_bool (negb (N.eqb c 10%N))
  | Range lo hi => of_bool (N.leb lo c && N.leb c hi)
  | Seq r1 r2 =>
      if nullable r1 then Alt (Seq (deriv c r1) r2) (deriv c r2)
      else Seq (deriv c r1) r2
  | Alt r1 r2 => Alt (deriv c r1) (deriv c r2)
  | Star r1 => Seq (deriv c r1) (Star r1)
  end.

(** [fullmatch]: the whole string is in the language of [r]. *)
Fixpoint fullmatch (r : regex) (s : str) : bool :=
  match s with
  | [] => nullable r
  | c :: s' => fullmatch (deriv c r) s'
  end.

(** A match of [r] starts at the head of [s]. *)
Fixpoint match_prefix (r : regex) (s : str) : bool :=
  nullable r ||
  match s with
  | [] => false
  | c :: s' => match_prefix (deriv c r) s'
  end.

(** [search]: a match of [r] starts somewhere in [s]. *)
Fixpoint search (r : regex) (s : str) : bool :=
  match_prefix r s ||
  match s with
  | [] => false
  | _ :: s' => search r s'
  end.

(** The strings that a regular expression denotes. *)
Inductive lang : regex -> str -> Prop :=
| lang_eps : lang Eps []
| lang_chr (c : cp) : lang (Chr c) [c]
| lang_dot (c : cp) : c <> 10%N -> lang Dot [c]
| lang_range (lo hi c : cp) : (lo <= c <= hi)%N -> lang (Range lo hi) [c]
| lang_seq (r1 r2 : regex) (s1 s2 : str) :
    lang r1 s1 -> lang r2 s2 -> lang (Seq r1 r2) (s1 ++ s2)
| lang_alt_l (r1 r2 : regex) (s : str) : lang r1 s -> lang (Alt r1 r2) s
| lang_alt_r (r1 r2 : regex) (s : str) : lang r2 s -> lang (Alt r1 r2) s
| lang_star_nil (r : regex) : lang (Star r) []
| lang_star_app (r : regex) (s1 s2 : str) :
    lang r s1 -> lang (Star r) s2 -> lang (Star r) (s1 ++ s2).

(** [r{n}] and [r{0,n}], then [r{lo,hi}]. *)
Fixpoint times (n : nat) (r : regex) : regex :=
  match n with
  | O => Eps
  | S n' => Seq r (times n' r)
  end.

Fixpoint upto (n : nat) (r : regex) : regex :=
  match n with
  | O => Eps
  | S n' => Alt Eps (Seq r (upto n' r))
  end.

Definition between (lo hi : nat) (r : regex) : regex :=
  Seq (times lo r) (upto (hi - lo) r).

(** ** Configuration constants *)

Definition PREFERRED_NAME_COLUMNS : list str :=
  [ py "full name"; py "fullname";
    py "full_name"; py "name_full"; py "name";
    (* three Devanagari headers: naam, naav, naam_hindi *)
    [2344; 2366; 2350]%N; [2344; 2366; 2357]%N;
    [2344; 2366; 2350; 95; 2361; 2367; 2306; 2342; 2368]%N;
    py "Name"; py "Full Name"; py "Full_Name" ].

Definition DISPLAY_COLS_PREFERENCE : list str :=
  [ py "Serial No.";
    py "Voter ID";
    py "Full Name (Marathi)";
    py "Full Name (English)";
    py "Relative's Name (Marathi)";
    py "Relative's Name (English)";
    py "Relationship";
    py "Age";
    py "Gender";
    py "House No.";
    py "Electoral Roll Ref" ].

(** The pattern [^[A-Z]{2,4}[0-9]{5,8}$] of [_is_probably_epic]; it is used
    with [fullmatch], under which the two anchors add nothing. *)
Definition epic_pat : regex :=
  Seq (between 2 4 (Range 65%N 90%N)) (between 5 8 (Range 48%N 57%N)).

(** ** Frames

    A frame read by [pd.read_csv(dtype=str, na_filter=False)]: every cell is
    a string, and the header names are distinct (pandas renames repeated
    headers).  It is the ordered list of its columns, each a name with its
    cells. *)

Definition Series := list str.
Definition DataFrame := list (str * Series).

Definition columns (df : DataFrame) : list str := map fst df.

(** [len(df)] *)
Definition nrows (df : DataFrame) : nat :=
  match df with
  | [] => O
  | (_, cells) :: _ => length cells
  end.

(** [df[c]]; [None] stands for the [KeyError]. *)
Fixpoint getcol (df : DataFrame) (c : str) : option Series :=
  match df with
  | [] => None
  | (c', cells) :: df' => if str_eqb c c' then Some cells else getcol df' c
  end.

(** [df[c] = cells]: an existing column is replaced in place, a new one is
    appended. *)
Fixpoint setcol (df : DataFrame) (c : str) (cells : Series) : DataFrame :=
  match df with
  | [] => [(c, cells)]
  | (c', old) :: df' =>
      if str_eqb c c' then (c', cells) :: df'
      else (c', old) :: setcol df' c cells
  end.

(** Boolean indexing, [s[mask]] and [df[mask]]. *)
Fixpoint select {A} (mask : list bool) (l : list A) : list A :=
  match mask, l with
  | b :: mask', x :: l' => if b then x :: select mask' l' else select mask' l'
  | _, _ => []
  end.

Definition select_rows (mask : list bool) (df : DataFrame) : DataFrame :=
  map (fun col => (fst col, select mask (snd col))) df.

(** [df.empty]: an axis of the frame has length 0. *)
Definition empty (df : DataFrame) : bool :=
  match df with
  | [] => true
  | _ => Nat.eqb (nrows df) 0
  end.

(** [df.iterrows()]: row [i] as the ordered mapping from each column name to
    its cell. *)
Definition Row := list (str * str).

Definition row_at (df : DataFrame) (i : nat) : Row :=
  map (fun col => (fst col, nth i (snd col) [])) df.

Definition iterrows (df : DataFrame) : list Row :=
  map (row_at df) (seq 0 (nrows df)).

(** [Series.drop_duplicates()]: the first occurrence of each value stays. *)
Fixpoint drop_dup_from (seen : list str) (l : list str) : list str :=
  match l with
  | [] => []
  | x :: l' =>
      if mem x seen then drop_dup_from seen l'
      else x :: drop_dup_from (x :: seen) l'
  end.

Definition drop_duplicates (l : list str) : list str := drop_dup_from [] l.

(** [Series.head(n)]: the first [n] cells; for a negative [n] all cells but
    the last [-n]. *)
Definition head {A} (n : Z) (l : list A) : list A :=
  if (0 <=? n)%Z then firstn (Z.to_nat n) l
  else firstn (length l - Z.to_nat (- n)) l.

(** ** Exceptions, module state and the monad of the handlers *)

Inductive exn :=
| FileNotFoundError
| ReadError (detail : str)      (* what [pd.read_csv] raised *)
| TypeError                     (* subscripting, or raising, [None] *)
| AttributeError                (* an attribute of [None] *)
| KeyError (key : str)
| IndexError
| ReError                       (* [re.error] *)
| PrintError (detail : str)     (* what [print] raised *)
| HTTPException (status : Z).

Inductive result (A : Type) :=
| Ok (a : A)
| Raise (e : exn).
Arguments Ok {A} a.
Arguments Raise {A} e.

(** The module globals [DF], [NAME_COL], [DISPLAY_COLS]. *)
Record Globals := {
  DF : option DataFrame;
  NAME_COL : str;
  DISPLAY_COLS : list str
}.

(** The state of the module before [load_dataset] has run. *)
Definition initial : Globals :=
  {| DF := None; NAME_COL := []; DISPLAY_COLS := [] |}.

Definition M (A : Type) : Type := Globals -> result A * Globals.

Definition ret {A} (a : A) : M A := fun g => (Ok a, g).
Definition raise {A} (e : exn) : M A := fun g => (Raise e, g).
Definition bind {A B} (m : M A) (k : A -> M B) : M B :=
  fun g =>
    match m g with
    | (Ok a, g') => k a g'
    | (Raise e, g') => (Raise e, g')
    end.
Definition get : M Globals := fun g => (Ok g, g).
Definition put (g : Globals) : M unit := fun _ => (Ok tt, g).
Definition lift {A} (r : result A) : M A := fun g => (r, g).

Notation "x <- m ;; k" := (bind m (fun x => k))
  (at level 61, m at next level, right associativity).
Notation "m ;;; k" := (bind m (fun _ => k))
  (at level 61, right associativity).

(** The three assignments at the end of [load_dataset]. *)
Definition set_DF (df : DataFrame) : M unit :=
  g <- get;;
  put {| DF := Some df; NAME_COL := NAME_COL g; DISPLAY_COLS := DISPLAY_COLS g |}.
Definition set_NAME_COL (c : str) : M unit :=
  g <- get;;
  put {| DF := DF g; NAME_COL := c; DISPLAY_COLS := DISPLAY_COLS g |}.
Definition set_DISPLAY_COLS (cols : list str) : M unit :=
  g <- get;;
  put {| DF := DF g; NAME_COL := NAME_COL g; DISPLAY_COLS := cols |}.

(** What [load_dataset] sees of its environment: whether [DATA_PATH] exists,
    what [pd.read_csv] makes of the file in a given encoding, and whether
    [print] can write a line to the standard output. *)
Record World := {
  path_exists : bool;
  read_csv : str -> result DataFrame;
  stdout_print : str -> result unit
}.

(** The JSON bodies of the three query handlers. *)
Record MetaResponse := {
  name_col : str;
  meta_columns : list str;
  total_rows : nat
}.

Record LookupResponse := {
  count_rows : nat;
  rows : list Row
}.

(** ** The program *)

Section Server.

Context {R : PyRuntime}.

(** [FORCE_NAME_COL], the environment variable [NAME_COL] read when the
    module is imported; [None] when it is not set. *)
Variable FORCE_NAME_COL : option str.

Definition encs : list str :=
  [ py "utf-8"; py "utf-8-sig"; py "utf-16"; py "utf-16le"; py "utf-16be";
    py "cp1252"; py "latin1" ].

Fixpoint read_loop (w : World) (es : list str) (last : option exn)
  : result DataFrame :=
  match es with
  | [] => match last with
          | Some e => Raise e
          | None => Raise TypeError
          end
  | enc :: es' =>
      match read_csv w enc with
      | Ok df => Ok df
      | Raise e => read_loop w es' (Some e)
      end
  end.

Definition _read_csv_with_fallbacks (w : World) : result DataFrame :=
  read_loop w encs None.

(** The cells and the queries are strings, so the [isinstance] guard of the
    source never fires. *)
Definition strip_marks (text : str) : str :=
  let norm := nfkd text in
  strip (lower (filter (fun ch => negb (is_Mn ch)) norm)).

(** [Series.sample(min(len(s), 300), random_state=seed)]. *)
Definition sample (seed : N) (s : Series) : Series :=
  map (fun i => nth i s [])
      (sample_positions seed (length s) (Nat.min (length s) 300)).

Definition digit_ratio (x : str) : Q :=
  let x := strip x in
  if negb (truthy x) then 0%Q
  else fdiv (count isdigit x) (Nat.max 1 (length x)).

Definition match_rate (s : Series) : option Q :=
  fmean (map Q_of_bool (map (fullmatch epic_pat) s)).

Definition digit_rate (s : Series) : option Q :=
  fmean (map digit_ratio (sample 0 s)).

Definition _is_probably_epic (s : Series) : bool :=
  nan_ge (match_rate s) (1 # 2)%Q || nan_ge (digit_rate s) (1 # 2)%Q.

Definition _alpha_ratio (x : str) : Q :=
  let n := length x in
  if Nat.eqb n 0 then 0%Q else fdiv (count isalpha x) n.

(** The dict [{c.lower(): c for c in df.columns}] as the list of its
    insertions; a later insertion under the same key replaces the earlier
    one. *)
Definition lower_map (cols : list str) : list (str * str) :=
  map (fun c => (lower c, c)) cols.

Fixpoint dict_get (k : str) (d : list (str * str)) : option str :=
  match d with
  | [] => None
  | (k', v) :: d' =>
      match dict_get k d' with
      | Some v' => Some v'
      | None => if str_eqb k k' then Some v else None
      end
  end.

Fixpoint first_preferred (cands : list str) (lm : list (str * str))
  : option str :=
  match cands with
  | [] => None
  | cand :: cands' =>
      match dict_get (lower cand) lm with
      | Some c => Some c
      | None => first_preferred cands' lm
      end
  end.

Definition score (s : Series) : option Q :=
  fmean (map _alpha_ratio (sample 1 s)).

(** One turn of the fallback loop over [(best, best_score)]. *)
Definition heuristic_step (acc : option str * Q) (col : str * Series)
  : option str * Q :=
  let (c, ser) := col in
  if _is_probably_epic ser then acc
  else
    match score ser with
    | Some sc => if negb (Qle_bool sc (snd acc)) then (Some c, sc) else acc
    | None => acc              (* NaN > best_score is false *)
    end.

Definition heuristic (df : DataFrame) : result str :=
  let (best, _) := fold_left heuristic_step df (None, (-1)%Q) in
  (* [best or df.columns[0]] *)
  let first := match columns df with
               | c :: _ => Ok c
               | [] => Raise IndexError
               end in
  match best with
  | Some c => if truthy c then Ok c else first
  | None => first
  end.

(** [FORCE_NAME_COL and FORCE_NAME_COL in df.columns] *)
Definition override (df : DataFrame) : option str :=
  match FORCE_NAME_COL with
  | Some f => if truthy f && mem f (columns df) then Some f else None
  | None => None
  end.

Definition pick_name_column (df : DataFrame) : result str :=
  match override df with
  | Some f => Ok f
  | None =>
      match first_preferred PREFERRED_NAME_COLUMNS (lower_map (columns df)) with
      | Some c => Ok c
      | None => heuristic df
      end
  end.

(** The two loops of [build_display_cols] append to [cols]. *)
Definition add_preferred (df : DataFrame) (cols : list str) (c : str)
  : list str :=
  if mem c (columns df) && negb (mem c cols) then cols ++ [c] else cols.

Definition add_other (cols : list str) (c : str) : list str :=
  if negb (mem c cols) && negb (startswith (py "_") c) then cols ++ [c]
  else cols.

Definition build_display_cols (df : DataFrame) (name_col : str) : list str :=
  let cols := [] in
  let cols := if negb (mem name_col cols) then cols ++ [name_col] else cols in
  let cols := fold_left (add_preferred df) DISPLAY_COLS_PREFERENCE cols in
  fold_left add_other (columns df) cols.

(** The choice of the name column at the head of [load_dataset]. *)
Definition choose_name_col (df : DataFrame) : result str :=
  if mem (py "Full Name (English)") (columns df) then
    Ok (py "Full Name (English)")
  else if mem (py "Full Name (Marathi)") (columns df) then
    Ok (py "Full Name (Marathi)")
  else if mem (py "Full Name") (columns df) then
    Ok (py "Full Name")
  else pick_name_column df.

(** [df[c]], which raises [KeyError] for a missing column. *)
Definition getitem (df : DataFrame) (c : str) : result Series :=
  match getcol df c with
  | Some s => Ok s
  | None => Raise (KeyError c)
  end.

(** [str(n)] for a length. *)
Definition str_of_nat (n : nat) : str :=
  py (NilEmpty.string_of_uint (Nat.to_uint n)).

(** The line of the closing [print] of [load_dataset],
    [f"[INFO] Loaded {len(DF)} rows; name column = {NAME_COL}"]. *)
Definition info_line (rows : nat) (name_col : str) : str :=
  py "[INFO] Loaded " ++ str_of_nat rows
     ++ py " rows; name column = " ++ name_col.

(** [load_dataset].  [DISPLAY_COLS] is built, and the closing line printed,
    from the globals [DF] and [NAME_COL], which hold [df] and [name_col] by
    then. *)
Definition load_dataset (w : World) : M unit :=
  if negb (path_exists w) then raise FileNotFoundError
  else
    df <- lift (_read_csv_with_fallbacks w);;
    name_col <- lift (choose_name_col df);;
    names <- lift (getitem df name_col);;
    let df := setcol df name_col names in
    names <- lift (getitem df name_col);;
    let df := setcol df (py "_name_key")
                     (map (fun x => lower (strip x)) names) in
    names <- lift (getitem df name_col);;
    let df := setcol df (py "_name_norm") (map strip_marks names) in
    set_DF df;;;
    set_NAME_COL name_col;;;
    set_DISPLAY_COLS (build_display_cols df name_col);;;
    lift (stdout_print w (info_line (nrows df) name_col)).

(** [DF[c]] on the global frame. *)
Definition DF_getitem (c : str) : M Series :=
  g <- get;;
  match DF g with
  | None => raise TypeError
  | Some df => lift (getitem df c)
  end.

(** [DF[mask]] and [DF.loc[mask, c]] on the global frame. *)
Definition DF_select (mask : list bool) : M DataFrame :=
  g <- get;;
  match DF g with
  | None => raise TypeError
  | Some df => ret (select_rows mask df)
  end.

Definition DF_loc (mask : list bool) (c : str) : M Series :=
  g <- get;;
  match DF g with
  | None => raise AttributeError
  | Some df => s <- lift (getitem df c);; ret (select mask s)
  end.

(** [s.str.contains(pat, na=False)]: [regex=True] is the default of pandas,
    so [pat] is compiled by [re] and every cell is searched. *)
Definition str_contains (s : Series) (pat : str) : result (list bool) :=
  match re_compile pat with
  | Some found => Ok (map found s)
  | None => Raise ReError
  end.

Definition meta : M MetaResponse :=
  g <- get;;
  match DF g with
  | None => raise AttributeError
  | Some df =>
      ret {| name_col := NAME_COL g;
             meta_columns :=
               filter (fun c => negb (startswith (py "_") c)) (columns df);
             total_rows := nrows df |}
  end.

Definition suggest (q : str) (limit : Z) : M (list str) :=
  let query := strip_marks q in
  if negb (truthy query) then
    g <- get;;
    names <- DF_getitem (NAME_COL g);;
    let names := map strip names in
    let names := select (map (fun x => negb (str_eqb x [])) names) names in
    ret (head limit (drop_duplicates names))
  else
    norm <- DF_getitem (py "_name_norm");;
    mask <- lift (str_contains norm query);;
    g <- get;;
    names <- DF_loc mask (NAME_COL g);;
    ret (head limit (drop_duplicates (map strip names))).

Definition lookup (name : str) : M LookupResponse :=
  let nm := strip name in
  if negb (truthy nm) then raise (HTTPException 400)
  else
    let key := lower nm in
    keys <- DF_getitem (py "_name_key");;
    exact <- DF_select (map (fun k => str_eqb k key) keys);;
    exact <- (if empty exact then
                g <- get;;
                names <- DF_getitem (NAME_COL g);;
                mask <- lift (str_contains
                                (map (fun x => lower (strip x)) names) key);;
                DF_select mask
              else ret exact);;
    let rows :=
      map (filter (fun kv => negb (startswith (py "_") (fst kv))))
          (iterrows exact) in
    ret {| count_rows := length rows; rows := rows |}.

(** [reload_ds] answers with [name_col] and [total_rows] after the load. *)
Definition reload_ds (w : World) : M (str * nat) :=
  load_dataset w;;;
  g <- get;;
  match DF g with
  | Some df => ret (NAME_COL g, nrows df)
  | None => raise TypeError
  end.

End Server.

(** ** An example runtime

    [Frag] follows CPython on the ASCII characters, on the letters U+00C9 and
    U+00E9 (E and e with an acute accent), on the marks U+0301 (combining
    acute accent, class Mn, combining class 230), U+034F (combining grapheme
    joiner, Mn, combining class 0), U+302E (Hangul single dot tone mark, Mc,
    combining class 224) and U+1D165 (musical symbol combining stem, Mc,
    combining class 216), on regular expressions written with ordinary
    characters, [.], [|], [*], [+], [?] and parentheses in which no
    quantifier follows a quantifier and no [?] follows an opening
    parenthesis, and on samples of series of at most 300 cells, which are
    permutations of the series.  Its
    quotients and means are exact: they are the floats of the program up to
    rounding, and fall on the same side of a threshold whenever they are not
    within rounding error of it.  Outside of that its answers stand for
    nothing. *)

Module Frag.

(** The full compatibility decomposition of one character. *)
Definition decomp (c : cp) : str :=
  if (c =? 201)%N then [69; 769]%N
  else if (c =? 233)%N then [101; 769]%N
  else [c].

(** The canonical combining class. *)
Definition ccc (c : cp) : N :=
  if (c =? 769)%N then 230%N
  else if (c =? 12334)%N then 224%N
  else if (c =? 119141)%N then 216%N
  else 0%N.

(** Canonical ordering: a character of non-zero combining class moves left
    past the characters of greater class that precede it.  [acc] is the
    ordered text so far, last character first. *)
Fixpoint place (c : cp) (acc : str) : str :=
  match acc with
  | [] => [c]
  | p :: acc' =>
      if (0 <? ccc c)%N && (ccc c <? ccc p)%N then p :: place c acc'
      else c :: acc
  end.

Definition canonical_order (s : str) : str :=
  rev (fold_left (fun acc c => place c acc) s []).

Definition nfkd (s : str) : str := canonical_order (flat_map decomp s).

Definition is_Mn (c : cp) : bool := ((c =? 769) || (c =? 847))%N.

Definition lower_cp (c : cp) : cp :=
  if ((65 <=? c) && (c <=? 90))%N then (c + 32)%N
  else if (c =? 201)%N then 233%N
  else c.

Definition lower (s : str) : str := map lower_cp s.

Definition isdigit (c : cp) : bool := ((48 <=? c) && (c <=? 57))%N.

Definition isalpha (c : cp) : bool :=
  ((65 <=? c) && (c <=? 90) || (97 <=? c) && (c <=? 122)
   || (c =? 201) || (c =? 233))%N.

(** *** The pattern parser *)

Inductive parsed :=
| Compiled (r : regex)
| SyntaxError            (* [re.error] *)
| Unsupported.           (* syntax outside the fragment *)

(** A group being read: its finished alternatives and the items of the
    current one, both last first. *)
Record frame := {
  alts : list regex;
  items : list regex
}.

Definition seq_of (its : list regex) : regex :=
  fold_left (fun acc r => Seq r acc) its Eps.

Definition close (f : frame) : regex :=
  fold_left (fun acc r => Alt r acc) (alts f) (seq_of (items f)).

(** [opened]: the last character read was [(]; [quantified]: the last item
    carries a quantifier. *)
Fixpoint parse (pat : str) (stack : list frame) (opened quantified : bool)
  : parsed :=
  match pat, stack with
  | _, [] => SyntaxError
  | [], [top] => Compiled (close top)
  | [], _ :: _ :: _ => SyntaxError        (* missing ) *)
  | ch :: pat', top :: below =>
      if (ch =? 40)%N then                (* ( *)
        parse pat' ({| alts := []; items := [] |} :: stack) true false
      else if (ch =? 41)%N then           (* ) *)
        match below with
        | [] => SyntaxError               (* unbalanced parenthesis *)
        | outer :: rest =>
            parse pat'
              ({| alts := alts outer; items := close top :: items outer |}
                 :: rest) false false
        end
      else if (ch =? 124)%N then          (* | *)
        parse pat'
          ({| alts := seq_of (items top) :: alts top; items := [] |} :: below)
          false false
      else if ((ch =? 42) || (ch =? 43) || (ch =? 63))%N then   (* * + ? *)
        if opened && (ch =? 63)%N then Unsupported              (* (? *)
        else
          match items top with
          | [] => SyntaxError             (* nothing to repeat *)
          | r :: its =>
              if quantified then Unsupported
              else
                let r' := if (ch =? 42)%N then Star r
                          else if (ch =? 43)%N then Seq r (Star r)
                          else Alt Eps r in
                parse pat' ({| alts := alts top; items := r' :: its |} :: below)
                      false true
          end
      else if ((ch =? 91) || (ch =? 93) || (ch =? 123) || (ch =? 125)
               || (ch =? 94) || (ch =? 36) || (ch =? 92))%N then
        Unsupported                       (* [ ] { } ^ $ \ *)
      else
        let r := if (ch =? 46)%N then Dot else Chr ch in
        parse pat' ({| alts := alts top; items := r :: items top |} :: below)
              false false
  end.

(** What is left to do at the end of the pattern. *)
Definition finish (stack : list frame) : parsed :=
  match stack with
  | [top] => Compiled (close top)
  | _ => SyntaxError
  end.

Definition re_compile (pat : str) : option (str -> bool) :=
  match parse pat [{| alts := []; items := [] |}] false false with
  | Compiled r => Some (search r)
  | _ => None
  end.

Definition sample_positions (seed : N) (len n : nat) : list nat := seq 0 n.

(** Exact quotients and means. *)
Definition fdiv (a b : nat) : Q := (Z.of_nat a # Pos.of_nat b)%Q.

Definition Qsum (l : list Q) : Q := fold_right Qplus 0%Q l.

Definition fmean (l : list Q) : option Q :=
  match l with
  | [] => None
  | _ => Some (Qsum l / inject_Z (Z.of_nat (length l)))%Q
  end.

End Frag.

#[export] Instance Frag_runtime : PyRuntime := {|
  nfkd := Frag.nfkd;
  is_Mn := Frag.is_Mn;
  lower := Frag.lower;
  isdigit := Frag.isdigit;
  isalpha := Frag.isalpha;
  re_compile := Frag.re_compile;
  sample_positions := Frag.sample_positions;
  fdiv := Frag.fdiv;
  fmean := Frag.fmean
|}.

(** ** The queries as requests to one server *)

Inductive query :=
| Suggest (q : str) (limit : Z)
| Lookup (name : str)
| Meta.

Section Requests.

Context {R : PyRuntime}.

(** The module state after a request has been served; a request that raises
    is answered with an error and the server goes on. *)
Definition serve (g : Globals) (qr : query) : Globals :=
  match qr with
  | Suggest q limit => snd (suggest q limit g)
  | Lookup name => snd (lookup name g)
  | Meta => snd (meta g)
  end.

Definition serve_all (qs : list query) (g : Globals) : Globals :=
  fold_left serve qs g.

(** A computation that leaves the module state as it found it. *)
Definition readonly {A} (m : M A) : Prop := forall g, snd (m g) = g.

End Requests.

(** ** The vocabulary of the specification *)

(** The distinct values of a list in the order of their first occurrence. *)
Fixpoint first_occurrences (l : list str) : list str :=
  match l with
  | [] => []
  | x :: l' =>
      x :: filter (fun y => negb (str_eqb y x)) (first_occurrences l')
  end.

(** A property of the answer of a handler that returns. *)
Definition on_ok {A} (r : result A * Globals) (P : A -> Prop) : Prop :=
  match fst r with
  | Ok a => P a
  | Raise _ => True
  end.

(** A column name that is not marked internal. *)
Definition visible (c : str) : bool := negb (startswith (py "_") c).

(** The resolution order of the name column, in the words of the
    specification. *)
Section Resolution.

Context {R : PyRuntime}.
Variable FORCE_NAME_COL : option str.

(** The headers that [load_dataset] looks for itself, in this order. *)
Definition schema_headers : list str :=
  [ py "Full Name (English)"; py "Full Name (Marathi)"; py "Full Name" ].

(** A column of [cols] carries the header [cand], letter case aside. *)
Definition has_header (cols : list str) (cand : str) : Prop :=
  exists c, In c cols /\ lower c = lower cand.

(** [x] is the first element of [l] with the property [P]. *)
Definition first_with {A} (P : A -> Prop) (l : list A) (x : A) : Prop :=
  exists pre post,
    l = pre ++ x :: post /\ P x /\ forall y, In y pre -> ~ P y.

(** [x] is the last element of [l] with the property [P]. *)
Definition last_with {A} (P : A -> Prop) (l : list A) (x : A) : Prop :=
  exists pre post,
    l = pre ++ x :: post /\ P x /\ forall y, In y post -> ~ P y.

Definition no_schema_header (df : DataFrame) : Prop :=
  forall h, In h schema_headers -> ~ In h (columns df).

Definition no_override (df : DataFrame) : Prop :=
  forall f, FORCE_NAME_COL = Some f -> f = [] \/ ~ In f (columns df).

Inductive resolves (df : DataFrame) : result str -> Prop :=
| by_schema (h : str) :
    first_with (fun h => In h (columns df)) schema_headers h ->
    resolves df (Ok h)
| by_override (f : str) :
    no_schema_header df ->
    FORCE_NAME_COL = Some f -> f <> [] -> In f (columns df) ->
    resolves df (Ok f)
| by_header (cand c : str) :
    no_schema_header df -> no_override df ->
    first_with (has_header (columns df)) PREFERRED_NAME_COLUMNS cand ->
    last_with (fun c => lower c = lower cand) (columns df) c ->
    resolves df (Ok c)
| by_heuristic :
    no_schema_header df -> no_override df ->
    (forall cand, In cand PREFERRED_NAME_COLUMNS ->
                  ~ has_header (columns df) cand) ->
    resolves df (heuristic df).

End Resolution.

(** Two to four capital letters followed by five to eight digits. *)
Definition epic_code (x : str) : Prop :=
  exists a b,
    x = a ++ b /\
    2 <= length a <= 4 /\ Forall (fun c => 65 <= c <= 90)%N a /\
    5 <= length b <= 8 /\ Forall (fun c => 48 <= c <= 57)%N b.

(** Identifier-like columns, in the words of the specification. *)
Section IdentifierLike.

Context {R : PyRuntime}.

(** At least half of all the cells match the identifier pattern. *)
Definition half_match (s : Series) : Prop :=
  s <> [] /\ (length s <= 2 * count (fullmatch epic_pat) s)%nat.

(** The mean digit ratio over the sample is defined and at least one half. *)
Definition half_digits (s : Series) : Prop :=
  exists m, fmean (map digit_ratio (sample 0 s)) = Some m /\ (1 # 2 <= m)%Q.

Definition identifier_like (s : Series) : Prop :=
  half_match s \/ half_digits s.

End IdentifierLike.

(** The frames that [pd.read_csv] returns: distinct, non-empty header names
    and columns of one length. *)
Definition well_formed (df : DataFrame) : Prop :=
  NoDup (columns df) /\
  ~ In [] (columns df) /\
  forall c s, In (c, s) df -> length s = nrows df.

(** ** Invariants *)

Section Invariants.

Context {R : PyRuntime}.

(** What the fallback loop knows after the columns [seen]. *)
Definition loop_inv (seen : DataFrame) (acc : option str * Q) : Prop :=
  match fst acc with
  | None =>
      snd acc = (-1)%Q /\
      forall c s, In (c, s) seen -> _is_probably_epic s = false -> s = []
  | Some c =>
      exists s, In (c, s) seen /\ _is_probably_epic s = false
  end.

(** Every exception that [m] raises has the property [P]. *)
Definition raises_only {A} (P : exn -> Prop) (m : M A) : Prop :=
  forall g e g', m g = (Raise e, g') -> P e.

End Invariants.

(** ** Example tables *)

(** The file system holding one readable table. *)
Definition world_of (df : DataFrame) : World :=
  {| path_exists := true; read_csv := fun _ => Ok df;
     stdout_print := fun _ => Ok tt |}.

(** No file at [DATA_PATH]. *)
Definition world_missing : World :=
  {| path_exists := false; read_csv := fun _ => Raise FileNotFoundError;
     stdout_print := fun _ => Ok tt |}.

(** The module state after the start-up load of [df] under [Frag]. *)
Definition loaded (force : option str) (df : DataFrame) : Globals :=
  snd (load_dataset force (world_of df) initial).

Definition voters : DataFrame :=
  [ (py "Voter", [py "ABC1234567"; py "XYZ7654321"; py "ABC1234567"]);
    (py "Person", [py "Ravi"; py " Amit Kumar "; py "Ravi"]) ].

Definition names_upper : DataFrame :=
  [ (py "Code", [py "ABC1234567"]);
    (py "name", [py "Ravi"]);
    (py "NAME", [py "Ravi Shankar"]) ].

Definition with_schema_header : DataFrame :=
  [ (py "Full Name (English)", [py "Ravi"]);
    (py "Nickname", [py "Ravi S"]) ].

Definition internal_only : DataFrame :=
  [ (py "_name", [py "Ravi"]);
    (py "Age", [py "41"]) ].

Definition one_ravi : DataFrame :=
  [ (py "Name", [py "Ravi"; py "Amit Kumar"]) ].

(** ** More vocabulary *)

(** The world [w] with a standard output that takes every line. *)
Definition quiet (w : World) : World :=
  {| path_exists := path_exists w; read_csv := read_csv w;
     stdout_print := fun _ => Ok tt |}.

(** The same file behind a standard output that refuses every line. *)
Definition world_mute (df : DataFrame) : World :=
  {| path_exists := true; read_csv := fun _ => Ok df;
     stdout_print := fun line => Raise (PrintError line) |}.

(** No string occurs twice in the list. *)
Fixpoint nodupb (l : list str) : bool :=
  match l with
  | [] => true
  | x :: l' => negb (mem x l') && nodupb l'
  end.

(** ** The password gate

    The token of the gate is [hmac.new(key, msg, hashlib.sha256).hexdigest()]
    over the UTF-8 bytes of the salt and of the password.  Bytes and 32-bit
    words are numbers of [N]; the additions wrap at [2^32]. *)

Definition bytes := list N.

(** [s.encode("utf-8")]; [None] stands for the [UnicodeEncodeError] that a
    surrogate raises.  A Python string holds no code point above [0x10FFFF];
    such a number is refused as well. *)
Definition utf8_cp (c : cp) : option bytes :=
  if (c <? 0x80)%N then Some [c]
  else if (c <? 0x800)%N then
    Some [N.lor 0xC0 (N.shiftr c 6); N.lor 0x80 (N.land c 0x3F)]
  else if ((0xD800 <=? c) && (c <=? 0xDFFF))%N then None
  else if (c <? 0x10000)%N then
    Some [N.lor 0xE0 (N.shiftr c 12);
          N.lor 0x80 (N.land (N.shiftr c 6) 0x3F);
          N.lor 0x80 (N.land c 0x3F)]
  else if (c <=? 0x10FFFF)%N then
    Some [N.lor 0xF0 (N.shiftr c 18);
          N.lor 0x80 (N.land (N.shiftr c 12) 0x3F);
          N.lor 0x80 (N.land (N.shiftr c 6) 0x3F);
          N.lor 0x80 (N.land c 0x3F)]
  else None.

Fixpoint utf8 (s : str) : option bytes :=
  match s with
  | [] => Some []
  | c :: s' =>
      match utf8_cp c, utf8 s' with
      | Some b, Some bs => Some (b ++ bs)
      | _, _ => None
      end
  end.

Module SHA256.

Definition add32 (a b : N) : N := ((a + b) mod 2 ^ 32)%N.
Definition rotr (n x : N) : N :=
  N.lor (N.shiftr x n) ((N.shiftl x (32 - n)) mod 2 ^ 32)%N.
Definition not32 (x : N) : N := N.lxor x 0xFFFFFFFF.

Definition Ch (x y z : N) : N := N.lxor (N.land x y) (N.land (not32 x) z).
Definition Maj (x y z : N) : N :=
  N.lxor (N.lxor (N.land x y) (N.land x z)) (N.land y z).
Definition Sigma0 (x : N) : N :=
  N.lxor (N.lxor (rotr 2 x) (rotr 13 x)) (rotr 22 x).
Definition Sigma1 (x : N) : N :=
  N.lxor (N.lxor (rotr 6 x) (rotr 11 x)) (rotr 25 x).
Definition sigma0 (x : N) : N :=
  N.lxor (N.lxor (rotr 7 x) (rotr 18 x)) (N.shiftr x 3).
Definition sigma1 (x : N) : N :=
  N.lxor (N.lxor (rotr 17 x) (rotr 19 x)) (N.shiftr x 10).

(** The round constants and the initial words come from the first primes:
    the first 32 bits of the fractional parts of the cube roots of the first
    64 primes, and of the square roots of the first 8. *)
Definition is_prime (n : N) : bool :=
  forallb (fun d => negb (n mod N.of_nat d =? 0)%N)
          (seq 2 (N.to_nat n - 2)).

Definition primes : list N :=
  filter is_prime (map N.of_nat (seq 2 310)).

Fixpoint root3_from (bits : nat) (x r : N) : N :=
  match bits with
  | O => r
  | S bits' =>
      let r' := (r + 2 ^ N.of_nat bits')%N in
      root3_from bits' x (if (r' * r' * r' <=? x)%N then r' else r)
  end.

Definition root3 (x : N) : N := root3_from 40 x 0%N.

Definition K : list N :=
  Eval vm_compute in
    map (fun p => (root3 (p * 2 ^ 96) mod 2 ^ 32)%N) primes.

Definition H0_words : list N :=
  Eval vm_compute in
    map (fun p => (N.sqrt (p * 2 ^ 64) mod 2 ^ 32)%N) (firstn 8 primes).

(** The eight working words. *)
Record state := {
  a : N; b : N; c : N; d : N; e : N; f : N; g : N; h : N
}.

Definition H0 : state :=
  let w := fun i => nth i H0_words 0%N in
  {| a := w 0; b := w 1; c := w 2; d := w 3;
     e := w 4; f := w 5; g := w 6; h := w 7 |}.

(** The message with the bit [1], zeros, and its length in bits as 64 bits. *)
Definition be (n : nat) (x : N) : bytes :=
  map (fun i => (N.shiftr x (8 * N.of_nat i) mod 256)%N) (rev (seq 0 n)).

Definition pad (msg : bytes) : bytes :=
  let len := N.of_nat (length msg) in
  msg ++ [0x80%N]
      ++ repeat 0%N (N.to_nat ((119 - len mod 64) mod 64))
      ++ be 8 (8 * len).

(** [l] in pieces of [n] elements. *)
Fixpoint chunks_from {A} (fuel n : nat) (l : list A) : list (list A) :=
  match fuel, l with
  | S fuel', _ :: _ => firstn n l :: chunks_from fuel' n (skipn n l)
  | _, _ => []
  end.
Definition chunks {A} (n : nat) (l : list A) : list (list A) :=
  chunks_from (length l) n l.

Definition word (bs : bytes) : N :=
  fold_left (fun acc x => (acc * 256 + x)%N) bs 0%N.

(** The message schedule, latest word first. *)
Definition next_word (w : list N) : N :=
  add32 (add32 (sigma1 (nth 1 w 0%N)) (nth 6 w 0%N))
        (add32 (sigma0 (nth 14 w 0%N)) (nth 15 w 0%N)).

Fixpoint extend (n : nat) (w : list N) : list N :=
  match n with
  | O => w
  | S n' => extend n' (next_word w :: w)
  end.

Definition schedule (block : bytes) : list N :=
  rev (extend 48 (rev (map word (chunks 4 block)))).

Definition round (s : state) (kw : N * N) : state :=
  let T1 := add32 (add32 (add32 (h s) (Sigma1 (e s)))
                         (add32 (Ch (e s) (f s) (g s)) (fst kw))) (snd kw) in
  let T2 := add32 (Sigma0 (a s)) (Maj (a s) (b s) (c s)) in
  {| a := add32 T1 T2; b := a s; c := b s; d := c s;
     e := add32 (d s) T1; f := e s; g := f s; h := g s |}.

Definition compress (s : state) (block : bytes) : state :=
  let t := fold_left round (combine K (schedule block)) s in
  {| a := add32 (a s) (a t); b := add32 (b s) (b t);
     c := add32 (c s) (c t); d := add32 (d s) (d t);
     e := add32 (e s) (e t); f := add32 (f s) (f t);
     g := add32 (g s) (g t); h := add32 (h s) (h t) |}.

Definition digest (msg : bytes) : bytes :=
  let s := fold_left compress (chunks 64 (pad msg)) H0 in
  flat_map (be 4) [a s; b s; c s; d s; e s; f s; g s; h s].

End SHA256.

(** [hmac.new(key, msg, hashlib.sha256).digest()] *)
Definition hmac_sha256 (key msg : bytes) : bytes :=
  let key := if (64 <? length key)%nat then SHA256.digest key else key in
  let key := key ++ repeat 0%N (64 - length key) in
  SHA256.digest
    (map (N.lxor 0x5c) key
       ++ SHA256.digest (map (N.lxor 0x36) key ++ msg)).

(** [hexdigest]: two lower-case digits for each byte. *)
Definition hexdigit (n : N) : cp :=
  if (n <? 10)%N then (48 + n)%N else (87 + n)%N.

Definition hex (bs : bytes) : str :=
  flat_map (fun x => [hexdigit ((x / 16) mod 16); hexdigit (x mod 16)]%N) bs.

(** [s.replace(old, new)]: the occurrences of [old] from left to right, none
    overlapping another; for an empty [old], [new] goes before every
    character and at the end. *)
Fixpoint replace_from (old new : str) (skip : nat) (s : str) : str :=
  match s with
  | [] => []
  | c :: s' =>
      match skip with
      | S k => replace_from old new k s'
      | O =>
          if startswith old s then
            new ++ replace_from old new (length old - 1) s'
          else c :: replace_from old new 0 s'
      end
  end.

Definition replace (old new s : str) : str :=
  match old with
  | [] => new ++ flat_map (fun c => c :: new) s
  | _ => replace_from old new 0 s
  end.

(** The exceptions of the gate: [UnicodeEncodeError] from [encode], next to
    those of the handlers. *)
Inductive error :=
| UnicodeEncodeError
| Exn (e : exn).

Inductive outcome (A : Type) :=
| Returns (a : A)
| Raises (e : error).
Arguments Returns {A} a.
Arguments Raises {A} e.

Definition and_then {A B} (m : outcome A) (k : A -> outcome B) : outcome B :=
  match m with
  | Returns a => k a
  | Raises e => Raises e
  end.

(** What the handlers read of a request: its cookies. *)
Record Request := { cookies : list (str * str) }.

(** A [Set-Cookie] header with the parameters of [Response.set_cookie]. *)
Record Cookie := {
  cookie_key : str;
  cookie_value : str;
  max_age : option Z;
  expires : option Z;
  cookie_path : str;
  secure : bool;
  httponly : bool;
  samesite : str
}.

Inductive Body :=
| Redirect (url : str)
| HTML (content : str)
| File (path : str).

Record Response := {
  status_code : Z;
  body : Body;
  set_cookies : list Cookie
}.

Definition RedirectResponse (url : str) (status : Z) : Response :=
  {| status_code := status; body := Redirect url; set_cookies := [] |}.
Definition HTMLResponse (content : str) (status : Z) : Response :=
  {| status_code := status; body := HTML content; set_cookies := [] |}.
Definition FileResponse (path : str) : Response :=
  {| status_code := 200; body := File path; set_cookies := [] |}.

(** [response.set_cookie(...)] adds a header; [response.delete_cookie(key)]
    is [set_cookie(key, max_age=0, expires=0)], with the empty value. *)
Definition set_cookie (response : Response) (c : Cookie) : Response :=
  {| status_code := status_code response; body := body response;
     set_cookies := set_cookies response ++ [c] |}.

Definition delete_cookie (response : Response) (key : str) : Response :=
  set_cookie response
    {| cookie_key := key; cookie_value := []; max_age := Some 0%Z;
       expires := Some 0%Z; cookie_path := py "/"; secure := false;
       httponly := false; samesite := py "lax" |}.

Definition AUTH_COOKIE_NAME : str := py "rohini_auth".

(** The handlers behind [Depends(require_auth)] run on the module state; the
    dependency is resolved before the body of the handler. *)
Definition Depends {A} (dep : outcome unit) (handler : M A)
  : Globals -> outcome A * Globals :=
  fun g =>
    match dep with
    | Raises e => (Raises e, g)
    | Returns _ =>
        match handler g with
        | (Ok a, g') => (Returns a, g')
        | (Raise e, g') => (Raises (Exn e), g')
        end
    end.

Section Gate.

Context {R : PyRuntime}.
Variable FORCE_NAME_COL : option str.

(** [APP_PASSWORD] and [AUTH_SALT] come from the environment, and
    [LOGIN_HTML] is the text of the login page. *)
Variables APP_PASSWORD AUTH_SALT LOGIN_HTML : str.

Definition _make_token : outcome str :=
  match utf8 APP_PASSWORD with
  | None => Raises UnicodeEncodeError
  | Some msg =>
      match utf8 AUTH_SALT with
      | None => Raises UnicodeEncodeError
      | Some key => Returns (hex (hmac_sha256 key msg))
      end
  end.

Definition _is_authenticated (request : Request) : outcome bool :=
  match dict_get AUTH_COOKIE_NAME (cookies request) with
  | None => Returns false
  | Some token =>
      if negb (truthy token) then Returns false
      else and_then _make_token (fun t => Returns (str_eqb token t))
  end.

Definition require_auth (request : Request) : outcome unit :=
  and_then (_is_authenticated request) (fun ok =>
  if negb ok then Raises (Exn (HTTPException 401)) else Returns tt).

Definition login_page (request : Request) : outcome Response :=
  and_then (_is_authenticated request) (fun ok =>
  if ok then Returns (RedirectResponse (py "/") 302)
  else
    let html := replace (py "{error_block}") [] LOGIN_HTML in
    Returns (HTMLResponse html 200)).

Definition error_html : str :=
  py "<div class=" ++ [34%N] ++ py "error" ++ [34%N]
     ++ py ">Incorrect password. Try again.</div>".

Definition login_post (password : str) : outcome Response :=
  if negb (str_eqb password APP_PASSWORD) then
    let html := replace (py "{error_block}") error_html LOGIN_HTML in
    Returns (HTMLResponse html 401)
  else
    and_then _make_token (fun token =>
    let response := RedirectResponse (py "/") 302 in
    Returns (set_cookie response
               {| cookie_key := AUTH_COOKIE_NAME; cookie_value := token;
                  max_age := Some (7 * 24 * 60 * 60)%Z; expires := None;
                  cookie_path := py "/"; secure := false; httponly := true;
                  samesite := py "lax" |})).

Definition logout : Response :=
  let response := RedirectResponse (py "/login") 302 in
  delete_cookie response AUTH_COOKIE_NAME.

Definition index (request : Request) : outcome Response :=
  and_then (_is_authenticated request) (fun ok =>
  if negb ok then Returns (RedirectResponse (py "/login") 302)
  else Returns (FileResponse (py "static/index.html"))).

(** The four routes under [/api], each behind [Depends(require_auth)]. *)
Definition get_api_meta (request : Request) :=
  Depends (require_auth request) meta.
Definition get_api_suggest (request : Request) (q : str) (limit : Z) :=
  Depends (require_auth request) (suggest q limit).
Definition get_api_lookup (request : Request) (name : str) :=
  Depends (require_auth request) (lookup name).
Definition post_api_reload (w : World) (request : Request) :=
  Depends (require_auth request) (reload_ds FORCE_NAME_COL w).

End Gate.

(** A client that obeys the [Set-Cookie] headers of a response: a cookie
    whose [max_age] is not positive is dropped, any other is stored under
    its key in place of the old one. *)
Definition store_cookie (jar : list (str * str)) (c : Cookie)
  : list (str * str) :=
  let rest := filter (fun kv => negb (str_eqb (fst kv) (cookie_key c))) jar in
  match max_age c with
  | Some age => if (age <=? 0)%Z then rest
                else rest ++ [(cookie_key c, cookie_value c)]
  | None => rest ++ [(cookie_key c, cookie_value c)]
  end.

Definition client_after (response : Response) (jar : list (str * str))
  : Request :=
  {| cookies := fold_left store_cookie (set_cookies response) jar |}.

(** The characters of [hexdigest]. *)
Definition is_hexdigit (c : cp) : Prop :=
  (48 <= c <= 57 \/ 97 <= c <= 102)%N.

(** A surrogate, or a number that is no code point. *)
Definition unencodable (c : cp) : Prop :=
  (0xD800 <= c <= 0xDFFF \/ 0x10FFFF < c)%N.

(** The answer of a handler as the answer of its route. *)
Definition as_outcome {A} (r : result A * Globals) : outcome A * Globals :=
  match r with
  | (Ok a, g) => (Returns a, g)
  | (Raise e, g) => (Raises (Exn e), g)
  end.

(** A route that gives no answer and leaves the state [g] as it is. *)
Definition refused {A} (g : Globals) (r : outcome A * Globals) : Prop :=
  snd r = g /\
  (fst r = Raises (Exn (HTTPException 401)) \/
   fst r = Raises UnicodeEncodeError).

(** * Properties *)

(** ** Strings and lists *)

Lemma str_eqb_eq (a b : str) : str_eqb a b = true <-> a = b.
Proof.
  revert b; induction a as [|x a IH]; intros [|y b]; simpl; split;
    try congruence; try reflexivity.
  - rewrite andb_true_iff, N.eqb_eq, IH. intros [-> ->]; reflexivity.
  - intros E; injection E as -> ->. now rewrite N.eqb_refl, (proj2 (IH b)).
Qed.

Lemma str_eqb_refl (a : str) : str_eqb a a = true.
Proof. now apply str_eqb_eq. Qed.

Lemma str_eqb_neq (a b : str) : str_eqb a b = false <-> a <> b.
Proof.
  split.
  - intros E H. apply str_eqb_eq in H. congruence.
  - intros H. destruct (str_eqb a b) eqn:E; [|reflexivity].
    apply str_eqb_eq in E. contradiction.
Qed.

Lemma mem_In (x : str) (xs : list str) : mem x xs = true <-> In x xs.
Proof.
  unfold mem. rewrite existsb_exists. split.
  - intros (y & Hy & E). apply str_eqb_eq in E. now subst.
  - intros H. exists x. split; [assumption | apply str_eqb_refl].
Qed.

Lemma mem_not_In (x : str) (xs : list str) : mem x xs = false <-> ~ In x xs.
Proof.
  rewrite <- mem_In. destruct (mem x xs); split; congruence.
Qed.

(** ** Matching by derivatives *)

Lemma nullable_lang (r : regex) : nullable r = true <-> lang r [].
Proof.
  induction r; simpl; split; intros H; try discriminate;
    try (now constructor); try (inversion H; fail).
  - apply andb_true_iff in H. destruct H as [H1 H2].
    apply (lang_seq r1 r2 [] []); [now apply IHr1 | now apply IHr2].
  - inversion H as [| | | | ? ? s1 s2 H1 H2 | | | |]; subst.
    match goal with E : _ ++ _ = [] |- _ =>
      apply app_eq_nil in E; destruct E as [-> ->] end.
    apply andb_true_iff. split; [now apply IHr1 | now apply IHr2].
  - apply orb_true_iff in H.
    destruct H as [H | H]; [apply lang_alt_l, IHr1 | apply lang_alt_r, IHr2];
      assumption.
  - apply orb_true_iff.
    inversion H; subst; [left; now apply IHr1 | right; now apply IHr2].
Qed.

Lemma lang_of_bool (b : bool) (s : str) :
  lang (of_bool b) s <-> b = true /\ s = [].
Proof.
  destruct b; simpl; split.
  - intros H. inversion H. auto.
  - intros [_ ->]. constructor.
  - intros H. inversion H.
  - intros [H _]. discriminate.
Qed.

Lemma deriv_sound (c : cp) (r : regex) (s : str) :
  lang (deriv c r) s -> lang r (c :: s).
Proof.
  revert s. induction r; intros s; simpl; intros H.
  - inversion H.
  - inversion H.
  - apply lang_of_bool in H. destruct H as [H ->].
    apply N.eqb_eq in H. subst. constructor.
  - apply lang_of_bool in H. destruct H as [H ->].
    apply negb_true_iff, N.eqb_neq in H. now constructor.
  - apply lang_of_bool in H. destruct H as [H ->].
    apply andb_true_iff in H. destruct H as [H1 H2].
    apply N.leb_le in H1, H2. now constructor.
  - assert (lang (Seq (deriv c r1) r2) s -> lang (Seq r1 r2) (c :: s)) as Hseq.
    { intros H'. inversion H' as [| | | | ? ? s1 s2 H1 H2 | | | |]; subst.
      apply (lang_seq r1 r2 (c :: s1) s2); [now apply IHr1 | assumption]. }
    destruct (nullable r1) eqn:N1; [|now apply Hseq].
    inversion H; subst; [now apply Hseq|].
    apply (lang_seq r1 r2 [] (c :: s)); [now apply nullable_lang | now apply IHr2].
  - inversion H; subst;
      [apply lang_alt_l, IHr1 | apply lang_alt_r, IHr2]; assumption.
  - inversion H as [| | | | ? ? s1 s2 H1 H2 | | | |]; subst.
    apply (lang_star_app r (c :: s1) s2); [now apply IHr | assumption].
Qed.

Lemma deriv_complete (c : cp) (r : regex) (s : str) :
  lang r (c :: s) -> lang (deriv c r) s.
Proof.
  intros H. remember (c :: s) as t eqn:Et. revert c s Et.
  induction H as [| d | d Hd | lo hi d Hd | r1 r2 s1 s2 H1 IH1 H2 IH2
                 | r1 r2 t H1 IH1 | r1 r2 t H2 IH2 | r | r s1 s2 H1 IH1 H2 IH2];
    intros c s Et; simpl.
  - discriminate.
  - injection Et as <- <-. rewrite N.eqb_refl. constructor.
  - injection Et as <- <-. apply N.eqb_neq in Hd. rewrite Hd. constructor.
  - injection Et as <- <-. destruct Hd as [Hlo Hhi].
    apply N.leb_le in Hlo, Hhi. rewrite Hlo, Hhi. constructor.
  - destruct s1 as [|x s1]; simpl in Et.
    + subst s2. rewrite (proj2 (nullable_lang r1) H1).
      apply lang_alt_r. now apply IH2.
    + injection Et as -> <-.
      assert (lang (Seq (deriv c r1) r2) (s1 ++ s2)) as Hs
        by (apply lang_seq; [now apply IH1 | assumption]).
      destruct (nullable r1); [now apply lang_alt_l | assumption].
  - apply lang_alt_l. now apply IH1.
  - apply lang_alt_r. now apply IH2.
  - discriminate.
  - destruct s1 as [|x s1]; simpl in Et.
    + now apply IH2.
    + injection Et as -> <-. apply lang_seq; [now apply IH1 | assumption].
Qed.

(** [fullmatch] decides the language. *)
Lemma fullmatch_lang (r : regex) (s : str) :
  fullmatch r s = true <-> lang r s.
Proof.
  revert r. induction s as [|c s IH]; intros r; simpl.
  - apply nullable_lang.
  - rewrite IH. split; [apply deriv_sound | apply deriv_complete].
Qed.

Lemma match_prefix_lang (r : regex) (s : str) :
  match_prefix r s = true <-> exists s1 s2, s = s1 ++ s2 /\ lang r s1.
Proof.
  revert r. induction s as [|c s IH]; intros r; simpl.
  - rewrite orb_false_r, nullable_lang. split.
    + intros H. now exists [], [].
    + intros (s1 & s2 & E & H). symmetry in E. apply app_eq_nil in E.
      destruct E as [-> _]. assumption.
  - rewrite orb_true_iff, nullable_lang, IH. split.
    + intros [H | (s1 & s2 & -> & H)].
      * now exists [], (c :: s).
      * exists (c :: s1), s2. split; [reflexivity | now apply deriv_sound].
    + intros (s1 & s2 & E & H). destruct s1 as [|x s1]; [now left|].
      simpl in E. injection E as <- ->. right.
      exists s1, s2. split; [reflexivity | now apply deriv_complete].
Qed.

(** [search] finds a match exactly when some stretch of the string is in the
    language. *)
Lemma search_lang (r : regex) (s : str) :
  search r s = true <->
  exists pre mid post, s = pre ++ mid ++ post /\ lang r mid.
Proof.
  induction s as [|c s IH]; cbn [search].
  - rewrite orb_false_r, match_prefix_lang. split.
    + intros (s1 & s2 & E & H). now exists [], s1, s2.
    + intros (pre & mid & post & E & H). symmetry in E.
      apply app_eq_nil in E. destruct E as [_ E].
      apply app_eq_nil in E. destruct E as [-> _]. now exists [], [].
  - rewrite orb_true_iff, IH, match_prefix_lang. split.
    + intros [(s1 & s2 & E & H) | (pre & mid & post & -> & H)].
      * exists [], s1, s2. auto.
      * exists (c :: pre), mid, post. auto.
    + intros (pre & mid & post & E & H). destruct pre as [|x pre].
      * left. exists mid, post. auto.
      * simpl in E. injection E as <- ->. right. now exists pre, mid, post.
Qed.

(** *** The identifier pattern *)

Lemma lang_times_range (lo hi : cp) (n : nat) (s : str) :
  lang (times n (Range lo hi)) s <->
  length s = n /\ Forall (fun c => lo <= c <= hi)%N s.
Proof.
  revert s. induction n as [|n IH]; intros s; simpl.
  - split.
    + intros H. inversion H. auto.
    + intros [H _]. apply length_zero_iff_nil in H. subst. constructor.
  - split.
    + intros H. inversion H as [| | | | ? ? s1 s2 H1 H2 | | | |]; subst.
      inversion H1; subst. apply IH in H2. destruct H2 as [<- H2].
      simpl. auto.
    + intros [Hl Hf]. destruct s as [|c s]; [discriminate|].
      inversion Hf; subst. injection Hl as Hl.
      apply (lang_seq (Range lo hi) _ [c] s); [now constructor|].
      now apply IH.
Qed.

Lemma lang_upto_range (lo hi : cp) (n : nat) (s : str) :
  lang (upto n (Range lo hi)) s <->
  length s <= n /\ Forall (fun c => lo <= c <= hi)%N s.
Proof.
  revert s. induction n as [|n IH]; intros s; simpl.
  - split.
    + intros H. inversion H. auto.
    + intros [H _]. destruct s; [constructor | simpl in H; lia].
  - split.
    + intros H. inversion H as [| | | | | ? ? ? H1 | ? ? ? H1 | |]; subst.
      * inversion H1. simpl. split; [lia | constructor].
      * inversion H1 as [| | | | ? ? s1 s2 H2 H3 | | | |]; subst.
        inversion H2; subst. apply IH in H3. destruct H3 as [H3 H4].
        simpl. split; [lia | auto].
    + intros [Hl Hf]. destruct s as [|c s].
      * apply lang_alt_l. constructor.
      * inversion Hf; subst. simpl in Hl. apply lang_alt_r.
        apply (lang_seq (Range lo hi) _ [c] s); [now constructor|].
        apply IH. split; [lia | assumption].
Qed.

Lemma lang_between_range (lo hi : cp) (m n : nat) (s : str) :
  m <= n ->
  lang (between m n (Range lo hi)) s <->
  m <= length s <= n /\ Forall (fun c => lo <= c <= hi)%N s.
Proof.
  intros Hmn. unfold between. split.
  - intros H. inversion H as [| | | | ? ? s1 s2 H1 H2 | | | |]; subst.
    apply lang_times_range in H1. apply lang_upto_range in H2.
    destruct H1 as [H1 F1], H2 as [H2 F2].
    rewrite length_app. split; [lia | now apply Forall_app].
  - intros [Hl Hf].
    assert (Forall (fun c => lo <= c <= hi)%N (firstn m s ++ skipn m s)) as Hf'
      by now rewrite firstn_skipn.
    apply Forall_app in Hf'. destruct Hf' as [F1 F2].
    rewrite <- (firstn_skipn m s). apply lang_seq.
    + apply lang_times_range. split; [rewrite length_firstn; lia | exact F1].
    + apply lang_upto_range. split; [rewrite length_skipn; lia | exact F2].
Qed.

(** The cells that [fullmatch] accepts for the identifier pattern. *)
Lemma fullmatch_epic_pat (x : str) :
  fullmatch epic_pat x = true <-> epic_code x.
Proof.
  rewrite fullmatch_lang. unfold epic_pat, epic_code. split.
  - intros H. inversion H as [| | | | ? ? a b Ha Hb | | | |]; subst.
    apply lang_between_range in Ha; [|lia].
    apply lang_between_range in Hb; [|lia].
    exists a, b. tauto.
  - intros (a & b & -> & Ha & Fa & Hb & Fb).
    apply lang_seq; apply lang_between_range; auto; lia.
Qed.

(** ** Read-only computations *)

Section Readonly.

Context {R : PyRuntime}.

Lemma readonly_ret {A} (a : A) : readonly (ret a).
Proof. intros g; reflexivity. Qed.

Lemma readonly_raise {A} (e : exn) : readonly (@raise A e).
Proof. intros g; reflexivity. Qed.

Lemma readonly_lift {A} (r : result A) : readonly (lift r).
Proof. intros g; reflexivity. Qed.

Lemma readonly_get : readonly get.
Proof. intros g; reflexivity. Qed.

Lemma readonly_bind {A B} (m : M A) (k : A -> M B) :
  readonly m -> (forall a, readonly (k a)) -> readonly (bind m k).
Proof.
  intros Hm Hk g. unfold bind. specialize (Hm g).
  destruct (m g) as [[a|e] g']; simpl in *; subst; [apply Hk | reflexivity].
Qed.

Lemma readonly_if {A} (b : bool) (m1 m2 : M A) :
  readonly m1 -> readonly m2 -> readonly (if b then m1 else m2).
Proof. destruct b; auto. Qed.

Lemma readonly_DF_getitem (c : str) : readonly (DF_getitem c).
Proof.
  apply readonly_bind; [apply readonly_get|]. intros g.
  destruct (DF g); [apply readonly_lift | apply readonly_raise].
Qed.

Lemma readonly_DF_select (mask : list bool) : readonly (DF_select mask).
Proof.
  apply readonly_bind; [apply readonly_get|]. intros g.
  destruct (DF g); [apply readonly_ret | apply readonly_raise].
Qed.

Lemma readonly_DF_loc (mask : list bool) (c : str) : readonly (DF_loc mask c).
Proof.
  apply readonly_bind; [apply readonly_get|]. intros g.
  destruct (DF g); [|apply readonly_raise].
  apply readonly_bind; [apply readonly_lift|]. intros s. apply readonly_ret.
Qed.

Lemma readonly_meta : readonly meta.
Proof.
  apply readonly_bind; [apply readonly_get|]. intros g.
  destruct (DF g); [apply readonly_ret | apply readonly_raise].
Qed.

Lemma readonly_suggest (q : str) (limit : Z) : readonly (suggest q limit).
Proof.
  unfold suggest. apply readonly_if.
  - apply readonly_bind; [apply readonly_get|]. intros g.
    apply readonly_bind; [apply readonly_DF_getitem|]. intros names.
    apply readonly_ret.
  - apply readonly_bind; [apply readonly_DF_getitem|]. intros norm.
    apply readonly_bind; [apply readonly_lift|]. intros mask.
    apply readonly_bind; [apply readonly_get|]. intros g.
    apply readonly_bind; [apply readonly_DF_loc|]. intros names.
    apply readonly_ret.
Qed.

Lemma readonly_lookup (name : str) : readonly (lookup name).
Proof.
  unfold lookup. apply readonly_if; [apply readonly_raise|].
  apply readonly_bind; [apply readonly_DF_getitem|]. intros keys.
  apply readonly_bind; [apply readonly_DF_select|]. intros exact.
  apply readonly_bind; [|intros; apply readonly_ret].
  apply readonly_if; [|apply readonly_ret].
  apply readonly_bind; [apply readonly_get|]. intros g.
  apply readonly_bind; [apply readonly_DF_getitem|]. intros names.
  apply readonly_bind; [apply readonly_lift|]. intros mask.
  apply readonly_DF_select.
Qed.

Lemma serve_same (g : Globals) (qr : query) : serve g qr = g.
Proof.
  destruct qr; simpl;
    [apply readonly_suggest | apply readonly_lookup | apply readonly_meta].
Qed.

(** C10.  The query handlers [suggest], [lookup] and [meta] do not change the
    module state: after any sequence of requests with any arguments, served
    from any state, [DF], [NAME_COL] and [DISPLAY_COLS] are what they were. *)
Theorem queries_leave_state (qs : list query) (g : Globals) :
  serve_all qs g = g /\
  Forall (fun qr => serve g qr = g) qs.
Proof.
  split.
  - unfold serve_all. induction qs as [|qr qs IH]; simpl; [reflexivity|].
    now rewrite serve_same.
  - apply Forall_forall. intros qr _. apply serve_same.
Qed.

End Readonly.

(** ** Loading and reloading *)

Section Loading.

Context {R : PyRuntime}.
Variable FORCE_NAME_COL : option str.

Lemma read_loop_fails (w : World) (es : list str) (last : option exn) :
  (forall enc, In enc es -> exists e, read_csv w enc = Raise e) ->
  exists e, read_loop w es last = Raise e.
Proof.
  revert last. induction es as [|enc es IH]; intros last H; simpl.
  - destruct last; eauto.
  - destruct (H enc (or_introl eq_refl)) as [e ->].
    apply IH. intros enc' Hin. apply H. now right.
Qed.

(** A load that raises has assigned none of the globals, unless it is the
    closing [print] that raised. *)
Lemma load_dataset_raise (w : World) (g g' : Globals) (e : exn) :
  load_dataset FORCE_NAME_COL w g = (Raise e, g') ->
  g' = g \/ exists line, stdout_print w line = Raise e.
Proof.
  unfold load_dataset.
  destruct (negb (path_exists w)); [intros [= _ <-]; now left|].
  unfold bind, lift.
  destruct (_read_csv_with_fallbacks w) as [df|e1];
    [|intros [= _ <-]; now left].
  destruct (choose_name_col FORCE_NAME_COL df) as [nc|e1];
    [|intros [= _ <-]; now left].
  destruct (getitem df nc) as [n1|e1]; [|intros [= _ <-]; now left].
  destruct (getitem _ nc) as [n2|e1]; [|intros [= _ <-]; now left].
  destruct (getitem _ nc) as [n3|e1]; [|intros [= _ <-]; now left].
  cbv [set_DF set_NAME_COL set_DISPLAY_COLS bind get put].
  destruct (stdout_print w _) as [[]|e1] eqn:Ew; [discriminate|].
  intros [= <- _]. right. eexists. exact Ew.
Qed.

Lemma reload_ds_raise (w : World) (g g' : Globals) (e : exn) :
  load_dataset FORCE_NAME_COL w g = (Raise e, g') ->
  reload_ds FORCE_NAME_COL w g = (Raise e, g').
Proof. intros H. unfold reload_ds, bind. now rewrite H. Qed.

(** C9.  When the source file is missing, or [pd.read_csv] raises in each of
    the seven encodings, [reload_ds] raises the error of [load_dataset] to its
    caller and [DF], [NAME_COL] and [DISPLAY_COLS] are left as they were. *)
Theorem reload_failure_keeps_snapshot (w : World) (g : Globals) :
  path_exists w = false \/
  (forall enc, In enc encs -> exists e, read_csv w enc = Raise e) ->
  exists e,
    load_dataset FORCE_NAME_COL w g = (Raise e, g) /\
    reload_ds FORCE_NAME_COL w g = (Raise e, g).
Proof.
  intros H.
  assert (exists e, load_dataset FORCE_NAME_COL w g = (Raise e, g)) as [e He].
  { unfold load_dataset. destruct H as [-> | H]; simpl.
    - exists FileNotFoundError. reflexivity.
    - destruct (path_exists w); simpl; [|eexists; reflexivity].
      unfold bind, lift, _read_csv_with_fallbacks.
      destruct (read_loop_fails w encs None H) as [e ->]. eexists; reflexivity. }
  exists e. split; [assumption|].
  apply reload_ds_raise. exact He.
Qed.

End Loading.

(** ** Lists of cells *)

Lemma select_map_filter {A} (p : A -> bool) (l : list A) :
  select (map p l) l = filter p l.
Proof.
  induction l as [|x l IH]; simpl; [reflexivity|].
  destruct (p x); now rewrite IH.
Qed.

Lemma filter_filter {A} (p q : A -> bool) (l : list A) :
  filter p (filter q l) = filter (fun x => q x && p x) l.
Proof.
  induction l as [|x l IH]; simpl; [reflexivity|].
  destruct (q x); simpl; [destruct (p x)|]; now rewrite IH.
Qed.

Lemma drop_dup_from_first_occurrences (seen l : list str) :
  drop_dup_from seen l =
  filter (fun y => negb (mem y seen)) (first_occurrences l).
Proof.
  revert seen. induction l as [|x l IH]; intros seen; simpl; [reflexivity|].
  rewrite filter_filter. destruct (mem x seen) eqn:Hx; simpl.
  - rewrite IH. apply filter_ext_in. intros y _.
    destruct (str_eqb y x) eqn:E; simpl; [|reflexivity].
    apply str_eqb_eq in E. subst y. now rewrite Hx.
  - f_equal. rewrite IH. apply filter_ext. intros y.
    unfold mem; simpl. apply negb_orb.
Qed.

Lemma drop_duplicates_first_occurrences (l : list str) :
  drop_duplicates l = first_occurrences l.
Proof.
  unfold drop_duplicates. rewrite drop_dup_from_first_occurrences.
  induction (first_occurrences l) as [|x t IH]; simpl; [reflexivity|].
  f_equal. exact IH.
Qed.

Lemma first_occurrences_In (x : str) (l : list str) :
  In x (first_occurrences l) <-> In x l.
Proof.
  induction l as [|y l IH]; simpl; [tauto|].
  rewrite filter_In, IH. split.
  - intros [H | [H _]]; auto.
  - intros [H | H]; auto.
    destruct (str_eqb x y) eqn:E.
    + apply str_eqb_eq in E. auto.
    + right. split; [assumption | reflexivity].
Qed.

Lemma first_occurrences_NoDup (l : list str) : NoDup (first_occurrences l).
Proof.
  induction l as [|y l IH]; simpl; constructor.
  - rewrite filter_In. intros [_ H]. now rewrite str_eqb_refl in H.
  - now apply NoDup_filter.
Qed.

Lemma head_nonneg {A} (n : Z) (l : list A) :
  (0 <= n)%Z -> head n l = firstn (Z.to_nat n) l.
Proof.
  intros H. unfold head. destruct (0 <=? n)%Z eqn:E; [reflexivity|].
  apply Z.leb_gt in E. lia.
Qed.

Lemma truthy_not_empty (x : str) : negb (str_eqb x []) = truthy x.
Proof. destruct x; reflexivity. Qed.

(** ** Suggestions for an empty query *)

Section SuggestEmpty.

Context {R : PyRuntime}.

(** C8.  When the query is empty after normalisation, [suggest] answers with
    the [head(limit)] of the distinct non-empty trimmed values of the name
    column, in row order, the first occurrence of a value standing for its
    repetitions; for a [limit] that is not negative these are the first
    [limit] of them, and for a negative [limit] all of them but the last
    [-limit]. *)
Theorem suggest_empty_query
    (q : str) (limit : Z) (g : Globals) (df : DataFrame) (names : Series) :
  DF g = Some df ->
  getcol df (NAME_COL g) = Some names ->
  strip_marks q = [] ->
  let distinct := first_occurrences (filter truthy (map strip names)) in
  suggest q limit g = (Ok (head limit distinct), g) /\
  ((0 <= limit)%Z -> head limit distinct = firstn (Z.to_nat limit) distinct) /\
  ((limit < 0)%Z ->
   head limit distinct
   = firstn (length distinct - Z.to_nat (- limit)) distinct).
Proof.
  intros HDF Hcol Hq distinct.
  split; [|split; [apply head_nonneg|]];
    [|intros Hneg; unfold head;
      destruct (Z.leb_spec 0 limit); [lia | reflexivity]].
  unfold suggest. rewrite Hq. simpl.
  unfold bind, get, DF_getitem, bind, get, lift, getitem, ret.
  rewrite HDF, Hcol. do 3 f_equal.
  rewrite drop_duplicates_first_occurrences. unfold distinct. f_equal.
  rewrite select_map_filter. apply filter_ext, truthy_not_empty.
Qed.

End SuggestEmpty.

(** ** Internal columns *)

Section Internal.

Context {R : PyRuntime}.

Lemma preference_visible :
  Forall (fun c => visible c = true) DISPLAY_COLS_PREFERENCE.
Proof. repeat constructor. Qed.

Lemma add_preferred_keeps (P : str -> Prop) (df : DataFrame)
    (cands cols : list str) :
  Forall P cands -> Forall P cols ->
  Forall P (fold_left (add_preferred df) cands cols).
Proof.
  revert cols. induction cands as [|c cands IH]; intros cols Hc Hcols; simpl.
  - assumption.
  - inversion Hc; subst. apply IH; [assumption|].
    unfold add_preferred. destruct (_ && _); [|assumption].
    apply Forall_app. split; [assumption | now constructor].
Qed.

Lemma add_other_keeps (P : str -> Prop) (cs cols : list str) :
  (forall c, visible c = true -> P c) -> Forall P cols ->
  Forall P (fold_left add_other cs cols).
Proof.
  intros HP. revert cols. induction cs as [|c cs IH]; intros cols Hcols; simpl.
  - assumption.
  - apply IH. unfold add_other.
    destruct (negb (mem c cols) && negb (startswith (py "_") c)) eqn:E;
      [|assumption].
    apply andb_true_iff in E. destruct E as [_ E].
    apply Forall_app. split; [assumption|]. constructor; [|constructor].
    apply HP. exact E.
Qed.

Lemma build_display_cols_eq (df : DataFrame) (name_col : str) :
  build_display_cols df name_col =
  fold_left add_other (columns df)
            (fold_left (add_preferred df) DISPLAY_COLS_PREFERENCE [name_col]).
Proof. reflexivity. Qed.

Lemma build_display_cols_members (df : DataFrame) (name_col : str) :
  Forall (fun c => c = name_col \/ visible c = true)
         (build_display_cols df name_col).
Proof.
  rewrite build_display_cols_eq.
  apply add_other_keeps; [now right|].
  apply add_preferred_keeps.
  - eapply Forall_impl; [|apply preference_visible]. now right.
  - constructor; [now left | constructor].
Qed.

Lemma lookup_rows_shape (name : str) (g g' : Globals) (r : LookupResponse) :
  lookup name g = (Ok r, g') ->
  exists exact : DataFrame,
    rows r = map (filter (fun kv => visible (fst kv))) (iterrows exact).
Proof.
  unfold lookup. destruct (negb (truthy (strip name))); [discriminate|].
  unfold bind at 1. destruct (DF_getitem _ g) as [[keys|e] g1]; [|discriminate].
  unfold bind at 1. destruct (DF_select _ g1) as [[ex|e] g2]; [|discriminate].
  unfold bind at 1.
  match goal with |- context [ (if ?b then ?m1 else ?m2) g2 ] =>
    destruct ((if b then m1 else m2) g2) as [[ex'|e] g3] end; [|discriminate].
  unfold ret. intros [= <- _]. simpl. exists ex'. reflexivity.
Qed.

(** C5, as the program has it.  No column whose name starts with [_] is in
    the [columns] of [meta] or among the keys of a row of [lookup]; in the
    list of [build_display_cols] the only name that may start with [_] is
    that of the name column, which is always listed. *)
Theorem internal_columns_hidden
    (g : Globals) (name : str) (df : DataFrame) (name_col : str) :
  on_ok (meta g)
        (fun r => Forall (fun c => visible c = true) (meta_columns r)) /\
  on_ok (lookup name g)
        (fun r => Forall (Forall (fun kv => visible (fst kv) = true)) (rows r)) /\
  Forall (fun c => c = name_col \/ visible c = true)
         (build_display_cols df name_col) /\
  In name_col (build_display_cols df name_col).
Proof.
  split; [|split; [|split]].
  - unfold on_ok, meta, bind, get. destruct (DF g); simpl; [|exact I].
    apply Forall_forall. intros c Hc. now apply filter_In in Hc.
  - unfold on_ok. destruct (lookup name g) as [[r|e] g'] eqn:E; simpl; [|exact I].
    destruct (lookup_rows_shape _ _ _ _ E) as [exact ->].
    apply Forall_forall. intros row Hrow. apply in_map_iff in Hrow.
    destruct Hrow as (row0 & <- & _).
    apply Forall_forall. intros kv Hkv. now apply filter_In in Hkv.
  - apply build_display_cols_members.
  - rewrite build_display_cols_eq.
    assert (forall cs cols, In name_col cols ->
              In name_col (fold_left add_other cs cols)) as Ho.
    { induction cs as [|c cs IH]; intros cols H; simpl; [assumption|].
      apply IH. unfold add_other. destruct (_ && _); [|assumption].
      apply in_or_app. now left. }
    assert (forall cs cols, In name_col cols ->
              In name_col (fold_left (add_preferred df) cs cols)) as Hp.
    { induction cs as [|c cs IH]; intros cols H; simpl; [assumption|].
      apply IH. unfold add_preferred. destruct (_ && _); [|assumption].
      apply in_or_app. now left. }
    apply Ho, Hp. now left.
Qed.

End Internal.

(** ** The normaliser *)

Lemma dropwhile_idem {A} (p : A -> bool) (l : list A) :
  dropwhile p (dropwhile p l) = dropwhile p l.
Proof.
  induction l as [|x l IH]; simpl; [reflexivity|].
  destruct (p x) eqn:E; [assumption|]. simpl. now rewrite E.
Qed.

Lemma dropwhile_head {A} (p : A -> bool) (l l' : list A) (x : A) :
  dropwhile p l = x :: l' -> p x = false.
Proof.
  induction l as [|y l IH]; simpl; [discriminate|].
  destruct (p y) eqn:E; [assumption|]. intros [= <- _]. exact E.
Qed.

Lemma dropwhile_snoc {A} (p : A -> bool) (l : list A) (x : A) :
  p x = false -> dropwhile p (l ++ [x]) = dropwhile p l ++ [x].
Proof.
  intros Hx. induction l as [|y l IH]; simpl.
  - now rewrite Hx.
  - destruct (p y); [assumption | reflexivity].
Qed.

Lemma dropwhile_incl {A} (p : A -> bool) (l : list A) :
  incl (dropwhile p l) l.
Proof.
  induction l as [|y l IH]; simpl; [apply incl_refl|].
  destruct (p y); [now apply incl_tl | apply incl_refl].
Qed.

Lemma strip_incl (s : str) : incl (strip s) s.
Proof.
  unfold strip, rstrip, lstrip. intros c Hc.
  apply in_rev in Hc. apply dropwhile_incl in Hc. apply in_rev in Hc.
  now apply dropwhile_incl in Hc.
Qed.

Lemma rstrip_idem (s : str) : rstrip (rstrip s) = rstrip s.
Proof. unfold rstrip. now rewrite rev_involutive, dropwhile_idem. Qed.

Lemma rstrip_cons (x : cp) (s : str) :
  isspace x = false -> rstrip (x :: s) = x :: rstrip s.
Proof.
  intros Hx. unfold rstrip. simpl.
  now rewrite dropwhile_snoc, rev_app_distr.
Qed.

(** [strip] leaves a stripped string as it is. *)
Lemma strip_idem (s : str) : strip (strip s) = strip s.
Proof.
  unfold strip. destruct (lstrip s) as [|x a] eqn:E; [reflexivity|].
  pose proof (dropwhile_head _ _ _ _ E) as Hx.
  rewrite (rstrip_cons x a Hx). unfold lstrip at 1. simpl. rewrite Hx.
  rewrite <- (rstrip_cons x a Hx). apply rstrip_idem.
Qed.

Lemma filter_all {A} (p : A -> bool) (l : list A) :
  (forall x, In x l -> p x = true) -> filter p l = l.
Proof.
  induction l as [|x l IH]; intros H; simpl; [reflexivity|].
  rewrite (H x (or_introl eq_refl)). f_equal. apply IH.
  intros y Hy. apply H. now right.
Qed.

Section Normaliser.

Context {R : PyRuntime} {L : UnicodeLaws R}.

(** C7, as the program has it.  [strip_marks] applied twice is [strip_marks]
    applied once on every string whose normal form NFKD leaves unchanged. *)
Theorem strip_marks_idempotent (x : str) :
  nfkd (strip_marks x) = strip_marks x ->
  strip_marks (strip_marks x) = strip_marks x.
Proof.
  intros Hn. unfold strip_marks at 1. cbv zeta. rewrite Hn.
  assert (incl (strip_marks x)
               (lower (filter (fun ch => negb (is_Mn ch)) (nfkd x)))) as Hin
    by apply strip_incl.
  rewrite filter_all.
  - rewrite (lower_stable _ _ Hin). apply strip_idem.
  - intros c Hc. apply Hin in Hc. apply lower_no_Mn in Hc. now rewrite Hc.
Qed.

End Normaliser.

(** ** The choice of the name column *)

Lemma last_with_unique {A} (P : A -> Prop) (l : list A) (x y : A) :
  last_with P l x -> last_with P l y -> x = y.
Proof.
  intros (pre & post & -> & Px & Hpost) (pre' & post' & E & Py & Hpost').
  revert pre' E. induction pre as [|z pre IH]; intros [|z' pre'] E;
    simpl in E; injection E as E1 E2; subst.
  - reflexivity.
  - exfalso.
    eapply Hpost; [apply in_or_app; right; left; reflexivity | assumption].
  - exfalso.
    eapply Hpost'; [apply in_or_app; right; left; reflexivity | assumption].
  - now apply (IH pre').
Qed.

Lemma first_with_unique {A} (P : A -> Prop) (l : list A) (x y : A) :
  first_with P l x -> first_with P l y -> x = y.
Proof.
  intros (pre & post & -> & Px & Hpre) (pre' & post' & E & Py & Hpre').
  revert pre' E Hpre'. induction pre as [|z pre IH]; intros [|z' pre'] E Hpre';
    simpl in E; injection E as E1 E2; subst.
  - reflexivity.
  - exfalso. eapply Hpre'; [left; reflexivity | assumption].
  - exfalso. eapply Hpre; [left; reflexivity | assumption].
  - apply (IH (fun w Hw => Hpre w (or_intror Hw)) pre'); [assumption|].
    intros w Hw. apply Hpre'. now right.
Qed.

Section ResolutionProofs.

Context {R : PyRuntime}.
Variable FORCE_NAME_COL : option str.

Lemma dict_get_None (k : str) (cols : list str) :
  dict_get k (lower_map cols) = None ->
  forall c, In c cols -> lower c <> k.
Proof.
  induction cols as [|c0 cols IH]; simpl; [intros _ c []|].
  destruct (dict_get k (lower_map cols)); [discriminate|].
  destruct (str_eqb k (lower c0)) eqn:E; [discriminate|].
  intros _ c [<- | Hc].
  - apply str_eqb_neq in E. congruence.
  - now apply IH.
Qed.

Lemma dict_get_Some (k : str) (cols : list str) (c : str) :
  dict_get k (lower_map cols) = Some c ->
  last_with (fun c => lower c = k) cols c.
Proof.
  revert c. induction cols as [|c0 cols IH]; intros c; simpl; [discriminate|].
  destruct (dict_get k (lower_map cols)) as [v|] eqn:D.
  - intros [= <-]. destruct (IH v eq_refl) as (pre & post & -> & Hv & Hpost).
    exists (c0 :: pre), post. auto.
  - destruct (str_eqb k (lower c0)) eqn:E; [|discriminate].
    intros [= <-]. apply str_eqb_eq in E.
    exists [], cols. split; [reflexivity|]. split; [congruence|].
    intros y Hy. eapply dict_get_None; eassumption.
Qed.

Lemma dict_get_has_header (cand : str) (cols : list str) :
  has_header cols cand <-> dict_get (lower cand) (lower_map cols) <> None.
Proof.
  split.
  - intros (c & Hc & E) D. now apply (dict_get_None _ _ D c).
  - intros D. destruct (dict_get _ _) as [c|] eqn:E; [|congruence].
    destruct (dict_get_Some _ _ _ E) as (pre & post & -> & Hc & _).
    exists c. split; [|assumption]. apply in_or_app. right. now left.
Qed.

Lemma first_preferred_None (cands cols : list str) :
  first_preferred cands (lower_map cols) = None ->
  forall cand, In cand cands -> ~ has_header cols cand.
Proof.
  induction cands as [|c0 cands IH]; simpl; [intros _ cand []|].
  destruct (dict_get (lower c0) (lower_map cols)) eqn:D; [discriminate|].
  intros H cand [<- | Hc].
  - rewrite dict_get_has_header. congruence.
  - now apply IH.
Qed.

Lemma first_preferred_Some (cands cols : list str) (c : str) :
  first_preferred cands (lower_map cols) = Some c ->
  exists cand,
    first_with (has_header cols) cands cand /\
    last_with (fun c => lower c = lower cand) cols c.
Proof.
  induction cands as [|c0 cands IH]; simpl; [discriminate|].
  destruct (dict_get (lower c0) (lower_map cols)) as [v|] eqn:D.
  - intros [= <-]. exists c0. split; [|now apply dict_get_Some].
    exists [], cands. split; [reflexivity|]. split; [|intros y []].
    apply dict_get_has_header. congruence.
  - intros H. destruct (IH H) as (cand & (pre & post & -> & Hc & Hpre) & Hl).
    exists cand. split; [|assumption].
    exists (c0 :: pre), post. split; [reflexivity|]. split; [assumption|].
    intros y [<- | Hy]; [|now apply Hpre].
    rewrite dict_get_has_header. congruence.
Qed.

Lemma override_None (df : DataFrame) :
  override FORCE_NAME_COL df = None <-> no_override FORCE_NAME_COL df.
Proof.
  unfold override, no_override. destruct FORCE_NAME_COL as [f|].
  - destruct f as [|x f]; simpl.
    + split; [intros _ f' [= <-]; now left | reflexivity].
    + destruct (mem (x :: f) (columns df)) eqn:E.
      * split; [discriminate|]. intros H.
        destruct (H _ eq_refl) as [H1 | H1]; [discriminate|].
        apply mem_In in E. contradiction.
      * split; [|reflexivity]. intros _ f' [= <-]. right.
        now apply mem_not_In.
  - split; [intros _ f [=] | reflexivity].
Qed.

Lemma override_Some (df : DataFrame) (f : str) :
  override FORCE_NAME_COL df = Some f <->
  FORCE_NAME_COL = Some f /\ f <> [] /\ In f (columns df).
Proof.
  unfold override. destruct FORCE_NAME_COL as [f0|].
  - destruct f0 as [|x f0]; simpl.
    + split; [discriminate|]. intros ([= <-] & H & _). congruence.
    + destruct (mem (x :: f0) (columns df)) eqn:E.
      * apply mem_In in E. split.
        -- intros [= <-]. repeat split; [discriminate | assumption].
        -- intros ([= <-] & _). reflexivity.
      * apply mem_not_In in E. split; [discriminate|].
        intros ([= <-] & _ & H). contradiction.
  - split; [discriminate | intros ([=] & _)].
Qed.

Lemma schema_absent (df : DataFrame) :
  no_schema_header df <->
  mem (py "Full Name (English)") (columns df) = false /\
  mem (py "Full Name (Marathi)") (columns df) = false /\
  mem (py "Full Name") (columns df) = false.
Proof.
  unfold no_schema_header, schema_headers. rewrite !mem_not_In. split.
  - intros H. repeat split; apply H; simpl; auto.
  - intros (H1 & H2 & H3) h [<- | [<- | [<- | []]]]; assumption.
Qed.

Lemma choose_name_col_no_schema (df : DataFrame) :
  no_schema_header df ->
  choose_name_col FORCE_NAME_COL df = pick_name_column FORCE_NAME_COL df.
Proof.
  intros H. apply schema_absent in H. destruct H as (H1 & H2 & H3).
  unfold choose_name_col. now rewrite H1, H2, H3.
Qed.

Lemma choose_name_col_resolves (df : DataFrame) :
  resolves FORCE_NAME_COL df (choose_name_col FORCE_NAME_COL df).
Proof.
  destruct (mem (py "Full Name (English)") (columns df)) eqn:H1;
    [|destruct (mem (py "Full Name (Marathi)") (columns df)) eqn:H2;
      [|destruct (mem (py "Full Name") (columns df)) eqn:H3]].
  - unfold choose_name_col. rewrite H1. apply by_schema.
    exists [], (tl schema_headers). split; [reflexivity|].
    split; [now apply mem_In | intros y []].
  - unfold choose_name_col. rewrite H1, H2. apply by_schema.
    exists [py "Full Name (English)"], [py "Full Name"].
    split; [reflexivity|]. split; [now apply mem_In|].
    intros y [<- | []]. now apply mem_not_In.
  - unfold choose_name_col. rewrite H1, H2, H3. apply by_schema.
    exists [py "Full Name (English)"; py "Full Name (Marathi)"], [].
    split; [reflexivity|]. split; [now apply mem_In|].
    intros y [<- | [<- | []]]; now apply mem_not_In.
  - assert (no_schema_header df) as Hs by (apply schema_absent; auto).
    rewrite (choose_name_col_no_schema df Hs). unfold pick_name_column.
    destruct (override FORCE_NAME_COL df) as [f|] eqn:Ho.
    + apply override_Some in Ho. destruct Ho as (Hf & Hne & Hin).
      now apply by_override.
    + apply override_None in Ho.
      destruct (first_preferred _ _) as [c|] eqn:Hp.
      * destruct (first_preferred_Some _ _ _ Hp) as (cand & Hfirst & Hlast).
        now apply by_header with cand.
      * apply by_heuristic; try assumption.
        now apply first_preferred_None.
Qed.

End ResolutionProofs.

Section ResolutionOfLoad.

Context {R : PyRuntime}.
Variable FORCE_NAME_COL : option str.

Lemma in_schema_headers (pre post : list str) (h : str) :
  schema_headers = pre ++ h :: post ->
  pre = [] /\ h = py "Full Name (English)" \/
  pre = [py "Full Name (English)"] /\ h = py "Full Name (Marathi)" \/
  pre = [py "Full Name (English)"; py "Full Name (Marathi)"] /\
  h = py "Full Name".
Proof.
  unfold schema_headers.
  destruct pre as [|a [|b [|c pre]]]; simpl; intros E.
  - injection E as <- _. auto.
  - injection E as <- <- _. auto.
  - injection E as <- <- <- _. auto.
  - injection E as _ _ _ E. destruct pre; discriminate.
Qed.

Lemma resolves_choose_name_col (df : DataFrame) (r : result str) :
  resolves FORCE_NAME_COL df r -> choose_name_col FORCE_NAME_COL df = r.
Proof.
  intros H. destruct H as [h (pre & post & E & Hin & Hpre) | f Hs Hf Hne Hin
                          | cand c Hs Ho Hfirst Hlast | Hs Ho Hnone].
  - unfold choose_name_col.
    destruct (in_schema_headers _ _ _ E) as [[-> ->] | [[-> ->] | [-> ->]]].
    + apply mem_In in Hin. now rewrite Hin.
    + rewrite (proj2 (mem_not_In _ _) (Hpre _ (or_introl eq_refl))).
      apply mem_In in Hin. now rewrite Hin.
    + rewrite (proj2 (mem_not_In _ _) (Hpre _ (or_introl eq_refl))).
      rewrite (proj2 (mem_not_In _ _) (Hpre _ (or_intror (or_introl eq_refl)))).
      apply mem_In in Hin. now rewrite Hin.
  - rewrite (choose_name_col_no_schema _ df Hs). unfold pick_name_column.
    now rewrite (proj2 (override_Some _ df f) (conj Hf (conj Hne Hin))).
  - rewrite (choose_name_col_no_schema _ df Hs). unfold pick_name_column.
    rewrite (proj2 (override_None _ df) Ho).
    destruct (first_preferred _ _) as [c'|] eqn:Hp.
    + destruct (first_preferred_Some _ _ _ Hp) as (cand' & Hfirst' & Hlast').
      pose proof (first_with_unique _ _ _ _ Hfirst Hfirst') as <-.
      now rewrite (last_with_unique _ _ _ _ Hlast Hlast').
    + exfalso. destruct Hfirst as (pre & post & E & Hh & _).
      apply (first_preferred_None _ _ Hp cand); [|assumption].
      rewrite E. apply in_or_app. right. now left.
  - rewrite (choose_name_col_no_schema _ df Hs). unfold pick_name_column.
    rewrite (proj2 (override_None _ df) Ho).
    destruct (first_preferred _ _) as [c'|] eqn:Hp; [|reflexivity].
    exfalso.
    destruct (first_preferred_Some _ _ _ Hp)
      as (cand & (pre & post & E & Hh & _) & _).
    apply (Hnone cand); [|assumption].
    rewrite E. apply in_or_app. right. now left.
Qed.

(** A load that returns has assigned the three globals from the frame it
    read. *)
Lemma load_dataset_ok (w : World) (g g' : Globals) :
  load_dataset FORCE_NAME_COL w g = (Ok tt, g') ->
  exists df nc df',
    path_exists w = true /\
    _read_csv_with_fallbacks w = Ok df /\
    choose_name_col FORCE_NAME_COL df = Ok nc /\
    g' = {| DF := Some df'; NAME_COL := nc;
            DISPLAY_COLS := build_display_cols df' nc |}.
Proof.
  unfold load_dataset.
  destruct (path_exists w); simpl; [|discriminate].
  unfold bind at 1, lift at 1.
  destruct (_read_csv_with_fallbacks w) as [df|e]; [|discriminate].
  unfold bind at 1, lift at 1.
  destruct (choose_name_col FORCE_NAME_COL df) as [nc|e] eqn:Hc;
    [|discriminate].
  unfold bind at 1, lift at 1.
  destruct (getitem df nc) as [n1|e]; [|discriminate].
  unfold bind at 1, lift at 1.
  destruct (getitem _ nc) as [n2|e]; [|discriminate].
  unfold bind at 1, lift at 1.
  destruct (getitem _ nc) as [n3|e]; [|discriminate].
  cbv [set_DF set_NAME_COL set_DISPLAY_COLS bind get put lift].
  destruct (stdout_print w _) as [[]|e]; [|discriminate].
  intros [= <-]. exists df, nc. eexists. repeat split. exact Hc.
Qed.

(** C1, as the program has it.  The name column of a loaded table is the
    first of the headers [Full Name (English)], [Full Name (Marathi)],
    [Full Name] that the table has; without any of them it is the override
    when that is not empty and names a column; otherwise the last column
    that carries, letter case aside, the first header of the priority list
    carried by any column; otherwise the choice of the textiness heuristic.
    The program chooses this column and no other. *)
Theorem name_column_resolution (w : World) (g g' : Globals) (df : DataFrame) :
  _read_csv_with_fallbacks w = Ok df ->
  load_dataset FORCE_NAME_COL w g = (Ok tt, g') ->
  resolves FORCE_NAME_COL df (Ok (NAME_COL g')) /\
  forall r, resolves FORCE_NAME_COL df r -> r = Ok (NAME_COL g').
Proof.
  intros Hread Hload.
  destruct (load_dataset_ok _ _ _ Hload)
    as (df0 & nc & df' & _ & Hread' & Hchoose & ->).
  rewrite Hread in Hread'. injection Hread' as <-. simpl. split.
  - rewrite <- Hchoose. apply choose_name_col_resolves.
  - intros r Hr. apply resolves_choose_name_col in Hr. congruence.
Qed.

End ResolutionOfLoad.

(** ** Exact means and thresholds *)

Lemma Qsum_bools (bs : list bool) :
  (Frag.Qsum (map Q_of_bool bs)
   == inject_Z (Z.of_nat (length (filter (fun b => b) bs))))%Q.
Proof.
  induction bs as [|b bs IH]; simpl; [reflexivity|].
  rewrite IH. destruct b; simpl length; unfold Q_of_bool.
  - rewrite Nat2Z.inj_succ, <- Z.add_1_l, inject_Z_plus. reflexivity.
  - apply Qplus_0_l.
Qed.

Lemma ge_half_div (a : Q) (n : nat) :
  (0 < n)%nat ->
  Qle_bool (1 # 2) (a / inject_Z (Z.of_nat n)) = true <->
  (inject_Z (Z.of_nat n) <= 2 * a)%Q.
Proof.
  intros Hn. rewrite Qle_bool_iff.
  assert (0 < inject_Z (Z.of_nat n))%Q as Hpos.
  { unfold Qlt; simpl. lia. }
  split; intros H.
  - apply (Qmult_le_compat_r _ _ (inject_Z (Z.of_nat n))) in H;
      [|now apply Qlt_le_weak].
    rewrite (Qmult_comm (a / _)), Qmult_div_r in H
      by (intros E; rewrite E in Hpos; discriminate).
    apply (Qmult_le_compat_r _ _ 2) in H; [|discriminate].
    setoid_replace ((1 # 2) * inject_Z (Z.of_nat n) * 2)%Q
      with (inject_Z (Z.of_nat n)) in H by ring.
    now rewrite (Qmult_comm a) in H.
  - apply Qle_shift_div_l; [assumption|].
    apply (Qmult_le_l _ _ 2); [reflexivity|].
    setoid_replace (2 * ((1 # 2) * inject_Z (Z.of_nat n)))%Q
      with (inject_Z (Z.of_nat n)) by ring.
    assumption.
Qed.

Lemma Qsum_nonneg (l : list Q) :
  Forall (fun q => 0 <= q)%Q l -> (0 <= Frag.Qsum l)%Q.
Proof.
  induction 1 as [|q l Hq _ IH]; simpl; [apply Qle_refl|].
  replace 0%Q with (0 + 0)%Q by reflexivity. now apply Qplus_le_compat.
Qed.

#[export] Instance Frag_float_laws : FloatLaws Frag_runtime.
Proof.
  split; simpl.
  - intros a b. unfold Frag.fdiv, Qle; simpl. lia.
  - intros l. destruct l; simpl; split; congruence.
  - intros l m Hl. destruct l as [|q l]; [discriminate|].
    unfold Frag.fmean. intros [= <-].
    apply Qle_shift_div_l.
    + unfold Qlt; simpl. lia.
    + rewrite Qmult_0_l. exact (Qsum_nonneg (q :: l) Hl).
  - intros bs. destruct bs as [|b bs].
    + simpl. split; [discriminate | intros [H _]; congruence].
    + remember (b :: bs) as l eqn:El. unfold Frag.fmean, nan_ge.
      destruct (map Q_of_bool l) as [|q t] eqn:Em;
        [subst l; discriminate|]. rewrite <- Em.
      rewrite length_map, ge_half_div by (subst l; simpl; lia).
      rewrite Qsum_bools. change 2%Q with (inject_Z 2).
      rewrite <- inject_Z_mult, <- Zle_Qle. split.
      * intros H. split; [subst l; discriminate | lia].
      * intros [_ H]. lia.
Qed.

(** ** Identifier-like columns and the heuristic *)

Lemma In_getcol (df : DataFrame) (c : str) (s : Series) :
  NoDup (columns df) -> In (c, s) df -> getcol df c = Some s.
Proof.
  induction df as [|[c' s'] df IH]; simpl; [intros _ []|].
  intros Hnd [[= -> ->] | Hin].
  - now rewrite str_eqb_refl.
  - inversion Hnd as [|? ? Hnotin Hnd']; subst.
    destruct (str_eqb c c') eqn:E; [|now apply IH].
    apply str_eqb_eq in E. subst c'. exfalso. apply Hnotin.
    unfold columns. apply in_map_iff. now exists (c, s).
Qed.

Section Classifier.

Context {R : PyRuntime} {SL : SampleLaws R} {FL : FloatLaws R}.
Variable FORCE_NAME_COL : option str.

Lemma sample_size (seed : N) (s : Series) :
  length (sample seed s) = Nat.min (length s) 300.
Proof.
  unfold sample. rewrite length_map. apply sample_length. lia.
Qed.

Lemma sample_empty (seed : N) (s : Series) : sample seed s = [] -> s = [].
Proof.
  intros H. apply (f_equal (@length str)) in H. rewrite sample_size in H.
  destruct s as [|x s]; [reflexivity|]. exfalso. simpl length in H. lia.
Qed.

Lemma match_rate_half (s : Series) :
  nan_ge (match_rate s) (1 # 2) = true <-> half_match s.
Proof.
  unfold half_match, match_rate, count. rewrite fmean_bools.
  rewrite length_map.
  assert (length (filter (fun b => b) (map (fullmatch epic_pat) s))
          = length (filter (fullmatch epic_pat) s)) as ->.
  { induction s as [|x s IH]; simpl; [reflexivity|].
    destruct (fullmatch epic_pat x); simpl; now rewrite IH. }
  destruct s; simpl; split; intros [H1 H2]; split; auto; discriminate.
Qed.

Lemma digit_rate_half (s : Series) :
  nan_ge (digit_rate s) (1 # 2) = true <-> half_digits s.
Proof.
  unfold half_digits, digit_rate, nan_ge.
  destruct (fmean _) as [m|].
  - rewrite Qle_bool_iff. split.
    + intros H. now exists m.
    + intros (m' & [= <-] & H). exact H.
  - split; [discriminate | intros (m' & [=] & _)].
Qed.

Lemma is_probably_epic_spec (s : Series) :
  _is_probably_epic s = true <-> identifier_like s.
Proof.
  unfold _is_probably_epic, identifier_like.
  now rewrite orb_true_iff, match_rate_half, digit_rate_half.
Qed.

Lemma epic_empty : _is_probably_epic [] = false.
Proof.
  unfold _is_probably_epic, match_rate, digit_rate.
  assert (sample 0 [] = []) as ->
    by (apply length_zero_iff_nil; now rewrite sample_size).
  simpl map. now rewrite (proj2 (fmean_nan []) eq_refl).
Qed.

Lemma alpha_ratio_nonneg (x : str) : (0 <= _alpha_ratio x)%Q.
Proof.
  unfold _alpha_ratio. destruct (Nat.eqb _ _);
    [apply Qle_refl | apply fdiv_nonneg].
Qed.

Lemma score_nonneg (s : Series) (sc : Q) : score s = Some sc -> (0 <= sc)%Q.
Proof.
  unfold score. intros H. eapply fmean_nonneg; [|exact H].
  apply Forall_forall. intros q Hq.
  apply in_map_iff in Hq. destruct Hq as (x & <- & _).
  apply alpha_ratio_nonneg.
Qed.

Lemma score_None (s : Series) : score s = None -> s = [].
Proof.
  unfold score. rewrite fmean_nan. intros H.
  apply map_eq_nil in H. now apply sample_empty in H.
Qed.

Lemma loop_inv_step (seen : DataFrame) (acc : option str * Q)
    (col : str * Series) :
  loop_inv seen acc -> loop_inv (seen ++ [col]) (heuristic_step acc col).
Proof.
  destruct acc as [best bs], col as [c ser]. unfold loop_inv, heuristic_step.
  simpl fst; simpl snd. intros H.
  assert (forall c' s', In (c', s') seen -> In (c', s') (seen ++ [(c, ser)]))
    as Hmono by (intros; apply in_or_app; now left).
  assert (In (c, ser) (seen ++ [(c, ser)])) as Hlast
    by (apply in_or_app; right; now left).
  destruct (_is_probably_epic ser) eqn:Hepic.
  - destruct best as [b|]; simpl.
    + destruct H as (s & Hin & Hs). exists s. auto.
    + destruct H as [Hbs H]. split; [assumption|].
      intros c' s' Hin Hs'. apply in_app_or in Hin.
      destruct Hin as [Hin | [[= <- <-] | []]]; [eauto | congruence].
  - destruct (score ser) as [sc|] eqn:Hsc.
    + destruct (negb (Qle_bool sc bs)) eqn:Hcmp; simpl.
      * exists ser. auto.
      * destruct best as [b|]; simpl.
        -- destruct H as (s & Hin & Hs). exists s. auto.
        -- destruct H as [-> _]. exfalso.
           apply negb_false_iff, Qle_bool_iff in Hcmp.
           apply score_nonneg in Hsc.
           pose proof (Qle_trans _ _ _ Hsc Hcmp) as Habs.
           unfold Qle in Habs; simpl in Habs. lia.
    + destruct best as [b|]; simpl.
      * destruct H as (s & Hin & Hs). exists s. auto.
      * destruct H as [Hbs H]. split; [assumption|].
        intros c' s' Hin Hs'. apply in_app_or in Hin.
        destruct Hin as [Hin | [[= <- <-] | []]]; [eauto|].
        now apply score_None.
Qed.

Lemma loop_inv_fold (rest seen : DataFrame) (acc : option str * Q) :
  loop_inv seen acc ->
  loop_inv (seen ++ rest) (fold_left heuristic_step rest acc).
Proof.
  revert seen acc. induction rest as [|col rest IH]; intros seen acc H; simpl.
  - now rewrite app_nil_r.
  - replace (seen ++ col :: rest) with ((seen ++ [col]) ++ rest)
      by (now rewrite <- app_assoc).
    apply IH. now apply loop_inv_step.
Qed.

Lemma heuristic_not_epic (df : DataFrame) :
  well_formed df ->
  (exists c s, In (c, s) df /\ _is_probably_epic s = false) ->
  exists c s,
    heuristic df = Ok c /\ getcol df c = Some s /\
    _is_probably_epic s = false.
Proof.
  intros (Hnd & Hne & Hlen) (c0 & s0 & Hin0 & Hs0).
  pose proof (loop_inv_fold df [] (None, (-1)%Q)) as Hinv.
  simpl app in Hinv. unfold heuristic.
  destruct (fold_left heuristic_step df (None, (-1)%Q)) as [best bs].
  unfold loop_inv in Hinv. simpl in Hinv.
  destruct best as [b|].
  - destruct Hinv as (s & Hin & Hs).
    { split; [reflexivity | intros ? ? []]. }
    destruct b as [|x b].
    { exfalso. apply Hne. unfold columns. apply in_map_iff.
      now exists ([], s). }
    exists (x :: b), s.
    split; [reflexivity | split; [now apply In_getcol | assumption]].
  - destruct Hinv as [_ Hall].
    { split; [reflexivity | intros ? ? []]. }
    assert (nrows df = 0) as Hrows.
    { rewrite <- (Hlen _ _ Hin0). now rewrite (Hall _ _ Hin0 Hs0). }
    destruct df as [|[c1 s1] df]; [destruct Hin0|].
    exists c1, s1. simpl. rewrite str_eqb_refl.
    split; [reflexivity|]. split; [reflexivity|].
    simpl in Hrows. apply length_zero_iff_nil in Hrows. subst s1.
    apply epic_empty.
Qed.

(** C6, as the program has it.  A column is taken for identifier-like
    exactly when at least half of all its cells match the pattern of two to
    four capital letters and five to eight digits, or the mean digit ratio
    over the sample, of at most 300 cells, is at least one half.  On a table
    with no header hint, no override that names a column, and a column that
    is not identifier-like, the chosen name column is not identifier-like. *)
Theorem identifier_columns_excluded (df : DataFrame) :
  well_formed df ->
  no_schema_header df ->
  no_override FORCE_NAME_COL df ->
  (forall cand, In cand PREFERRED_NAME_COLUMNS ->
                ~ has_header (columns df) cand) ->
  (forall x, fullmatch epic_pat x = true <-> epic_code x) /\
  (forall s, (_is_probably_epic s = true <-> identifier_like s) /\
             length (sample 0 s) <= 300) /\
  ((exists c s, In (c, s) df /\ ~ identifier_like s) ->
   exists c s,
     choose_name_col FORCE_NAME_COL df = Ok c /\ getcol df c = Some s /\
     ~ identifier_like s).
Proof.
  intros Hwf Hs Ho Hh. split; [exact fullmatch_epic_pat|]. split.
  - intros s. split; [apply is_probably_epic_spec|].
    rewrite sample_size. lia.
  - intros (c0 & s0 & Hin0 & Hs0).
    rewrite (resolves_choose_name_col FORCE_NAME_COL df (heuristic df))
      by now apply by_heuristic.
    destruct (heuristic_not_epic df Hwf) as (c & s & Hc & Hg & He).
    + exists c0, s0. split; [assumption|].
      destruct (_is_probably_epic s0) eqn:E; [|reflexivity].
      exfalso. now apply Hs0, is_probably_epic_spec.
    + exists c, s. repeat split; try assumption.
      rewrite <- is_probably_epic_spec. congruence.
Qed.

End Classifier.

(** ** The derived keys of a loaded table *)

Lemma getcol_setcol_same (df : DataFrame) (c : str) (v : Series) :
  getcol (setcol df c v) c = Some v.
Proof.
  induction df as [|[c' old] df IH]; simpl.
  - now rewrite str_eqb_refl.
  - destruct (str_eqb c c') eqn:E; simpl; now rewrite E.
Qed.

Lemma getcol_setcol_other (df : DataFrame) (c c' : str) (v : Series) :
  c' <> c -> getcol (setcol df c v) c' = getcol df c'.
Proof.
  intros Hne. induction df as [|[c0 old] df IH]; simpl.
  - apply str_eqb_neq in Hne. now rewrite Hne.
  - destruct (str_eqb c c0) eqn:E; simpl; [|now rewrite IH].
    apply str_eqb_eq in E. subst c0.
    apply str_eqb_neq in Hne. now rewrite Hne.
Qed.

Section DerivedKeys.

Context {R : PyRuntime}.
Variable FORCE_NAME_COL : option str.

(** After a load, [_name_key] holds the trimmed, lower-cased names and
    [_name_norm] the normalised names, row by row, unless the name column is
    one of these two columns itself. *)
Lemma load_dataset_keys (w : World) (g g' : Globals) :
  load_dataset FORCE_NAME_COL w g = (Ok tt, g') ->
  NAME_COL g' <> py "_name_key" ->
  NAME_COL g' <> py "_name_norm" ->
  exists df names,
    DF g' = Some df /\
    getcol df (NAME_COL g') = Some names /\
    getcol df (py "_name_key") = Some (map (fun x => lower (strip x)) names) /\
    getcol df (py "_name_norm") = Some (map strip_marks names).
Proof.
  unfold load_dataset.
  destruct (path_exists w); simpl; [|discriminate].
  unfold bind at 1, lift at 1.
  destruct (_read_csv_with_fallbacks w) as [df|e]; [|discriminate].
  unfold bind at 1, lift at 1.
  destruct (choose_name_col FORCE_NAME_COL df) as [nc|e]; [|discriminate].
  unfold bind at 1, lift at 1, getitem at 1.
  destruct (getcol df nc) as [n1|] eqn:H1; [|discriminate].
  unfold bind at 1, lift at 1, getitem at 1.
  rewrite getcol_setcol_same.
  unfold bind at 1, lift at 1, getitem at 1.
  intros H Hk Hn.
  assert (NAME_COL g' = nc) as Hnc.
  { destruct (getcol (setcol _ _ _) nc); [|discriminate].
    cbv [bind set_DF set_NAME_COL set_DISPLAY_COLS get put lift] in H.
    destruct (stdout_print w _) as [[]|]; [|discriminate].
    now injection H as <-. }
  rewrite Hnc in Hk, Hn.
  rewrite getcol_setcol_other, getcol_setcol_same in H by assumption.
  cbv [bind set_DF set_NAME_COL set_DISPLAY_COLS get put lift] in H.
  destruct (stdout_print w _) as [[]|]; [|discriminate].
  injection H as <-. cbn [DF NAME_COL].
  eexists. exists n1. split; [reflexivity|]. split; [|split].
  - rewrite !getcol_setcol_other by assumption. apply getcol_setcol_same.
  - rewrite getcol_setcol_other by discriminate. apply getcol_setcol_same.
  - apply getcol_setcol_same.
Qed.

End DerivedKeys.

(** ** Plain patterns *)

Lemma startswith_prefix (p s : str) :
  startswith p s = true <-> exists post, s = p ++ post.
Proof.
  revert s. induction p as [|x p IH]; intros s; simpl.
  - split; [intros _; now exists s | reflexivity].
  - destruct s as [|y s].
    + split; [discriminate | intros (post & E); discriminate].
    + rewrite andb_true_iff, N.eqb_eq, IH. split.
      * intros (-> & post & ->). now exists post.
      * intros (post & E). injection E as -> ->. split; [reflexivity|].
        now exists post.
Qed.

(** [substring] is containment. *)
Lemma substring_infix (p s : str) :
  substring p s = true <-> exists pre post, s = pre ++ p ++ post.
Proof.
  induction s as [|y s IH]; cbn [substring].
  - rewrite orb_false_r, startswith_prefix. split.
    + intros (post & E). now exists [], post.
    + intros (pre & post & E). destruct pre; [now exists post|discriminate].
  - rewrite orb_true_iff, startswith_prefix, IH. split.
    + intros [(post & E) | (pre & post & ->)].
      * now exists [], post.
      * now exists (y :: pre), post.
    + intros (pre & post & E). destruct pre as [|x pre].
      * left. now exists post.
      * injection E as <- ->. right. now exists pre, post.
Qed.

(** The expression of a plain pattern: its characters in sequence. *)
Lemma lang_chars (pat s : str) :
  lang (fold_right (fun c acc => Seq (Chr c) acc) Eps pat) s <-> s = pat.
Proof.
  revert s. induction pat as [|c pat IH]; intros s; simpl.
  - split; [intros H; now inversion H | intros ->; constructor].
  - split.
    + intros H. inversion H as [| | | | ? ? s1 s2 H1 H2 | | | |]; subst.
      inversion H1; subst. apply IH in H2. now subst.
    + intros ->. apply (lang_seq (Chr c) _ [c] pat); [constructor|].
      now apply IH.
Qed.

Lemma Frag_parse_nil (stack : list Frag.frame) (o q : bool) :
  Frag.parse [] stack o q = Frag.finish stack.
Proof. destruct stack as [|top [|f below]]; reflexivity. Qed.

Lemma Frag_parse_plain (pat : str) (top : Frag.frame)
    (below : list Frag.frame) (o q : bool) :
  plain pat = true ->
  Frag.parse pat (top :: below) o q =
  Frag.finish ({| Frag.alts := Frag.alts top;
                  Frag.items := rev (map Chr pat) ++ Frag.items top |}
                 :: below).
Proof.
  revert top o q. induction pat as [|ch pat IH]; intros top o q Hp.
  - rewrite Frag_parse_nil. now destruct top.
  - simpl in Hp. apply andb_true_iff in Hp. destruct Hp as [Hc Hp].
    apply negb_true_iff in Hc. unfold special in Hc. simpl in Hc.
    repeat (apply orb_false_iff in Hc; destruct Hc as [? Hc]).
    cbn [Frag.parse].
    repeat match goal with
           | E : (ch =? _)%N = false |- _ => rewrite E; clear E
           end.
    cbn [orb]. rewrite IH by assumption. cbn [Frag.alts Frag.items].
    cbn [map rev]. now rewrite <- app_assoc.
Qed.

Lemma Frag_seq_of_rev (pat : str) :
  Frag.seq_of (rev (map Chr pat))
  = fold_right (fun c acc => Seq (Chr c) acc) Eps pat.
Proof.
  unfold Frag.seq_of. induction pat as [|c pat IH]; simpl; [reflexivity|].
  rewrite fold_left_app. simpl. now rewrite IH.
Qed.

#[export] Instance Frag_regex_laws : RegexLaws Frag_runtime.
Proof.
  split. intros pat Hp. simpl. unfold Frag.re_compile.
  rewrite Frag_parse_plain by assumption. cbn [Frag.finish Frag.close].
  cbn [Frag.alts Frag.items fold_left]. rewrite app_nil_r.
  eexists. split; [reflexivity|]. intros s.
  change (Frag.close {| Frag.alts := []; Frag.items := rev (map Chr pat) |})
    with (Frag.seq_of (rev (map Chr pat))).
  rewrite Frag_seq_of_rev.
  destruct (substring pat s) eqn:E.
  - apply search_lang. apply substring_infix in E.
    destruct E as (pre & post & ->). exists pre, pat, post.
    split; [reflexivity | now apply lang_chars].
  - destruct (search _ s) eqn:E'; [|reflexivity].
    apply search_lang in E'. destruct E' as (pre & mid & post & -> & H).
    apply lang_chars in H. subst mid.
    assert (substring pat (pre ++ pat ++ post) = true) as E''
      by (apply substring_infix; now exists pre, post).
    congruence.
Qed.

(** ** Queries without pattern characters

    On a query made of plain characters the two searches are the
    containment tests of the specification. *)

Section PlainQueries.

Context {R : PyRuntime} {RL : RegexLaws R}.

Lemma str_contains_plain (s : Series) (pat : str) :
  plain pat = true -> str_contains s pat = Ok (map (substring pat) s).
Proof.
  intros Hp. unfold str_contains.
  destruct (re_literal pat Hp) as (found & -> & Hf).
  f_equal. apply map_ext. exact Hf.
Qed.

(** The distinct trimmed names, in row order, of the rows whose normalised
    name contains the normalised query. *)
Lemma suggest_plain_query
    (q : str) (limit : Z) (g : Globals) (df : DataFrame) (names norm : Series) :
  DF g = Some df ->
  getcol df (NAME_COL g) = Some names ->
  getcol df (py "_name_norm") = Some norm ->
  strip_marks q <> [] ->
  plain (strip_marks q) = true ->
  suggest q limit g =
  (Ok (head limit
         (first_occurrences
            (map strip (select (map (substring (strip_marks q)) norm) names)))),
   g).
Proof.
  intros HDF Hnames Hnorm Hq Hp. unfold suggest.
  destruct (strip_marks q) as [|c query] eqn:E; [congruence|]. cbn [truthy negb].
  unfold bind, DF_getitem, DF_loc, bind, get, lift, getitem, ret.
  rewrite HDF, Hnorm, (str_contains_plain norm _ Hp), HDF, Hnames.
  now rewrite drop_duplicates_first_occurrences.
Qed.

Lemma lookup_blank (name : str) (g : Globals) :
  strip name = [] -> lookup name g = (Raise (HTTPException 400), g).
Proof. intros E. unfold lookup. now rewrite E. Qed.

(** With an exact match, the rows of [lookup] are the rows whose key equals
    the trimmed, lower-cased input, and no other. *)
Lemma lookup_exact_match
    (name : str) (g : Globals) (df : DataFrame) (keys : Series) :
  DF g = Some df ->
  getcol df (py "_name_key") = Some keys ->
  strip name <> [] ->
  let exact :=
    select_rows (map (fun k => str_eqb k (lower (strip name))) keys) df in
  empty exact = false ->
  lookup name g =
  (Ok {| count_rows := length (iterrows exact);
         rows := map (filter (fun kv => visible (fst kv))) (iterrows exact) |},
   g).
Proof.
  intros HDF Hkeys Hn exact He. unfold lookup.
  destruct (strip name) as [|c nm] eqn:E; [congruence|]. cbn [truthy negb].
  unfold bind, DF_getitem, DF_select, bind, get, lift, getitem, ret.
  repeat (progress (rewrite ?HDF, ?Hkeys; cbn beta iota)).
  fold exact. rewrite He. now rewrite length_map.
Qed.

(** Without an exact match, and for a plain key, they are the rows whose
    trimmed, lower-cased name contains the key. *)
Lemma lookup_fallback_plain
    (name : str) (g : Globals) (df : DataFrame) (keys names : Series) :
  DF g = Some df ->
  getcol df (py "_name_key") = Some keys ->
  getcol df (NAME_COL g) = Some names ->
  strip name <> [] ->
  plain (lower (strip name)) = true ->
  empty (select_rows (map (fun k => str_eqb k (lower (strip name))) keys) df)
  = true ->
  let found :=
    select_rows (map (substring (lower (strip name)))
                     (map (fun x => lower (strip x)) names)) df in
  lookup name g =
  (Ok {| count_rows := length (iterrows found);
         rows := map (filter (fun kv => visible (fst kv))) (iterrows found) |},
   g).
Proof.
  intros HDF Hkeys Hnames Hn Hp He found. unfold lookup.
  destruct (strip name) as [|c nm] eqn:E; [congruence|]. cbn [truthy negb].
  unfold bind, DF_getitem, DF_select, bind, get, lift, getitem, ret.
  repeat (progress (rewrite ?HDF, ?Hkeys, ?He, ?Hnames,
                            ?(str_contains_plain _ _ Hp); cbn beta iota)).
  fold found. now rewrite length_map.
Qed.

End PlainQueries.

(** ** The errors of the handlers *)

Section Errors.

Context {R : PyRuntime}.

Lemma raises_ret {A} (P : exn -> Prop) (a : A) : raises_only P (ret a).
Proof. intros g e g' H. discriminate. Qed.

Lemma raises_get (P : exn -> Prop) : raises_only P get.
Proof. intros g e g' H. discriminate. Qed.

Lemma raises_raise {A} (P : exn -> Prop) (e : exn) :
  P e -> raises_only P (@raise A e).
Proof. intros He g e' g' [= <- _]. exact He. Qed.

Lemma raises_lift {A} (P : exn -> Prop) (r : result A) :
  (forall e, r = Raise e -> P e) -> raises_only P (lift r).
Proof. intros Hr g e g' [= -> _]. now apply Hr. Qed.

Lemma raises_bind {A B} (P : exn -> Prop) (m : M A) (k : A -> M B) :
  raises_only P m -> (forall a, raises_only P (k a)) ->
  raises_only P (bind m k).
Proof.
  intros Hm Hk g e g'. unfold bind.
  destruct (m g) as [[a|e0] g0] eqn:E.
  - apply Hk.
  - intros [= <- _]. eapply Hm. exact E.
Qed.

Lemma raises_DF_getitem (P : exn -> Prop) (c : str) :
  P TypeError -> P (KeyError c) -> raises_only P (DF_getitem c).
Proof.
  intros HT HK. apply raises_bind; [apply raises_get|]. intros g.
  destruct (DF g); [|now apply raises_raise].
  apply raises_lift. unfold getitem. intros e.
  destruct (getcol _ c); [discriminate | now intros [= <-]].
Qed.

Lemma raises_DF_select (P : exn -> Prop) (mask : list bool) :
  P TypeError -> raises_only P (DF_select mask).
Proof.
  intros HT. apply raises_bind; [apply raises_get|]. intros g.
  destruct (DF g); [apply raises_ret | now apply raises_raise].
Qed.

Lemma raises_str_contains (P : exn -> Prop) (s : Series) (pat : str) :
  P ReError -> raises_only P (lift (str_contains s pat)).
Proof.
  intros HR. apply raises_lift. unfold str_contains. intros e.
  destruct (re_compile pat); [discriminate | now intros [= <-]].
Qed.

(** [lookup] answers 400 exactly on a blank input. *)
Lemma lookup_invalid_input (name : str) (g : Globals) :
  fst (lookup name g) = Raise (HTTPException 400) <-> strip name = [].
Proof.
  split.
  - intros H. destruct (strip name) as [|c nm] eqn:E; [reflexivity|].
    exfalso.
    assert (raises_only (fun e => e <> HTTPException 400) (lookup name)) as Hr.
    { unfold lookup. rewrite E. cbn [truthy negb].
      apply raises_bind; [apply raises_DF_getitem; discriminate|]. intros keys.
      apply raises_bind; [apply raises_DF_select; discriminate|]. intros exact.
      apply raises_bind; [|intros; apply raises_ret].
      destruct (empty exact); [|apply raises_ret].
      apply raises_bind; [apply raises_get|]. intros g0.
      apply raises_bind; [apply raises_DF_getitem; discriminate|]. intros names.
      apply raises_bind; [apply raises_str_contains; discriminate|]. intros m.
      apply raises_DF_select; discriminate. }
    destruct (lookup name g) as [r g'] eqn:El. simpl in H. subst r.
    now apply (Hr g _ g' El).
  - intros E. unfold lookup. now rewrite E.
Qed.

End Errors.

(** ** The example runtime obeys the laws *)

Lemma Frag_lower_cp_idem (c : cp) :
  Frag.lower_cp (Frag.lower_cp c) = Frag.lower_cp c.
Proof.
  unfold Frag.lower_cp.
  destruct ((65 <=? c) && (c <=? 90))%N eqn:E1.
  - apply andb_true_iff in E1. destruct E1 as [H1 H2].
    apply N.leb_le in H1, H2.
    destruct ((65 <=? c + 32) && (c + 32 <=? 90))%N eqn:E2.
    + apply andb_true_iff in E2. destruct E2 as [_ H3].
      apply N.leb_le in H3. lia.
    + destruct (c + 32 =? 201)%N eqn:E3; [|reflexivity].
      apply N.eqb_eq in E3. lia.
  - destruct (c =? 201)%N eqn:E2; [reflexivity|].
    now rewrite E1, E2.
Qed.

Lemma Frag_lower_cp_no_Mn (c : cp) :
  Frag.is_Mn c = false -> Frag.is_Mn (Frag.lower_cp c) = false.
Proof.
  unfold Frag.lower_cp, Frag.is_Mn. intros H.
  destruct ((65 <=? c) && (c <=? 90))%N eqn:E1.
  - apply andb_true_iff in E1. destruct E1 as [H1 H2].
    apply N.leb_le in H1, H2. apply orb_false_iff.
    split; apply N.eqb_neq; lia.
  - destruct (c =? 201)%N; [reflexivity | assumption].
Qed.

#[export] Instance Frag_unicode_laws : UnicodeLaws Frag_runtime.
Proof.
  split.
  - intros s c Hc. simpl in Hc. unfold Frag.lower in Hc.
    apply in_map_iff in Hc. destruct Hc as (d & <- & Hd).
    apply filter_In in Hd. destruct Hd as [_ Hd].
    apply Frag_lower_cp_no_Mn. simpl in Hd.
    now destruct (Frag.is_Mn d).
  - intros s t. simpl. unfold Frag.lower. intros Hin.
    induction t as [|c t IH]; simpl; [reflexivity|].
    f_equal.
    + assert (In c (map Frag.lower_cp s)) as Hc by (apply Hin; now left).
      apply in_map_iff in Hc. destruct Hc as (d & <- & _).
      apply Frag_lower_cp_idem.
    + apply IH. intros x Hx. apply Hin. now right.
Qed.

#[export] Instance Frag_sample_laws : SampleLaws Frag_runtime.
Proof.
  split; simpl; unfold Frag.sample_positions.
  - intros _ len n _. apply length_seq.
  - intros _ len n i Hn Hi. apply in_seq in Hi. lia.
Qed.

(** ** The properties on the example tables *)

(** With the header [Full Name (English)] in the table, the override
    [Nickname], although it names a column, is not the name column. *)
Lemma override_behind_schema_header :
  In (py "Nickname") (columns with_schema_header) /\
  NAME_COL (loaded (Some (py "Nickname")) with_schema_header)
  = py "Full Name (English)" /\
  NAME_COL (loaded (Some (py "Nickname")) with_schema_header)
  <> py "Nickname".
Proof.
  split; [right; left; reflexivity|].
  split; [vm_compute; reflexivity | vm_compute; discriminate].
Qed.

Lemma name_column_resolution_witness :
  resolves None names_upper (Ok (NAME_COL (loaded None names_upper))) /\
  forall r, resolves None names_upper r ->
            r = Ok (NAME_COL (loaded None names_upper)).
Proof.
  apply (name_column_resolution None (world_of names_upper) initial
                                (loaded None names_upper) names_upper).
  - reflexivity.
  - vm_compute. reflexivity.
Defined.

(** The name column [_name] heads the display columns of its table. *)
Lemma internal_name_column_displayed :
  NAME_COL (loaded None internal_only) = py "_name" /\
  DISPLAY_COLS (loaded None internal_only) = [py "_name"; py "Age"] /\
  build_display_cols internal_only (py "_name") = [py "_name"; py "Age"] /\
  startswith (py "_") (py "_name") = true.
Proof. repeat split; vm_compute; reflexivity. Qed.

(** A mark of class Mc before one of lower combining class, kept apart by a
    grapheme joiner: the first pass removes the joiner, the second reorders
    the two marks. *)
Lemma strip_marks_twice_differs :
  strip_marks [12334; 847; 119141]%N = [12334; 119141]%N /\
  strip_marks (strip_marks [12334; 847; 119141]%N) = [119141; 12334]%N /\
  strip_marks (strip_marks [12334; 847; 119141]%N)
  <> strip_marks [12334; 847; 119141]%N.
Proof.
  split; [vm_compute; reflexivity|].
  split; [vm_compute; reflexivity | vm_compute; discriminate].
Qed.

Lemma strip_marks_idempotent_witness :
  strip_marks (strip_marks [67; 97; 102; 233; 32]%N)
  = strip_marks [67; 97; 102; 233; 32]%N.
Proof.
  apply (strip_marks_idempotent [67; 97; 102; 233; 32]%N).
  vm_compute. reflexivity.
Defined.

(** [normalize("Café") == normalize("cafe") == "cafe"]. *)
Example strip_marks_cafe :
  strip_marks [67; 97; 102; 233]%N = py "cafe" /\
  strip_marks (py "cafe") = py "cafe".
Proof. split; vm_compute; reflexivity. Qed.

Lemma suggest_empty_query_witness :
  let distinct := first_occurrences
                    (filter truthy (map strip (map py [" Ravi"; "Amit "; "Ravi"; ""])))%string in
  suggest (py "  ") 1
          (loaded None [(py "Name", map py [" Ravi"; "Amit "; "Ravi"; ""]%string)])
  = (Ok (head 1 distinct),
     loaded None [(py "Name", map py [" Ravi"; "Amit "; "Ravi"; ""]%string)]) /\
  ((0 <= 1)%Z -> head 1 distinct = firstn (Z.to_nat 1) distinct) /\
  ((1 < 0)%Z ->
   head 1 distinct = firstn (length distinct - Z.to_nat (- 1)) distinct).
Proof.
  eapply (suggest_empty_query (py "  ") 1
            (loaded None [(py "Name", map py [" Ravi"; "Amit "; "Ravi"; ""]%string)])).
  - vm_compute. reflexivity.
  - vm_compute. reflexivity.
  - vm_compute. reflexivity.
Defined.

(** With the limit [-1] the answer is not empty: it holds every distinct
    name but the last, where the first [limit] of them would be none. *)
Lemma suggest_negative_limit :
  first_occurrences (filter truthy (map strip [py "Ravi"; py "Amit Kumar"]))
  = [py "Ravi"; py "Amit Kumar"] /\
  suggest [] (-1) (loaded None one_ravi)
  = (Ok [py "Ravi"], loaded None one_ravi) /\
  [py "Ravi"] <> firstn (Z.to_nat (-1)) [py "Ravi"; py "Amit Kumar"].
Proof.
  split; [vm_compute; reflexivity|].
  split; [vm_compute; reflexivity | discriminate].
Qed.

Lemma reload_failure_keeps_snapshot_witness :
  exists e,
    load_dataset None world_missing (loaded None voters)
    = (Raise e, loaded None voters) /\
    reload_ds None world_missing (loaded None voters)
    = (Raise e, loaded None voters).
Proof.
  apply (reload_failure_keeps_snapshot None world_missing (loaded None voters)).
  left. reflexivity.
Defined.

Lemma voters_well_formed : well_formed voters.
Proof.
  split; [|split].
  - repeat constructor; simpl; intuition discriminate.
  - simpl. intuition discriminate.
  - intros c s [[= <- <-] | [[= <- <-] | []]]; reflexivity.
Qed.

Lemma voters_no_header_hint :
  no_schema_header voters /\
  no_override None voters /\
  forall cand, In cand PREFERRED_NAME_COLUMNS ->
               ~ has_header (columns voters) cand.
Proof.
  split; [|split].
  - apply schema_absent. repeat split; vm_compute; reflexivity.
  - intros f [=].
  - intros cand Hin. rewrite dict_get_has_header.
    assert (forallb (fun cand => match dict_get (lower cand)
                                         (lower_map (columns voters)) with
                                 | None => true
                                 | Some _ => false
                                 end) PREFERRED_NAME_COLUMNS = true) as H
      by (vm_compute; reflexivity).
    rewrite forallb_forall in H. specialize (H cand Hin).
    destruct (dict_get _ _); [discriminate | congruence].
Qed.

(** Without a header hint, the override [Voter] makes the column of voter
    codes the name column, next to the column of persons. *)
Lemma override_selects_identifier_column :
  no_schema_header voters /\
  (forall cand, In cand PREFERRED_NAME_COLUMNS ->
                ~ has_header (columns voters) cand) /\
  choose_name_col (Some (py "Voter")) voters = Ok (py "Voter") /\
  (exists s, getcol voters (py "Voter") = Some s /\
             _is_probably_epic s = true) /\
  (exists s, getcol voters (py "Person") = Some s /\
             _is_probably_epic s = false).
Proof.
  split; [exact (proj1 voters_no_header_hint)|].
  split; [exact (proj2 (proj2 voters_no_header_hint))|].
  split; [vm_compute; reflexivity|].
  split; eexists; (split; [reflexivity | vm_compute; reflexivity]).
Qed.

Lemma identifier_columns_excluded_witness :
  (forall x, fullmatch epic_pat x = true <-> epic_code x) /\
  (forall s, (_is_probably_epic s = true <-> identifier_like s) /\
             length (sample 0 s) <= 300) /\
  ((exists c s, In (c, s) voters /\ ~ identifier_like s) ->
   exists c s,
     choose_name_col None voters = Ok c /\ getcol voters c = Some s /\
     ~ identifier_like s).
Proof.
  apply (identifier_columns_excluded None voters).
  - exact voters_well_formed.
  - exact (proj1 voters_no_header_hint).
  - exact (proj1 (proj2 voters_no_header_hint)).
  - exact (proj2 (proj2 voters_no_header_hint)).
Defined.

(** On [voters] the column of voter codes is identifier-like and the column
    of persons is the name column. *)
Example voters_name_column :
  map _is_probably_epic (map snd voters) = [true; false] /\
  choose_name_col None voters = Ok (py "Person").
Proof. split; vm_compute; reflexivity. Qed.

(** C2 at the query [.]: the pattern is compiled as a regular expression, so
    both names are suggested although neither normalised name contains a
    full stop. *)
Theorem suggest_dot_matches_all :
  strip_marks (py ".") = py "." /\
  fst (suggest (py ".") 100 (loaded None one_ravi))
  = Ok [py "Ravi"; py "Amit Kumar"] /\
  getcol (match DF (loaded None one_ravi) with Some df => df | None => [] end)
         (py "_name_norm")
  = Some [py "ravi"; py "amit kumar"] /\
  substring (py ".") (py "ravi") = false /\
  substring (py ".") (py "amit kumar") = false.
Proof. repeat split; vm_compute; reflexivity. Qed.

(** C3 at the name [r.vi]: no exact key equals it and no name contains it,
    yet the fallback answers with the row of Ravi. *)
Theorem lookup_pattern_fallback :
  fst (lookup (py "r.vi") (loaded None one_ravi))
  = Ok {| count_rows := 1; rows := [[(py "Name", py "Ravi")]] |} /\
  getcol (match DF (loaded None one_ravi) with Some df => df | None => [] end)
         (py "_name_key")
  = Some [py "ravi"; py "amit kumar"] /\
  substring (py "r.vi") (py "ravi") = false /\
  substring (py "r.vi") (py "amit kumar") = false.
Proof. repeat split; vm_compute; reflexivity. Qed.

(** C4 at the input [(]: it is not blank and matches no row, and both
    [lookup] and [suggest] raise [re.error]. *)
Theorem open_parenthesis_raises :
  strip (py "(") = py "(" /\
  fst (lookup (py "(") (loaded None one_ravi)) = Raise ReError /\
  fst (suggest (py "(") 100 (loaded None one_ravi)) = Raise ReError /\
  fst (lookup (py "") (loaded None one_ravi)) = Raise (HTTPException 400) /\
  fst (lookup (py "nonexistent") (loaded None one_ravi))
  = Ok {| count_rows := 0; rows := [] |}.
Proof. repeat split; vm_compute; reflexivity. Qed.

(** * Further properties of the loader and the queries *)

(** ** Reading with fallbacks *)

Section ReadFallbacks.

Lemma read_loop_first (w : World) (es : list str) (last : option exn)
    (df : DataFrame) :
  read_loop w es last = Ok df <->
  exists enc,
    first_with (fun e => exists d, read_csv w e = Ok d) es enc /\
    read_csv w enc = Ok df.
Proof.
  revert last. induction es as [|e es IH]; intros last; simpl.
  - split.
    + destruct last; discriminate.
    + intros (enc & (pre & post & E & _) & _). destruct pre; discriminate.
  - destruct (read_csv w e) as [d|x] eqn:He.
    + split.
      * intros [= ->]. exists e. split; [|assumption].
        exists [], es. split; [reflexivity|]. split; [now exists df|].
        intros y [].
      * intros (enc & (pre & post & E & _ & Hpre) & Henc).
        destruct pre as [|p pre]; simpl in E; injection E as -> _.
        -- congruence.
        -- exfalso. apply (Hpre p); [now left | now exists d].
    + rewrite IH. split.
      * intros (enc & (pre & post & -> & Hs & Hpre) & Henc).
        exists enc. split; [|assumption].
        exists (e :: pre), post. split; [reflexivity|]. split; [assumption|].
        intros y [<- | Hy]; [|now apply Hpre].
        intros (d & Hd). congruence.
      * intros (enc & (pre & post & E & Hs & Hpre) & Henc).
        destruct pre as [|p pre]; simpl in E; injection E as -> ->.
        -- congruence.
        -- exists enc. split; [|assumption].
           exists pre, post. split; [reflexivity|]. split; [assumption|].
           intros y Hy. apply Hpre. now right.
Qed.

Lemma read_loop_last (w : World) (es : list str) (last : option exn)
    (e0 : str) :
  (forall enc, In enc (es ++ [e0]) -> exists e, read_csv w enc = Raise e) ->
  read_loop w (es ++ [e0]) last = read_csv w e0.
Proof.
  revert last. induction es as [|e es IH]; intros last H; simpl.
  - destruct (H e0 (or_introl eq_refl)) as [x ->]. reflexivity.
  - destruct (H e (or_introl eq_refl)) as [x ->].
    apply IH. intros enc Hin. apply H. now right.
Qed.

(** X1.  [_read_csv_with_fallbacks] returns the frame of the first of the
    seven encodings, in their order, in which [pd.read_csv] does not raise;
    when it raises in all of them, the error raised is that of the last
    encoding, [latin1]. *)
Theorem read_csv_first_encoding_wins (w : World) :
  (forall df,
     _read_csv_with_fallbacks w = Ok df <->
     exists enc,
       first_with (fun e => exists d, read_csv w e = Ok d) encs enc /\
       read_csv w enc = Ok df) /\
  ((forall enc, In enc encs -> exists e, read_csv w enc = Raise e) ->
   _read_csv_with_fallbacks w = read_csv w (py "latin1")).
Proof.
  split.
  - intros df. apply read_loop_first.
  - intros H. unfold _read_csv_with_fallbacks.
    change encs with
      ([py "utf-8"; py "utf-8-sig"; py "utf-16"; py "utf-16le";
        py "utf-16be"; py "cp1252"] ++ [py "latin1"]).
    apply read_loop_last. exact H.
Qed.

End ReadFallbacks.

(** ** The display columns *)

Lemma mem_app (x : str) (l1 l2 : list str) :
  mem x (l1 ++ l2) = mem x l1 || mem x l2.
Proof. unfold mem. apply existsb_app. Qed.

Lemma fold_add_other_In (cs cols : list str) (c : str) :
  In c (fold_left add_other cs cols) <->
  In c cols \/ (In c cs /\ visible c = true).
Proof.
  revert cols. induction cs as [|x cs IH]; intros cols; simpl.
  - tauto.
  - rewrite IH. unfold add_other.
    destruct (negb (mem x cols) && negb (startswith (py "_") x)) eqn:E.
    + rewrite in_app_iff. cbn [In]. split.
      * intros [[H | [<- | []]] | [H1 H2]]; auto.
        apply andb_true_iff in E. destruct E as [_ E]. auto.
      * intros [H | [[<- | H1] H2]]; auto.
    + apply andb_false_iff in E. split; [tauto|].
      intros [H | [[<- | H1] H2]]; auto.
      destruct E as [E | E].
      * apply negb_false_iff, mem_In in E. auto.
      * unfold visible in H2. congruence.
Qed.

Lemma fold_add_preferred_In (df : DataFrame) (cands cols : list str)
    (c : str) :
  In c (fold_left (add_preferred df) cands cols) <->
  In c cols \/ (In c cands /\ In c (columns df)).
Proof.
  revert cols. induction cands as [|x cands IH]; intros cols; simpl.
  - tauto.
  - rewrite IH. unfold add_preferred.
    destruct (mem x (columns df) && negb (mem x cols)) eqn:E.
    + rewrite in_app_iff. cbn [In]. split.
      * intros [[H | [<- | []]] | [H1 H2]]; auto.
        apply andb_true_iff in E. destruct E as [E _].
        apply mem_In in E. auto.
      * intros [H | [[<- | H1] H2]]; auto.
    + apply andb_false_iff in E. split; [tauto|].
      intros [H | [[<- | H1] H2]]; auto.
      destruct E as [E | E].
      * apply mem_not_In in E. contradiction.
      * apply negb_false_iff, mem_In in E. auto.
Qed.

Lemma fold_add_other_NoDup (cs cols : list str) :
  NoDup cols -> NoDup (fold_left add_other cs cols).
Proof.
  revert cols. induction cs as [|x cs IH]; intros cols H; simpl;
    [assumption|].
  apply IH. unfold add_other.
  destruct (negb (mem x cols) && negb (startswith (py "_") x)) eqn:E;
    [|assumption].
  apply andb_true_iff in E. destruct E as [Hm _].
  apply negb_true_iff, mem_not_In in Hm.
  apply NoDup_app; [assumption | repeat constructor; intros [] |].
  intros y Hy [<- | []]. contradiction.
Qed.

Lemma fold_add_preferred_NoDup (df : DataFrame) (cands cols : list str) :
  NoDup cols -> NoDup (fold_left (add_preferred df) cands cols).
Proof.
  revert cols. induction cands as [|x cands IH]; intros cols H; simpl;
    [assumption|].
  apply IH. unfold add_preferred.
  destruct (mem x (columns df) && negb (mem x cols)) eqn:E; [|assumption].
  apply andb_true_iff in E. destruct E as [_ Hm].
  apply negb_true_iff, mem_not_In in Hm.
  apply NoDup_app; [assumption | repeat constructor; intros [] |].
  intros y Hy [<- | []]. contradiction.
Qed.

Lemma fold_left_hd_error {A} (f : list A -> A -> list A) (l : list A)
    (x : A) (acc : list A) :
  (forall acc' y, exists t, f acc' y = acc' ++ t) ->
  hd_error (fold_left f l (x :: acc)) = Some x.
Proof.
  intros Hf. revert acc. induction l as [|y l IH]; intros acc; simpl;
    [reflexivity|].
  destruct (Hf (x :: acc) y) as [t ->]. apply IH.
Qed.

(** X2.  The list of [build_display_cols] starts with the name column, holds
    no name twice, and holds, next to the name column, exactly the columns
    of the table whose names do not start with [_]. *)
Theorem build_display_cols_shape (df : DataFrame) (name_col : str) :
  hd_error (build_display_cols df name_col) = Some name_col /\
  NoDup (build_display_cols df name_col) /\
  forall c,
    In c (build_display_cols df name_col) <->
    c = name_col \/ (In c (columns df) /\ visible c = true).
Proof.
  rewrite build_display_cols_eq. split; [|split].
  - assert (forall l, hd_error (fold_left (add_preferred df) l [name_col])
                      = Some name_col) as Hp.
    { intros l. apply fold_left_hd_error. intros acc y. unfold add_preferred.
      destruct (_ && _); [now exists [y] | exists []; now rewrite app_nil_r]. }
    specialize (Hp DISPLAY_COLS_PREFERENCE).
    destruct (fold_left (add_preferred df) DISPLAY_COLS_PREFERENCE [name_col])
      as [|x t]; [discriminate|].
    injection Hp as ->. apply fold_left_hd_error.
    intros acc y. unfold add_other.
    destruct (_ && _); [now exists [y] | exists []; now rewrite app_nil_r].
  - apply fold_add_other_NoDup, fold_add_preferred_NoDup.
    repeat constructor. intros [].
  - intros c. rewrite fold_add_other_In, fold_add_preferred_In. simpl.
    split.
    + intros [[[<- | []] | [Hp Hc]] | H]; auto.
      right. split; [assumption|].
      pose proof preference_visible as Hv. rewrite Forall_forall in Hv.
      now apply Hv.
    + intros [-> | H]; auto.
Qed.

Lemma fold_add_other_closed (cs cols : list str) :
  NoDup cs ->
  fold_left add_other cs cols =
  cols ++ filter (fun c => negb (mem c cols) && visible c) cs.
Proof.
  intros Hnd. revert cols. induction Hnd as [|x cs Hx Hnd IH]; intros cols;
    simpl.
  - now rewrite app_nil_r.
  - rewrite IH. unfold add_other, visible.
    destruct (negb (mem x cols) && negb (startswith (py "_") x)) eqn:E.
    + rewrite <- app_assoc. simpl. do 2 f_equal.
      apply filter_ext_in. intros y Hy. f_equal.
      rewrite mem_app. unfold mem at 2. simpl. rewrite orb_false_r.
      destruct (str_eqb y x) eqn:Eyx; [|now rewrite orb_false_r].
      apply str_eqb_eq in Eyx. subst y. contradiction.
    + reflexivity.
Qed.

Lemma fold_add_preferred_closed (df : DataFrame) (cands cols : list str) :
  NoDup cands ->
  fold_left (add_preferred df) cands cols =
  cols ++ filter (fun c => mem c (columns df) && negb (mem c cols)) cands.
Proof.
  intros Hnd. revert cols. induction Hnd as [|x cs Hx Hnd IH]; intros cols;
    simpl.
  - now rewrite app_nil_r.
  - rewrite IH. unfold add_preferred.
    destruct (mem x (columns df) && negb (mem x cols)) eqn:E.
    + rewrite <- app_assoc. simpl. do 2 f_equal.
      apply filter_ext_in. intros y Hy. f_equal.
      rewrite mem_app. unfold mem at 2. simpl. rewrite orb_false_r.
      destruct (str_eqb y x) eqn:Eyx; [|now rewrite orb_false_r].
      apply str_eqb_eq in Eyx. subst y. contradiction.
    + reflexivity.
Qed.

Lemma nodupb_NoDup (l : list str) : nodupb l = true -> NoDup l.
Proof.
  induction l as [|x l IH]; simpl; [constructor|].
  intros H. apply andb_true_iff in H. destruct H as [H1 H2].
  constructor; [|now apply IH].
  now apply mem_not_In, negb_true_iff.
Qed.

(** X3.  For a table with distinct column names the list of
    [build_display_cols] is the name column, then the columns of the table
    that are in the display preference, in the order of the preference, then
    the remaining columns whose names do not start with [_], in the order of
    the table. *)
Theorem build_display_cols_order (df : DataFrame) (name_col : str) :
  NoDup (columns df) ->
  let preferred :=
    filter (fun c => mem c (columns df) && negb (mem c [name_col]))
           DISPLAY_COLS_PREFERENCE in
  build_display_cols df name_col =
  [name_col] ++ preferred ++
  filter (fun c => negb (mem c ([name_col] ++ preferred)) && visible c)
         (columns df).
Proof.
  intros Hnd preferred. rewrite build_display_cols_eq.
  rewrite fold_add_preferred_closed
    by (apply nodupb_NoDup; vm_compute; reflexivity).
  rewrite fold_add_other_closed by assumption.
  fold preferred. now rewrite <- app_assoc.
Qed.

(** ** When the load returns *)

Lemma columns_setcol (df : DataFrame) (c : str) (v : Series) :
  columns (setcol df c v) =
  if mem c (columns df) then columns df else columns df ++ [c].
Proof.
  induction df as [|[c' old] df IH]; simpl; [reflexivity|].
  unfold mem; simpl. fold (mem c (columns df)).
  destruct (str_eqb c c') eqn:E; simpl; [reflexivity|].
  rewrite IH. now destruct (mem c (columns df)).
Qed.

Lemma getcol_In (df : DataFrame) (c : str) :
  In c (columns df) <-> getcol df c <> None.
Proof.
  induction df as [|[c' old] df IH]; simpl; [split; [intros [] | congruence]|].
  destruct (str_eqb c c') eqn:E.
  - apply str_eqb_eq in E. subst. split; [discriminate | auto].
  - apply str_eqb_neq in E. rewrite <- IH. split; [|auto].
    intros [H | H]; [congruence | assumption].
Qed.

Section LoadReturns.

Context {R : PyRuntime}.
Variable FORCE_NAME_COL : option str.

Lemma fold_heuristic_best (rest : DataFrame) (acc : option str * Q) :
  fst (fold_left heuristic_step rest acc) = fst acc \/
  exists c, fst (fold_left heuristic_step rest acc) = Some c /\
            In c (columns rest).
Proof.
  revert acc. induction rest as [|[c ser] rest IH]; intros acc;
    cbn [fold_left]; [now left|].
  destruct (IH (heuristic_step acc (c, ser))) as [H | (c' & H & Hin)].
  - rewrite H. unfold heuristic_step.
    destruct (_is_probably_epic ser); [now left|].
    destruct (score ser) as [sc|]; [|now left].
    destruct (negb (Qle_bool sc (snd acc))); [|now left].
    right. exists c. split; [reflexivity | now left].
  - right. exists c'. split; [assumption | now right].
Qed.

Lemma heuristic_In (df : DataFrame) :
  columns df <> [] ->
  exists c, heuristic df = Ok c /\ In c (columns df).
Proof.
  intros Hne. unfold heuristic.
  pose proof (fold_heuristic_best df (None, (-1)%Q)) as H.
  destruct (fold_left heuristic_step df (None, (-1)%Q)) as [best bs].
  simpl in H.
  assert (exists c, match columns df with
                    | c :: _ => Ok c
                    | [] => Raise IndexError
                    end = Ok c /\ In c (columns df)) as (c1 & E1 & H1).
  { destruct (columns df) as [|c1 t]; [congruence|].
    exists c1. split; [reflexivity | now left]. }
  destruct H as [-> | (c & -> & Hin)].
  - exists c1. auto.
  - destruct (truthy c); [exists c | exists c1]; auto.
Qed.

Lemma choose_name_col_In (df : DataFrame) :
  columns df <> [] ->
  exists c, choose_name_col FORCE_NAME_COL df = Ok c /\ In c (columns df).
Proof.
  intros Hne.
  pose proof (choose_name_col_resolves FORCE_NAME_COL df) as H.
  remember (choose_name_col FORCE_NAME_COL df) as r eqn:Er.
  destruct H as [h (pre & post & _ & Hin & _) | f _ _ _ Hin
                | cand c _ _ _ (pre & post & E & _ & _) | _ _ _].
  - now exists h.
  - now exists f.
  - exists c. split; [reflexivity|]. rewrite E.
    apply in_or_app. right. now left.
  - now apply heuristic_In.
Qed.

Lemma first_preferred_nil (cands : list str) :
  first_preferred cands (lower_map []) = None.
Proof. induction cands as [|c cands IH]; simpl; auto. Qed.

Lemma choose_name_col_no_columns (df : DataFrame) :
  columns df = [] -> choose_name_col FORCE_NAME_COL df = Raise IndexError.
Proof.
  intros E. destruct df; [|discriminate].
  unfold choose_name_col, pick_name_column, override.
  change (columns []) with (@nil str). cbn [mem existsb].
  rewrite first_preferred_nil.
  destruct FORCE_NAME_COL as [f|]; [rewrite andb_false_r|]; reflexivity.
Qed.

(** With at least one column, the name column is chosen and is found again
    after each assignment of a column. *)
Lemma load_dataset_frame (df : DataFrame) :
  columns df <> [] ->
  exists c n1 n3,
    choose_name_col FORCE_NAME_COL df = Ok c /\
    getcol df c = Some n1 /\
    getcol (setcol (setcol df c n1) (py "_name_key")
                   (map (fun x => lower (strip x)) n1)) c = Some n3.
Proof.
  intros Hne.
  destruct (choose_name_col_In df Hne) as (c & Hc & Hin).
  apply getcol_In in Hin.
  destruct (getcol df c) as [n1|] eqn:H1; [|congruence].
  assert (getcol (setcol (setcol df c n1) (py "_name_key")
                         (map (fun x => lower (strip x)) n1)) c <> None)
    as Hk.
  { apply getcol_In. rewrite columns_setcol.
    assert (In c (columns (setcol df c n1))) as Hin'
      by (apply getcol_In; rewrite getcol_setcol_same; discriminate).
    destruct (mem _ _); [assumption | apply in_or_app; now left]. }
  destruct (getcol (setcol (setcol df c n1) (py "_name_key")
                           (map (fun x => lower (strip x)) n1)) c)
    as [n3|] eqn:H3; [|congruence].
  now exists c, n1, n3.
Qed.

End LoadReturns.

(** ** The snapshot that a load installs *)

Section Snapshot.

Context {R : PyRuntime}.
Variable FORCE_NAME_COL : option str.

(** The frame that [load_dataset] makes of the frame [df] read from the file
    and its name column [nc]. *)
Lemma load_dataset_eval (w : World) (df : DataFrame) (nc : str)
    (n1 n3 : Series) (g : Globals) :
  path_exists w = true ->
  _read_csv_with_fallbacks w = Ok df ->
  choose_name_col FORCE_NAME_COL df = Ok nc ->
  getcol df nc = Some n1 ->
  getcol (setcol (setcol df nc n1) (py "_name_key")
                 (map (fun x => lower (strip x)) n1)) nc = Some n3 ->
  let df' :=
    setcol (setcol (setcol df nc n1) (py "_name_key")
                   (map (fun x => lower (strip x)) n1))
           (py "_name_norm") (map strip_marks n3) in
  load_dataset FORCE_NAME_COL w g =
  (stdout_print w (info_line (nrows df') nc),
   {| DF := Some df'; NAME_COL := nc;
      DISPLAY_COLS := build_display_cols df' nc |}).
Proof.
  intros Hp Hr Hc H1 H3 df'.
  unfold load_dataset. rewrite Hp. cbn [negb].
  unfold bind, lift, getitem.
  rewrite Hr. cbn beta iota. rewrite Hc. cbn beta iota.
  rewrite H1. cbn beta iota. rewrite getcol_setcol_same. cbn beta iota.
  rewrite H3. cbn beta iota.
  cbv [set_DF set_NAME_COL set_DISPLAY_COLS get put bind]. reflexivity.
Qed.

Lemma load_dataset_steps (w : World) (g g' : Globals) :
  load_dataset FORCE_NAME_COL w g = (Ok tt, g') ->
  exists df nc n1 n3,
    path_exists w = true /\
    _read_csv_with_fallbacks w = Ok df /\
    choose_name_col FORCE_NAME_COL df = Ok nc /\
    getcol df nc = Some n1 /\
    getcol (setcol (setcol df nc n1) (py "_name_key")
                   (map (fun x => lower (strip x)) n1)) nc = Some n3.
Proof.
  unfold load_dataset.
  destruct (path_exists w); cbn [negb]; [|discriminate].
  unfold bind, lift, getitem.
  destruct (_read_csv_with_fallbacks w) as [df|e]; [|discriminate].
  cbn beta iota.
  destruct (choose_name_col FORCE_NAME_COL df) as [nc|e] eqn:Hc;
    [|discriminate].
  cbn beta iota.
  destruct (getcol df nc) as [n1|] eqn:H1; [|discriminate].
  cbn beta iota. rewrite getcol_setcol_same. cbn beta iota.
  destruct (getcol (setcol (setcol df nc n1) (py "_name_key")
                           (map (fun x => lower (strip x)) n1)) nc)
    as [n3|] eqn:H3; [|discriminate].
  intros _. exists df, nc, n1, n3. auto.
Qed.

(** X5.  What a load installs depends on the file only, not on the snapshot
    it replaces: two loads of one file, from any two states, end alike, and
    when they return they leave the same [DF], [NAME_COL] and
    [DISPLAY_COLS]. *)
Theorem load_dataset_forgets_old_state (w : World) (g1 g2 : Globals) :
  fst (load_dataset FORCE_NAME_COL w g1)
  = fst (load_dataset FORCE_NAME_COL w g2) /\
  (fst (load_dataset FORCE_NAME_COL w g1) = Ok tt ->
   snd (load_dataset FORCE_NAME_COL w g1)
   = snd (load_dataset FORCE_NAME_COL w g2)).
Proof.
  unfold load_dataset.
  destruct (negb (path_exists w));
    [unfold raise; cbn [fst snd]; split; [reflexivity | discriminate]|].
  unfold bind, lift, getitem.
  destruct (_read_csv_with_fallbacks w) as [df|x];
    [|cbn [fst snd]; split; [reflexivity | discriminate]].
  cbn beta iota.
  destruct (choose_name_col FORCE_NAME_COL df) as [nc|x];
    [|cbn [fst snd]; split; [reflexivity | discriminate]].
  cbn beta iota.
  destruct (getcol df nc) as [n1|];
    [|cbn [fst snd]; split; [reflexivity | discriminate]].
  cbn beta iota. rewrite getcol_setcol_same. cbn beta iota.
  destruct (getcol (setcol (setcol df nc n1) (py "_name_key")
                           (map (fun x => lower (strip x)) n1)) nc);
    [|cbn [fst snd]; split; [reflexivity | discriminate]].
  cbv [set_DF set_NAME_COL set_DISPLAY_COLS get put bind fst snd DF NAME_COL
       DISPLAY_COLS].
  split; [reflexivity | intros _; reflexivity].
Qed.

(** X6.  The snapshot of a load holds the table that was read, with the
    columns [_name_key] and [_name_norm] set and every other column as it
    was read, the original columns first and in their order; its name
    column is a column of the table read, and its display columns are those
    of [build_display_cols] for this table and name column. *)
Theorem load_dataset_snapshot (w : World) (g g' : Globals) (df0 : DataFrame) :
  _read_csv_with_fallbacks w = Ok df0 ->
  load_dataset FORCE_NAME_COL w g = (Ok tt, g') ->
  exists df extra,
    DF g' = Some df /\
    In (NAME_COL g') (columns df0) /\
    DISPLAY_COLS g' = build_display_cols df (NAME_COL g') /\
    columns df = columns df0 ++ extra /\
    (forall c, In c extra -> c = py "_name_key" \/ c = py "_name_norm") /\
    In (py "_name_key") (columns df) /\
    In (py "_name_norm") (columns df) /\
    forall c, c <> py "_name_key" -> c <> py "_name_norm" ->
              getcol df c = getcol df0 c.
Proof.
  intros Hr0 Hload.
  destruct (load_dataset_steps w g g' Hload)
    as (df & nc & n1 & n3 & Hp & Hr & Hc & H1 & H3).
  rewrite Hr0 in Hr. injection Hr as <-.
  rewrite (load_dataset_eval w df0 nc n1 n3 g Hp Hr0 Hc H1 H3) in Hload.
  injection Hload as _ <-. cbn [DF NAME_COL DISPLAY_COLS].
  assert (In nc (columns df0)) as Hnc
    by (apply getcol_In; rewrite H1; discriminate).
  assert (columns (setcol df0 nc n1) = columns df0) as Hc1.
  { rewrite columns_setcol. now rewrite (proj2 (mem_In _ _) Hnc). }
  eexists.
  exists ((if mem (py "_name_key") (columns df0) then []
           else [py "_name_key"]) ++
          (if mem (py "_name_norm")
                  (columns df0 ++
                   (if mem (py "_name_key") (columns df0) then []
                    else [py "_name_key"]))
           then [] else [py "_name_norm"])).
  split; [reflexivity|]. split; [assumption|]. split; [reflexivity|].
  assert (columns (setcol (setcol df0 nc n1) (py "_name_key")
                          (map (fun x => lower (strip x)) n1))
          = columns df0 ++
            (if mem (py "_name_key") (columns df0) then []
             else [py "_name_key"])) as Hc2.
  { rewrite columns_setcol, Hc1.
    destruct (mem _ (columns df0)); [now rewrite app_nil_r | reflexivity]. }
  split; [|split; [|split; [|split]]].
  - rewrite columns_setcol, Hc2.
    destruct (mem (py "_name_norm") _);
      [now rewrite app_nil_r | now rewrite app_assoc].
  - intros c Hin. apply in_app_or in Hin. destruct Hin as [Hin | Hin].
    + destruct (mem (py "_name_key") (columns df0));
        [destruct Hin | destruct Hin as [<- | []]; auto].
    + destruct (mem (py "_name_norm") _);
        [destruct Hin | destruct Hin as [<- | []]; auto].
  - apply getcol_In.
    rewrite getcol_setcol_other, getcol_setcol_same; discriminate.
  - apply getcol_In. rewrite getcol_setcol_same. discriminate.
  - intros c Hk Hn. rewrite !getcol_setcol_other by assumption.
    destruct (str_eqb c nc) eqn:E.
    + apply str_eqb_eq in E. subst c. now rewrite getcol_setcol_same.
    + apply str_eqb_neq in E. now apply getcol_setcol_other.
Qed.

(** X7.  A reload that returns answers with the name column and the number
    of rows of the snapshot that the load has installed, and leaves this
    snapshot as the state. *)
Theorem reload_ds_answer (w : World) (g g' : Globals) :
  load_dataset FORCE_NAME_COL w g = (Ok tt, g') ->
  exists df,
    DF g' = Some df /\
    reload_ds FORCE_NAME_COL w g = (Ok (NAME_COL g', nrows df), g').
Proof.
  intros Hload.
  destruct (load_dataset_steps w g g' Hload)
    as (df & nc & n1 & n3 & Hp & Hr & Hc & H1 & H3).
  pose proof (load_dataset_eval w df nc n1 n3 g Hp Hr Hc H1 H3) as He.
  cbv zeta in He. rewrite He in Hload. injection Hload as Hw <-.
  eexists. split; [reflexivity|].
  unfold reload_ds, bind. rewrite He, Hw. reflexivity.
Qed.

(** ** The closing line *)

Lemma read_loop_quiet (w : World) (es : list str) (last : option exn) :
  read_loop (quiet w) es last = read_loop w es last.
Proof.
  revert last. induction es as [|enc es IH]; intros last; simpl;
    [reflexivity|].
  destruct (read_csv w enc); [reflexivity | apply IH].
Qed.

(** Behind a standard output that takes every line, the load of a file
    that exists and gives a frame with a column returns. *)
Lemma load_dataset_quiet (w : World) (g : Globals) (df : DataFrame) :
  path_exists w = true ->
  _read_csv_with_fallbacks w = Ok df ->
  columns df <> [] ->
  exists df' nc,
    load_dataset FORCE_NAME_COL (quiet w) g =
    (Ok tt, {| DF := Some df'; NAME_COL := nc;
               DISPLAY_COLS := build_display_cols df' nc |}) /\
    load_dataset FORCE_NAME_COL w g =
    (stdout_print w (info_line (nrows df') nc),
     {| DF := Some df'; NAME_COL := nc;
        DISPLAY_COLS := build_display_cols df' nc |}).
Proof.
  intros Hp Hr Hne.
  destruct (load_dataset_frame FORCE_NAME_COL df Hne)
    as (nc & n1 & n3 & Hc & H1 & H3).
  assert (_read_csv_with_fallbacks (quiet w) = Ok df) as Hrq
    by (unfold _read_csv_with_fallbacks; now rewrite read_loop_quiet).
  eexists. exists nc. split.
  - apply (load_dataset_eval (quiet w) df nc n1 n3 g Hp Hrq Hc H1 H3).
  - apply (load_dataset_eval w df nc n1 n3 g Hp Hr Hc H1 H3).
Qed.

(** X4.  [load_dataset] returns exactly when the file exists, [pd.read_csv]
    yields, in one of the encodings, a frame with at least one column, and
    the closing [print] of the line on the installed snapshot does not
    raise; it never fails on the column that it has chosen. *)
Theorem load_dataset_returns_iff (w : World) (g : Globals) :
  (exists g', load_dataset FORCE_NAME_COL w g = (Ok tt, g')) <->
  path_exists w = true /\
  (exists df, _read_csv_with_fallbacks w = Ok df /\ columns df <> []) /\
  (forall g1 df1,
     load_dataset FORCE_NAME_COL (quiet w) g = (Ok tt, g1) ->
     DF g1 = Some df1 ->
     stdout_print w (info_line (nrows df1) (NAME_COL g1)) = Ok tt).
Proof.
  split.
  - intros (g' & H).
    destruct (load_dataset_ok FORCE_NAME_COL w g g' H)
      as (df & nc & df' & Hp & Hr & Hc & _).
    assert (columns df <> []) as Hne.
    { intros E. rewrite (choose_name_col_no_columns FORCE_NAME_COL df E) in Hc.
      discriminate. }
    split; [assumption|]. split; [now exists df|].
    destruct (load_dataset_quiet w g df Hp Hr Hne) as (d & c & Hq & Hw).
    rewrite Hw in H. injection H as Hprint _.
    intros g1 df1 H1 HDF. rewrite Hq in H1. injection H1 as <-.
    cbn [DF NAME_COL] in *. injection HDF as <-. exact Hprint.
  - intros (Hp & (df & Hr & Hne) & Hprint).
    destruct (load_dataset_quiet w g df Hp Hr Hne) as (d & c & Hq & Hw).
    pose proof (Hprint _ d Hq eq_refl) as Hw2. cbn [NAME_COL] in Hw2.
    eexists. rewrite Hw, Hw2. reflexivity.
Qed.

(** X24.  When the closing [print] is all that fails, the load raises the
    error of [print] after the new snapshot has been installed: [DF],
    [NAME_COL] and [DISPLAY_COLS] are those of a load that returns, and
    [reload_ds] raises the same error over this new state. *)
Theorem load_dataset_print_failure
    (w : World) (g g1 : Globals) (df1 : DataFrame) (e : exn) :
  load_dataset FORCE_NAME_COL (quiet w) g = (Ok tt, g1) ->
  DF g1 = Some df1 ->
  stdout_print w (info_line (nrows df1) (NAME_COL g1)) = Raise e ->
  load_dataset FORCE_NAME_COL w g = (Raise e, g1) /\
  reload_ds FORCE_NAME_COL w g = (Raise e, g1).
Proof.
  intros Hq HDF Hprint.
  destruct (load_dataset_ok FORCE_NAME_COL (quiet w) g g1 Hq)
    as (df & nc & df' & Hp & Hr & Hc & _).
  assert (_read_csv_with_fallbacks w = Ok df) as Hr'
    by (unfold _read_csv_with_fallbacks in *; now rewrite <- read_loop_quiet).
  assert (columns df <> []) as Hne.
  { intros E. rewrite (choose_name_col_no_columns FORCE_NAME_COL df E) in Hc.
    discriminate. }
  destruct (load_dataset_quiet w g df Hp Hr' Hne) as (d & c & Hq' & Hw).
  rewrite Hq' in Hq. injection Hq as <-. cbn [DF NAME_COL] in *.
  injection HDF as <-. rewrite Hprint in Hw.
  split; [exact Hw|].
  unfold reload_ds, bind. now rewrite Hw.
Qed.

End Snapshot.

(** ** The best column of the heuristic *)

Section BestColumn.

Context {R : PyRuntime} {FL : FloatLaws R}.

Lemma fold_heuristic_below (sc : Q) (l : DataFrame) (acc : option str * Q) :
  (snd acc < sc)%Q ->
  (forall c' s' sc',
     In (c', s') l -> _is_probably_epic s' = false ->
     score s' = Some sc' -> (sc' < sc)%Q) ->
  (snd (fold_left heuristic_step l acc) < sc)%Q.
Proof.
  revert acc. induction l as [|[c' s'] l IH]; intros acc Hacc Hl;
    cbn [fold_left]; [assumption|].
  apply IH; [|intros c2 s2 sc2 Hin; apply (Hl c2); now right].
  unfold heuristic_step.
  destruct (_is_probably_epic s') eqn:He; [assumption|].
  destruct (score s') as [sc'|] eqn:Hs; [|assumption].
  destruct (negb (Qle_bool sc' (snd acc))); [|assumption].
  simpl. apply (Hl c' s' sc'); auto. now left.
Qed.

Lemma fold_heuristic_stays (c : str) (sc : Q) (l : DataFrame) :
  (forall c' s' sc',
     In (c', s') l -> _is_probably_epic s' = false ->
     score s' = Some sc' -> (sc' <= sc)%Q) ->
  fold_left heuristic_step l (Some c, sc) = (Some c, sc).
Proof.
  induction l as [|[c' s'] l IH]; intros Hl; cbn [fold_left];
    [reflexivity|].
  assert (heuristic_step (Some c, sc) (c', s') = (Some c, sc)) as ->.
  { unfold heuristic_step.
    destruct (_is_probably_epic s') eqn:He; [reflexivity|].
    destruct (score s') as [sc'|] eqn:Hs; [|reflexivity].
    assert (Qle_bool sc' sc = true) as Hle.
    { apply Qle_bool_iff. apply (Hl c' s' sc'); auto. now left. }
    simpl. now rewrite Hle. }
  apply IH. intros c2 s2 sc2 Hin. apply (Hl c2). now right.
Qed.

(** X8.  The heuristic picks, among the columns that are not taken for
    identifier-like, the one with the greatest score, and of several with
    this score the first in the table: a column whose score is above that
    of every such column before it and not below that of any after it is
    the choice. *)
Theorem heuristic_first_best
    (df pre post : DataFrame) (c : str) (ser : Series) (sc : Q) :
  df = pre ++ (c, ser) :: post ->
  c <> [] ->
  _is_probably_epic ser = false ->
  score ser = Some sc ->
  (forall c' s' sc',
     In (c', s') pre -> _is_probably_epic s' = false ->
     score s' = Some sc' -> (sc' < sc)%Q) ->
  (forall c' s' sc',
     In (c', s') post -> _is_probably_epic s' = false ->
     score s' = Some sc' -> (sc' <= sc)%Q) ->
  heuristic df = Ok c.
Proof.
  intros -> Hc He Hs Hpre Hpost. unfold heuristic.
  rewrite fold_left_app. cbn [fold_left].
  pose proof (score_nonneg ser sc Hs) as Hpos.
  assert (snd (fold_left heuristic_step pre (None, (-1)%Q)) < sc)%Q as Hlt.
  { apply fold_heuristic_below; [|assumption]. simpl.
    apply Qlt_le_trans with 0%Q; [reflexivity | assumption]. }
  assert (heuristic_step (fold_left heuristic_step pre (None, (-1)%Q))
                         (c, ser) = (Some c, sc)) as ->.
  { remember (fold_left heuristic_step pre (None, (-1)%Q)) as acc eqn:Ea.
    unfold heuristic_step. rewrite He, Hs.
    destruct (Qle_bool sc (snd acc)) eqn:Hle; [|reflexivity].
    apply Qle_bool_iff in Hle. exfalso.
    apply (Qlt_irrefl sc). eapply Qle_lt_trans; eassumption. }
  rewrite (fold_heuristic_stays c sc post Hpost).
  destruct c; [congruence | reflexivity].
Qed.

End BestColumn.

(** ** What the queries answer *)

Lemma firstn_incl {A} (n : nat) (l : list A) (x : A) :
  In x (firstn n l) -> In x l.
Proof.
  intros H. rewrite <- (firstn_skipn n l). apply in_or_app. now left.
Qed.

Lemma firstn_NoDup {A} (n : nat) (l : list A) : NoDup l -> NoDup (firstn n l).
Proof.
  revert n. induction l as [|x l IH]; intros [|n] H; simpl; try constructor.
  - inversion H; subst. intros Hin. apply firstn_incl in Hin. contradiction.
  - inversion H; subst. now apply IH.
Qed.

Lemma head_In {A} (n : Z) (l : list A) (x : A) : In x (head n l) -> In x l.
Proof. unfold head. destruct (0 <=? n)%Z; apply firstn_incl. Qed.

Lemma head_NoDup {A} (n : Z) (l : list A) : NoDup l -> NoDup (head n l).
Proof. unfold head. destruct (0 <=? n)%Z; apply firstn_NoDup. Qed.

Lemma head_length {A} (n : Z) (l : list A) :
  length (head n l) <= length l /\
  ((0 <= n)%Z -> length (head n l) <= Z.to_nat n).
Proof.
  unfold head. destruct (0 <=? n)%Z eqn:E; rewrite length_firstn.
  - split; lia.
  - apply Z.leb_gt in E. split; lia.
Qed.

Lemma select_In {A} (mask : list bool) (l : list A) (x : A) :
  In x (select mask l) -> In x l.
Proof.
  revert l. induction mask as [|b mask IH]; intros [|y l]; simpl; try tauto.
  destruct b; simpl; intros H.
  - destruct H as [-> | H]; auto.
  - auto.
Qed.

Lemma select_length {A} (mask : list bool) (l : list A) :
  length (select mask l) <= length l.
Proof.
  revert l. induction mask as [|b mask IH]; intros [|y l]; simpl; try lia.
  destruct b; simpl; specialize (IH l); lia.
Qed.

Lemma first_occurrences_length (l : list str) :
  length (first_occurrences l) <= length l.
Proof.
  induction l as [|x l IH]; simpl; [lia|].
  pose proof (filter_length_le (fun y => negb (str_eqb y x))
                               (first_occurrences l)). lia.
Qed.

Section Answers.

Context {R : PyRuntime}.

(** The suggestions are the head of the distinct values of a selection of
    the trimmed names. *)
Lemma suggest_shape (q : str) (limit : Z) (g g' : Globals)
    (opts : list str) :
  suggest q limit g = (Ok opts, g') ->
  exists df names picked,
    DF g = Some df /\
    getcol df (NAME_COL g) = Some names /\
    (forall x, In x picked -> In x (map strip names)) /\
    length picked <= length names /\
    (strip_marks q = [] -> forall x, In x picked -> x <> []) /\
    opts = head limit (first_occurrences picked).
Proof.
  unfold suggest. destruct (strip_marks q) as [|c query] eqn:Eq;
    cbn [truthy negb].
  - unfold bind, DF_getitem, bind, get, lift, getitem, ret. cbn beta iota.
    destruct (DF g) as [df|] eqn:HDF; [|discriminate]. cbn beta iota.
    destruct (getcol df (NAME_COL g)) as [names|] eqn:Hn; [|discriminate].
    cbn beta iota. intros [= <- _].
    exists df, names. eexists. split; [reflexivity|]. split; [assumption|].
    rewrite drop_duplicates_first_occurrences.
    split; [|split; [|split; [|reflexivity]]].
    + intros x. apply select_In.
    + rewrite <- (length_map strip names). apply select_length.
    + intros _ x Hx. rewrite select_map_filter in Hx.
      apply filter_In in Hx. destruct Hx as [_ Hx].
      destruct x; [discriminate | discriminate].
  - unfold bind, DF_getitem, DF_loc, bind, get, lift, getitem, ret.
    cbn beta iota.
    destruct (DF g) as [df|] eqn:HDF; [|discriminate]. cbn beta iota.
    destruct (getcol df (py "_name_norm")) as [norm|]; [|discriminate].
    cbn beta iota.
    destruct (str_contains norm (c :: query)) as [mask|]; [|discriminate].
    cbn beta iota. rewrite HDF. cbn beta iota.
    destruct (getcol df (NAME_COL g)) as [names|] eqn:Hn; [|discriminate].
    cbn beta iota. intros [= <- _].
    exists df, names, (map strip (select mask names)).
    split; [reflexivity|]. split; [assumption|].
    rewrite drop_duplicates_first_occurrences.
    split; [|split; [|split; [discriminate | reflexivity]]].
    + intros x Hx. apply in_map_iff in Hx. destruct Hx as (y & <- & Hy).
      apply in_map. eapply select_In. eassumption.
    + rewrite length_map. apply select_length.
Qed.

(** X9.  Whatever the query, the suggestions that [suggest] returns hold no
    value twice, each is the trimmed value of a cell of the name column,
    there are no more of them than rows in the table nor, for a [limit]
    that is not negative, than [limit], and for a query that is empty after
    normalisation none of them is the empty string. *)
Theorem suggest_answer_bounds (q : str) (limit : Z) (g g' : Globals)
    (opts : list str) :
  suggest q limit g = (Ok opts, g') ->
  exists df names,
    DF g = Some df /\ getcol df (NAME_COL g) = Some names /\
    NoDup opts /\
    (forall o, In o opts -> exists x, In x names /\ o = strip x) /\
    length opts <= length names /\
    ((0 <= limit)%Z -> length opts <= Z.to_nat limit) /\
    (strip_marks q = [] -> ~ In [] opts).
Proof.
  intros H.
  destruct (suggest_shape q limit g g' opts H)
    as (df & names & picked & HDF & Hn & Hin & Hlen & Hne & ->).
  exists df, names. split; [assumption|]. split; [assumption|].
  split; [|split; [|split; [|split]]].
  - apply head_NoDup, first_occurrences_NoDup.
  - intros o Ho. apply head_In in Ho.
    apply (proj1 (first_occurrences_In _ _)) in Ho. apply Hin in Ho.
    apply in_map_iff in Ho. destruct Ho as (x & <- & Hx). now exists x.
  - pose proof (proj1 (head_length limit (first_occurrences picked))).
    pose proof (first_occurrences_length picked). lia.
  - apply head_length.
  - intros Hq Ho. apply head_In in Ho.
    apply (proj1 (first_occurrences_In _ _)) in Ho.
    now apply (Hne Hq [] Ho).
Qed.

End Answers.

Lemma columns_select_rows (mask : list bool) (df : DataFrame) :
  columns (select_rows mask df) = columns df.
Proof.
  unfold columns, select_rows. rewrite map_map. now apply map_ext.
Qed.

Lemma nrows_select_rows (mask : list bool) (df : DataFrame) :
  nrows (select_rows mask df) <= nrows df.
Proof. destruct df as [|[c s] df]; simpl; [lia | apply select_length]. Qed.

Lemma row_at_keys (df : DataFrame) (i : nat) :
  map fst (filter (fun kv => visible (fst kv)) (row_at df i))
  = filter visible (columns df).
Proof.
  unfold row_at, columns. induction df as [|[c s] df IH]; simpl;
    [reflexivity|].
  destruct (visible c); simpl; now rewrite IH.
Qed.

Section LookupAndMeta.

Context {R : PyRuntime}.

Lemma lookup_shape (name : str) (g g' : Globals) (r : LookupResponse) :
  lookup name g = (Ok r, g') ->
  exists df mask,
    DF g = Some df /\
    rows r = map (filter (fun kv => visible (fst kv)))
                 (iterrows (select_rows mask df)) /\
    count_rows r = length (rows r).
Proof.
  unfold lookup. destruct (negb (truthy (strip name))); [discriminate|].
  unfold bind, DF_getitem, DF_select, bind, get, lift, getitem, ret, raise.
  cbn beta iota.
  destruct (DF g) as [df|] eqn:HDF; [|discriminate]. cbn beta iota.
  destruct (getcol df (py "_name_key")) as [keys|]; [|discriminate].
  repeat (progress (rewrite ?HDF; cbn beta iota)).
  match goal with |- context [empty ?x] => destruct (empty x) end.
  - repeat (progress (rewrite ?HDF; cbn beta iota)).
    destruct (getcol df (NAME_COL g)) as [names|]; [|discriminate].
    cbn beta iota.
    destruct (str_contains _ _) as [mask|]; [|discriminate].
    repeat (progress (rewrite ?HDF; cbn beta iota)).
    intros [= <- _]. exists df, mask. repeat split; reflexivity.
  - cbn beta iota. intros [= <- _]. exists df. eexists.
    repeat split; reflexivity.
Qed.

(** X10.  The rows that [lookup] returns go with the answer of [meta]: the
    keys of every row are the [columns] of [meta], in their order, [count]
    is the number of rows returned, and it is not above [total_rows]. *)
Theorem lookup_rows_match_meta
    (name : str) (g g1 g2 : Globals) (r : LookupResponse) (m : MetaResponse) :
  lookup name g = (Ok r, g1) ->
  meta g = (Ok m, g2) ->
  Forall (fun row => map fst row = meta_columns m) (rows r) /\
  count_rows r = length (rows r) /\
  count_rows r <= total_rows m.
Proof.
  intros Hl Hm.
  destruct (lookup_shape name g g1 r Hl) as (df & mask & HDF & Hrows & Hc).
  unfold meta, bind, get in Hm. cbn beta iota in Hm. rewrite HDF in Hm.
  injection Hm as <- _. cbn [meta_columns total_rows].
  split; [|split; [assumption|]].
  - rewrite Hrows. apply Forall_forall. intros row Hrow.
    apply in_map_iff in Hrow. destruct Hrow as (row0 & <- & Hin).
    unfold iterrows in Hin. apply in_map_iff in Hin.
    destruct Hin as (i & <- & _).
    rewrite row_at_keys, columns_select_rows. reflexivity.
  - rewrite Hc, Hrows, length_map. unfold iterrows.
    rewrite length_map, length_seq. apply nrows_select_rows.
Qed.

End LookupAndMeta.

(** ** Blank names *)

Lemma dropwhile_nil_iff {A} (p : A -> bool) (l : list A) :
  dropwhile p l = [] <-> forallb p l = true.
Proof.
  induction l as [|x l IH]; simpl; [tauto|].
  destruct (p x); simpl; [assumption | split; discriminate].
Qed.

Lemma strip_nil_iff (s : str) : strip s = [] <-> forallb isspace s = true.
Proof.
  unfold strip. rewrite <- (dropwhile_nil_iff isspace s). fold (lstrip s).
  destruct (lstrip s) as [|x a] eqn:E; [tauto|].
  pose proof (dropwhile_head _ _ _ _ E) as Hx.
  rewrite (rstrip_cons x a Hx). split; discriminate.
Qed.

(** X11.  [lookup] answers with the error 400 exactly when the name is made
    of white space only, the empty name included; every other failure of
    [lookup] is a different error. *)
Theorem lookup_blank_iff_whitespace {R : PyRuntime} (name : str) (g : Globals) :
  fst (lookup name g) = Raise (HTTPException 400) <->
  forallb isspace name = true.
Proof. rewrite lookup_invalid_input. apply strip_nil_iff. Qed.

(** ** The normal form *)

(** X12.  The result of [strip_marks] holds no non-spacing mark, has no white
    space at either end, and is left as it is by lower-casing and by
    trimming: of the four stages of [strip_marks] only the decomposition can
    change it again. *)
Theorem strip_marks_output {R : PyRuntime} {L : UnicodeLaws R} (x : str) :
  Forall (fun c => is_Mn c = false) (strip_marks x) /\
  filter (fun c => negb (is_Mn c)) (strip_marks x) = strip_marks x /\
  lower (strip_marks x) = strip_marks x /\
  strip (strip_marks x) = strip_marks x /\
  (forall c t, strip_marks x = c :: t -> isspace c = false) /\
  (forall c t, strip_marks x = t ++ [c] -> isspace c = false).
Proof.
  assert (incl (strip_marks x)
               (lower (filter (fun ch => negb (is_Mn ch)) (nfkd x)))) as Hin
    by apply strip_incl.
  assert (Forall (fun c => is_Mn c = false) (strip_marks x)) as HMn.
  { apply Forall_forall. intros c Hc. apply Hin in Hc.
    now apply lower_no_Mn in Hc. }
  split; [assumption|]. split; [|split; [|split; [|split]]].
  - apply filter_all. intros c Hc. rewrite Forall_forall in HMn.
    now rewrite (HMn c Hc).
  - now apply lower_stable with (s := filter (fun ch => negb (is_Mn ch)) (nfkd x)).
  - apply strip_idem.
  - intros c t E. unfold strip_marks, strip in E. cbv zeta in E.
    destruct (lstrip (lower (filter (fun ch => negb (is_Mn ch)) (nfkd x))))
      as [|y a] eqn:El; [discriminate|].
    pose proof (dropwhile_head _ _ _ _ El) as Hy.
    rewrite (rstrip_cons y a Hy) in E. now injection E as <- _.
  - intros c t E. unfold strip_marks, strip, rstrip in E. cbv zeta in E.
    apply (f_equal (@rev cp)) in E.
    rewrite rev_involutive, rev_app_distr in E. simpl in E.
    now apply dropwhile_head in E.
Qed.

(** ** From a suggestion to its rows *)

Lemma nrows_setcol (df : DataFrame) (c : str) (cells : Series) :
  df <> [] -> length cells = nrows df -> nrows (setcol df c cells) = nrows df.
Proof.
  destruct df as [|[c' old] df]; [congruence|]. simpl. intros _ H.
  destruct (str_eqb c c'); simpl; congruence.
Qed.

Lemma setcol_not_nil (df : DataFrame) (c : str) (cells : Series) :
  setcol df c cells <> [].
Proof.
  destruct df as [|[c' old] df]; simpl; [discriminate|].
  destruct (str_eqb c c'); discriminate.
Qed.

Lemma getcol_Some_In (df : DataFrame) (c : str) (s : Series) :
  getcol df c = Some s -> In (c, s) df.
Proof.
  induction df as [|[c' old] df IH]; simpl; [discriminate|].
  destruct (str_eqb c c') eqn:E.
  - apply str_eqb_eq in E. subst c'. intros [= ->]. now left.
  - intros H. right. now apply IH.
Qed.

Lemma select_hit {A} (mask : list bool) (l : list A) :
  length l = length mask -> In true mask -> 1 <= length (select mask l).
Proof.
  revert l. induction mask as [|b mask IH]; intros [|y l]; simpl;
    try tauto; try discriminate.
  intros [= Hl] [-> | Hin]; [simpl; lia|].
  destruct b; simpl; [lia | now apply IH].
Qed.

Lemma length_iterrows (df : DataFrame) : length (iterrows df) = nrows df.
Proof. unfold iterrows. now rewrite length_map, length_seq. Qed.

Section RoundTrip.

Context {R : PyRuntime}.
Variable FORCE_NAME_COL : option str.

(** The snapshot of a table whose columns have one length: its key column
    holds the key of every name, and its length is the number of names. *)
Lemma load_dataset_ready (w : World) (g0 g : Globals) (df0 : DataFrame) :
  _read_csv_with_fallbacks w = Ok df0 ->
  (forall c s, In (c, s) df0 -> length s = nrows df0) ->
  load_dataset FORCE_NAME_COL w g0 = (Ok tt, g) ->
  NAME_COL g <> py "_name_key" ->
  NAME_COL g <> py "_name_norm" ->
  exists df names,
    DF g = Some df /\
    getcol df (NAME_COL g) = Some names /\
    getcol df (py "_name_key") = Some (map (fun x => lower (strip x)) names) /\
    df <> [] /\ nrows df = length names.
Proof.
  intros Hr0 Hlen Hload Hk Hn.
  destruct (load_dataset_steps FORCE_NAME_COL w g0 g Hload)
    as (df & nc & n1 & n3 & Hp & Hr & Hc & H1 & H3).
  rewrite Hr0 in Hr. injection Hr as <-.
  rewrite (load_dataset_eval FORCE_NAME_COL w df0 nc n1 n3 g0 Hp Hr0 Hc H1 H3)
    in Hload.
  injection Hload as _ <-. cbn [DF NAME_COL] in *.
  rewrite getcol_setcol_other, getcol_setcol_same in H3 by assumption.
  injection H3 as <-.
  assert (df0 <> []) as Hne by (intros ->; discriminate).
  assert (length n1 = nrows df0) as Hn1
    by (apply (Hlen nc), getcol_Some_In, H1).
  eexists. exists n1. split; [reflexivity|]. split; [|split; [|split]].
  - rewrite !getcol_setcol_other by assumption. apply getcol_setcol_same.
  - rewrite getcol_setcol_other by discriminate. apply getcol_setcol_same.
  - apply setcol_not_nil.
  - assert (nrows (setcol df0 nc n1) = nrows df0) as HA
      by now apply nrows_setcol.
    assert (nrows (setcol (setcol df0 nc n1) (py "_name_key")
                          (map (fun x => lower (strip x)) n1)) = nrows df0)
      as HB.
    { rewrite nrows_setcol; [assumption | apply setcol_not_nil|].
      rewrite length_map. congruence. }
    rewrite nrows_setcol; [congruence | apply setcol_not_nil|].
    rewrite length_map. congruence.
Qed.

(** X13.  Every suggestion can be looked up.  After a load of a table whose
    columns have one length, a non-empty option that [suggest] returns, for
    any query, is found by [lookup] as an exact match: the answer holds at
    least one row, and its rows are the rows whose trimmed, lower-cased name
    is the lower-cased option, whatever pattern characters the option
    holds. *)
Theorem suggestion_is_found
    (w : World) (g0 g g' : Globals) (df0 : DataFrame)
    (q : str) (limit : Z) (opts : list str) (o : str) :
  _read_csv_with_fallbacks w = Ok df0 ->
  (forall c s, In (c, s) df0 -> length s = nrows df0) ->
  load_dataset FORCE_NAME_COL w g0 = (Ok tt, g) ->
  NAME_COL g <> py "_name_key" ->
  NAME_COL g <> py "_name_norm" ->
  suggest q limit g = (Ok opts, g') ->
  In o opts -> o <> [] ->
  exists df names r,
    DF g = Some df /\ getcol df (NAME_COL g) = Some names /\
    lookup o g = (Ok r, g) /\
    1 <= count_rows r /\
    rows r =
    map (filter (fun kv => visible (fst kv)))
        (iterrows
           (select_rows
              (map (fun x => str_eqb (lower (strip x)) (lower o)) names) df)).
Proof.
  intros Hr0 Hlen Hload Hk Hn Hs Ho Hne.
  destruct (load_dataset_ready w g0 g df0 Hr0 Hlen Hload Hk Hn)
    as (df & names & HDF & Hnames & Hkeys & Hdf & Hrows).
  destruct (suggest_shape q limit g g' opts Hs)
    as (df' & names' & picked & HDF' & Hnames' & Hin & _ & _ & ->).
  rewrite HDF in HDF'. injection HDF' as <-.
  rewrite Hnames in Hnames'. injection Hnames' as <-.
  apply head_In in Ho. apply (proj1 (first_occurrences_In _ _)) in Ho.
  apply Hin, in_map_iff in Ho. destruct Ho as (x & <- & Hx).
  exists df, names.
  assert (strip (strip x) <> []) as Hne' by now rewrite strip_idem.
  pose proof (lookup_exact_match (strip x) g df _ HDF Hkeys Hne') as Hl.
  cbv zeta in Hl. rewrite strip_idem, map_map in Hl.
  assert (1 <= nrows (select_rows
                        (map (fun x0 => str_eqb (lower (strip x0))
                                                (lower (strip x))) names) df))
    as Hhit.
  { destruct df as [|[c s] df]; [congruence|]. simpl. apply select_hit.
    - rewrite length_map. exact Hrows.
    - apply in_map_iff. exists x. split; [apply str_eqb_refl | assumption]. }
  eexists. split; [assumption|]. split; [assumption|].
  split; [apply Hl|].
  - unfold empty. destruct df as [|[c s] df]; [congruence|].
    simpl in *. apply Nat.eqb_neq. lia.
  - cbn [count_rows rows]. split; [now rewrite length_iterrows | reflexivity].
Qed.

End RoundTrip.

(** ** The further properties on the example tables *)

Lemma build_display_cols_order_witness :
  build_display_cols voters (py "Person") = [py "Person"; py "Voter"].
Proof.
  apply (build_display_cols_order voters (py "Person")).
  repeat constructor; simpl; intuition discriminate.
Defined.

Lemma load_dataset_snapshot_witness :
  exists df extra,
    DF (loaded None voters) = Some df /\
    In (NAME_COL (loaded None voters)) (columns voters) /\
    DISPLAY_COLS (loaded None voters)
    = build_display_cols df (NAME_COL (loaded None voters)) /\
    columns df = columns voters ++ extra /\
    (forall c, In c extra -> c = py "_name_key" \/ c = py "_name_norm") /\
    In (py "_name_key") (columns df) /\
    In (py "_name_norm") (columns df) /\
    forall c, c <> py "_name_key" -> c <> py "_name_norm" ->
              getcol df c = getcol voters c.
Proof.
  apply (load_dataset_snapshot None (world_of voters) initial
                               (loaded None voters) voters).
  - reflexivity.
  - vm_compute. reflexivity.
Defined.

Lemma reload_ds_answer_witness :
  exists df,
    DF (loaded None voters) = Some df /\
    reload_ds None (world_of voters) (loaded None one_ravi)
    = (Ok (NAME_COL (loaded None voters), nrows df), loaded None voters).
Proof.
  apply (reload_ds_answer None (world_of voters) (loaded None one_ravi)
                          (loaded None voters)).
  vm_compute. reflexivity.
Defined.

Lemma heuristic_first_best_witness : heuristic voters = Ok (py "Person").
Proof.
  apply (heuristic_first_best
           voters
           [(py "Voter", [py "ABC1234567"; py "XYZ7654321"; py "ABC1234567"])]
           [] (py "Person") [py "Ravi"; py " Amit Kumar "; py "Ravi"]
           (528 # 576)%Q).
  - reflexivity.
  - discriminate.
  - vm_compute. reflexivity.
  - vm_compute. reflexivity.
  - intros c' s' sc' [[= <- <-] | []] Hep. vm_compute in Hep. discriminate.
  - intros c' s' sc' [].
Defined.

Lemma suggest_answer_bounds_witness :
  exists df names,
    DF (loaded None voters) = Some df /\
    getcol df (NAME_COL (loaded None voters)) = Some names /\
    NoDup [py "Ravi"] /\
    (forall o, In o [py "Ravi"] -> exists x, In x names /\ o = strip x) /\
    length [py "Ravi"] <= length names /\
    ((0 <= 5)%Z -> length [py "Ravi"] <= Z.to_nat 5) /\
    (strip_marks (py "rav") = [] -> ~ In [] [py "Ravi"]).
Proof.
  apply (suggest_answer_bounds (py "rav") 5 (loaded None voters)
                               (loaded None voters) [py "Ravi"]).
  vm_compute. reflexivity.
Defined.

Lemma lookup_rows_match_meta_witness :
  exists r m,
    lookup (py "ravi") (loaded None voters) = (Ok r, loaded None voters) /\
    meta (loaded None voters) = (Ok m, loaded None voters) /\
    Forall (fun row => map fst row = meta_columns m) (rows r) /\
    count_rows r = length (rows r) /\
    count_rows r <= total_rows m.
Proof.
  eexists. eexists.
  split; [vm_compute; reflexivity|]. split; [vm_compute; reflexivity|].
  apply (lookup_rows_match_meta (py "ravi") (loaded None voters)
                                (loaded None voters) (loaded None voters));
    vm_compute; reflexivity.
Defined.

Lemma strip_marks_output_witness :
  Forall (fun c => is_Mn c = false) (strip_marks [67; 97; 102; 233]%N) /\
  filter (fun c => negb (is_Mn c)) (strip_marks [67; 97; 102; 233]%N)
  = strip_marks [67; 97; 102; 233]%N /\
  lower (strip_marks [67; 97; 102; 233]%N) = strip_marks [67; 97; 102; 233]%N /\
  strip (strip_marks [67; 97; 102; 233]%N) = strip_marks [67; 97; 102; 233]%N /\
  (forall c t, strip_marks [67; 97; 102; 233]%N = c :: t ->
               isspace c = false) /\
  (forall c t, strip_marks [67; 97; 102; 233]%N = t ++ [c] ->
               isspace c = false).
Proof. exact (strip_marks_output [67; 97; 102; 233]%N). Defined.

Lemma suggestion_is_found_witness :
  exists df names r,
    DF (loaded None voters) = Some df /\
    getcol df (NAME_COL (loaded None voters)) = Some names /\
    lookup (py "Ravi") (loaded None voters) = (Ok r, loaded None voters) /\
    1 <= count_rows r /\
    rows r =
    map (filter (fun kv => visible (fst kv)))
        (iterrows
           (select_rows
              (map (fun x => str_eqb (lower (strip x)) (lower (py "Ravi")))
                   names) df)).
Proof.
  apply (suggestion_is_found None (world_of voters) initial
           (loaded None voters) (loaded None voters) voters
           (py "rav") 5 [py "Ravi"] (py "Ravi")).
  - reflexivity.
  - intros c s [[= <- <-] | [[= <- <-] | []]]; reflexivity.
  - vm_compute. reflexivity.
  - vm_compute. discriminate.
  - vm_compute. discriminate.
  - vm_compute. reflexivity.
  - now left.
  - discriminate.
Defined.

(** * The password gate *)

(** ** The token *)

Lemma utf8_cp_None (c : cp) : utf8_cp c = None <-> unencodable c.
Proof.
  unfold utf8_cp, unencodable.
  destruct (N.ltb_spec c 0x80); [split; [discriminate | lia]|].
  destruct (N.ltb_spec c 0x800); [split; [discriminate | lia]|].
  destruct (N.leb_spec 0xD800 c); destruct (N.leb_spec c 0xDFFF); cbn [andb];
    try (split; [intros _; lia | reflexivity]).
  all: destruct (N.ltb_spec c 0x10000); try (split; [discriminate | lia]).
  all: destruct (N.leb_spec c 0x10FFFF);
    [split; [discriminate | lia] | split; [intros _; lia | reflexivity]].
Qed.

Lemma utf8_None (s : str) : utf8 s = None <-> Exists unencodable s.
Proof.
  induction s as [|c s IH]; simpl.
  - split; [discriminate | intros H; inversion H].
  - rewrite Exists_cons, <- IH, <- utf8_cp_None.
    destruct (utf8_cp c), (utf8 s); split; try discriminate; intuition congruence.
Qed.

Lemma hexdigit_is_hexdigit (n : N) : (n < 16)%N -> is_hexdigit (hexdigit n).
Proof.
  intros H. unfold hexdigit, is_hexdigit.
  destruct (N.ltb_spec n 10); lia.
Qed.

Lemma hex_length (bs : bytes) : length (hex bs) = 2 * length bs.
Proof. induction bs as [|x bs IH]; simpl; lia. Qed.

Lemma hex_hexdigits (bs : bytes) : Forall is_hexdigit (hex bs).
Proof.
  induction bs as [|x bs IH]; simpl; [constructor|].
  constructor; [|constructor; [|assumption]];
    apply hexdigit_is_hexdigit; apply N.mod_upper_bound; discriminate.
Qed.

Lemma hex_not_nil (bs : bytes) : length bs <> 0 -> truthy (hex bs) = true.
Proof. destruct bs as [|x bs]; [intros H; now elim H | reflexivity]. Qed.

Lemma digest_length (msg : bytes) : length (SHA256.digest msg) = 32.
Proof.
  unfold SHA256.digest. cbv zeta.
  destruct (fold_left SHA256.compress _ _). reflexivity.
Qed.

Lemma hmac_sha256_length (key msg : bytes) :
  length (hmac_sha256 key msg) = 32.
Proof. unfold hmac_sha256. apply digest_length. Qed.

Section GateProperties.

Context {R : PyRuntime}.
Variable FORCE_NAME_COL : option str.
Variables APP_PASSWORD AUTH_SALT LOGIN_HTML : str.

(** X14.  [_make_token] returns the hexadecimal digest of the HMAC-SHA256 of
    the password under the salt, both in UTF-8: 64 lower-case hexadecimal
    digits whenever the two can be encoded; it raises [UnicodeEncodeError],
    and nothing else, exactly when one of them holds a surrogate.  The
    digest is the one of [hmac] and [hashlib]: for the key [Jefe] it is
    that of test case 2 of RFC 4231, and for the default password and salt
    the token is the one that CPython computes. *)
Theorem make_token_hexdigest :
  match _make_token APP_PASSWORD AUTH_SALT with
  | Returns t =>
      (exists key msg,
         utf8 AUTH_SALT = Some key /\ utf8 APP_PASSWORD = Some msg /\
         t = hex (hmac_sha256 key msg)) /\
      length t = 64 /\ Forall is_hexdigit t /\
      ~ Exists unencodable APP_PASSWORD /\ ~ Exists unencodable AUTH_SALT
  | Raises e =>
      e = UnicodeEncodeError /\
      (Exists unencodable APP_PASSWORD \/ Exists unencodable AUTH_SALT)
  end /\
  _make_token (py "what do ya want for nothing?") (py "Jefe")
  = Returns
      (py "5bdcc146bf60754e6a042426089575c75a003f089d2739839dec58b964ec3843") /\
  _make_token (py "change_me_123") (py "rohini-secret-salt")
  = Returns
      (py "c95208e3e6c2660345d1bb665d276441f82c6c3d9735b235f1fee75061b4deda").
Proof.
  split; [|split; vm_compute; reflexivity].
  unfold _make_token.
  destruct (utf8 APP_PASSWORD) as [msg|] eqn:Ep.
  - destruct (utf8 AUTH_SALT) as [key|] eqn:Es.
    + split; [exists key, msg; repeat split|].
      split; [now rewrite hex_length, hmac_sha256_length|].
      split; [apply hex_hexdigits|].
      rewrite <- !utf8_None. split; congruence.
    + split; [reflexivity|]. right. now apply utf8_None.
  - split; [reflexivity|]. left. now apply utf8_None.
Qed.

Lemma make_token_not_empty (t : str) :
  _make_token APP_PASSWORD AUTH_SALT = Returns t -> truthy t = true.
Proof.
  unfold _make_token.
  destruct (utf8 APP_PASSWORD) as [msg|]; [|discriminate].
  destruct (utf8 AUTH_SALT) as [key|]; [|discriminate].
  intros E.
  assert (t = hex (hmac_sha256 key msg)) as -> by congruence.
  apply hex_not_nil. rewrite hmac_sha256_length. discriminate.
Qed.

Lemma make_token_raises (e : error) :
  _make_token APP_PASSWORD AUTH_SALT = Raises e -> e = UnicodeEncodeError.
Proof.
  unfold _make_token.
  destruct (utf8 APP_PASSWORD) as [msg|]; [|now intros [= <-]].
  destruct (utf8 AUTH_SALT) as [key|]; [discriminate | now intros [= <-]].
Qed.

(** ** Who is authenticated *)

Lemma is_authenticated_token (request : Request) (t : str) :
  dict_get AUTH_COOKIE_NAME (cookies request) = Some t ->
  _make_token APP_PASSWORD AUTH_SALT = Returns t ->
  _is_authenticated APP_PASSWORD AUTH_SALT request = Returns true.
Proof.
  intros Hc Ht. unfold _is_authenticated. rewrite Hc.
  rewrite (make_token_not_empty t Ht). cbn [negb]. rewrite Ht.
  cbn [and_then]. now rewrite str_eqb_refl.
Qed.

Lemma is_authenticated_true (request : Request) :
  _is_authenticated APP_PASSWORD AUTH_SALT request = Returns true ->
  exists t,
    dict_get AUTH_COOKIE_NAME (cookies request) = Some t /\
    _make_token APP_PASSWORD AUTH_SALT = Returns t.
Proof.
  unfold _is_authenticated.
  destruct (dict_get AUTH_COOKIE_NAME (cookies request)) as [token|];
    [|discriminate].
  destruct (negb (truthy token)); [discriminate|].
  destruct (_make_token APP_PASSWORD AUTH_SALT) as [t|e]; [|discriminate].
  cbn [and_then]. intros [= E]. apply str_eqb_eq in E. subst t.
  now exists token.
Qed.

Lemma is_authenticated_other (request : Request) :
  (forall t, _make_token APP_PASSWORD AUTH_SALT = Returns t ->
             dict_get AUTH_COOKIE_NAME (cookies request) <> Some t) ->
  _is_authenticated APP_PASSWORD AUTH_SALT request = Returns false \/
  _is_authenticated APP_PASSWORD AUTH_SALT request = Raises UnicodeEncodeError.
Proof.
  intros H. unfold _is_authenticated.
  destruct (dict_get AUTH_COOKIE_NAME (cookies request)) as [token|];
    [|now left].
  destruct (negb (truthy token)); [now left|].
  destruct (_make_token APP_PASSWORD AUTH_SALT) as [t|e] eqn:Et;
    cbn [and_then].
  - left. f_equal. apply str_eqb_neq. intros ->. now apply (H t).
  - right. f_equal. now apply make_token_raises.
Qed.

(** X15.  A request is authenticated exactly when its cookie [rohini_auth]
    holds the token; without the cookie, or with an empty one, it is not,
    and the token is not even computed, so that nothing is raised whatever
    the password and the salt are. *)
Theorem is_authenticated_iff (request : Request) :
  (_is_authenticated APP_PASSWORD AUTH_SALT request = Returns true <->
   exists t,
     dict_get AUTH_COOKIE_NAME (cookies request) = Some t /\
     _make_token APP_PASSWORD AUTH_SALT = Returns t) /\
  (dict_get AUTH_COOKIE_NAME (cookies request) = None \/
   dict_get AUTH_COOKIE_NAME (cookies request) = Some [] ->
   _is_authenticated APP_PASSWORD AUTH_SALT request = Returns false) /\
  (forall e, _is_authenticated APP_PASSWORD AUTH_SALT request = Raises e ->
             e = UnicodeEncodeError /\
             _make_token APP_PASSWORD AUTH_SALT = Raises e).
Proof.
  split; [|split].
  - split; [apply is_authenticated_true|].
    intros (t & Hc & Ht). now apply (is_authenticated_token request t).
  - unfold _is_authenticated. intros [-> | ->]; reflexivity.
  - intros e. unfold _is_authenticated.
    destruct (dict_get AUTH_COOKIE_NAME (cookies request)) as [token|];
      [|discriminate].
    destruct (negb (truthy token)); [discriminate|].
    destruct (_make_token APP_PASSWORD AUTH_SALT) as [t|e'] eqn:Et;
      cbn [and_then]; [discriminate|].
    intros [= <-]. split; [now apply make_token_raises | reflexivity].
Qed.

(** ** Logging in *)

Lemma dict_get_app_last (k v : str) (d : list (str * str)) :
  dict_get k (d ++ [(k, v)]) = Some v.
Proof.
  induction d as [|[k' v'] d IH]; simpl.
  - now rewrite str_eqb_refl.
  - now rewrite IH.
Qed.

Lemma dict_get_app_other (k k' v : str) (d : list (str * str)) :
  k <> k' -> dict_get k (d ++ [(k', v)]) = dict_get k d.
Proof.
  intros Hne. induction d as [|[k0 v0] d IH]; simpl.
  - apply str_eqb_neq in Hne. now rewrite Hne.
  - now rewrite IH.
Qed.

Lemma dict_get_filter_same (k : str) (d : list (str * str)) :
  dict_get k (filter (fun kv => negb (str_eqb (fst kv) k)) d) = None.
Proof.
  induction d as [|[k' v'] d IH]; simpl; [reflexivity|].
  destruct (str_eqb k' k) eqn:E; cbn [negb]; [assumption|].
  simpl. rewrite IH.
  destruct (str_eqb k k') eqn:E'; [|reflexivity].
  apply str_eqb_eq in E'. subst k'. now rewrite str_eqb_refl in E.
Qed.

Lemma dict_get_filter_other (k k' : str) (d : list (str * str)) :
  k <> k' ->
  dict_get k (filter (fun kv => negb (str_eqb (fst kv) k')) d) = dict_get k d.
Proof.
  intros Hne. induction d as [|[k0 v0] d IH]; simpl; [reflexivity|].
  destruct (str_eqb k0 k') eqn:E; cbn [negb]; simpl; rewrite IH;
    [|reflexivity].
  apply str_eqb_eq in E. subst k0.
  apply str_eqb_neq in Hne. rewrite Hne. now destruct (dict_get k d).
Qed.

Lemma login_post_returns (password : str) (response : Response) :
  login_post APP_PASSWORD AUTH_SALT LOGIN_HTML password = Returns response ->
  (password <> APP_PASSWORD /\
   response = HTMLResponse (replace (py "{error_block}") error_html LOGIN_HTML)
                           401) \/
  (password = APP_PASSWORD /\
   exists token,
     _make_token APP_PASSWORD AUTH_SALT = Returns token /\
     response =
     set_cookie (RedirectResponse (py "/") 302)
       {| cookie_key := AUTH_COOKIE_NAME; cookie_value := token;
          max_age := Some (7 * 24 * 60 * 60)%Z; expires := None;
          cookie_path := py "/"; secure := false; httponly := true;
          samesite := py "lax" |}).
Proof.
  unfold login_post.
  destruct (str_eqb password APP_PASSWORD) eqn:E; cbn [negb].
  - apply str_eqb_eq in E.
    destruct (_make_token APP_PASSWORD AUTH_SALT) as [t|e];
      cbn [and_then]; [|discriminate].
    intros [= <-]. right. split; [assumption|]. now exists t.
  - apply str_eqb_neq in E. intros [= <-]. left. now split.
Qed.

(** X16.  Logging in works: when [login_post] answers with the redirect, the
    password was the configured one, and the next request of a client that
    stores the cookie of the answer, whatever cookies it held before, is
    authenticated: [index] serves the page, [login_page] sends the client
    on to [/], and [require_auth] lets it pass. *)
Theorem login_round_trip
    (password : str) (response : Response) (jar : list (str * str)) :
  login_post APP_PASSWORD AUTH_SALT LOGIN_HTML password = Returns response ->
  status_code response = 302%Z ->
  password = APP_PASSWORD /\
  body response = Redirect (py "/") /\
  _is_authenticated APP_PASSWORD AUTH_SALT (client_after response jar)
  = Returns true /\
  index APP_PASSWORD AUTH_SALT (client_after response jar)
  = Returns (FileResponse (py "static/index.html")) /\
  login_page APP_PASSWORD AUTH_SALT LOGIN_HTML (client_after response jar)
  = Returns (RedirectResponse (py "/") 302) /\
  require_auth APP_PASSWORD AUTH_SALT (client_after response jar)
  = Returns tt.
Proof.
  intros Hl Hs.
  destruct (login_post_returns password response Hl)
    as [(_ & ->) | (Hp & token & Ht & ->)]; [discriminate|].
  split; [assumption|]. split; [reflexivity|].
  assert (_is_authenticated APP_PASSWORD AUTH_SALT
            (client_after
               (set_cookie (RedirectResponse (py "/") 302)
                  {| cookie_key := AUTH_COOKIE_NAME; cookie_value := token;
                     max_age := Some (7 * 24 * 60 * 60)%Z; expires := None;
                     cookie_path := py "/"; secure := false; httponly := true;
                     samesite := py "lax" |}) jar) = Returns true) as Ha.
  { apply (is_authenticated_token _ token); [|assumption].
    unfold client_after, set_cookie, RedirectResponse.
    cbn [cookies set_cookies app fold_left]. unfold store_cookie.
    cbn [max_age cookie_key cookie_value]. apply dict_get_app_last. }
  split; [assumption|].
  unfold index, login_page, require_auth. rewrite Ha. cbn [and_then negb].
  repeat split; reflexivity.
Qed.

(** X17.  [login_post] hands out the cookie for the configured password and
    for no other: an answer carries a cookie exactly when the password is
    right, it is then the redirect 302 with the one cookie [rohini_auth]
    holding the token, for seven days and not readable by scripts, and else
    the page with status 401; a wrong password never makes [login_post]
    raise. *)
Theorem login_post_cookie_iff (password : str) :
  (forall response,
     login_post APP_PASSWORD AUTH_SALT LOGIN_HTML password = Returns response ->
     (set_cookies response <> [] <-> password = APP_PASSWORD) /\
     (status_code response = 302%Z <-> password = APP_PASSWORD) /\
     (status_code response = 401%Z <-> password <> APP_PASSWORD) /\
     forall c, In c (set_cookies response) ->
               set_cookies response = [c] /\
               cookie_key c = AUTH_COOKIE_NAME /\
               _make_token APP_PASSWORD AUTH_SALT = Returns (cookie_value c) /\
               max_age c = Some 604800%Z /\ httponly c = true) /\
  (forall e,
     login_post APP_PASSWORD AUTH_SALT LOGIN_HTML password = Raises e ->
     password = APP_PASSWORD /\ e = UnicodeEncodeError).
Proof.
  split.
  - intros response Hl.
    destruct (login_post_returns password response Hl)
      as [(Hp & ->) | (Hp & token & Ht & ->)].
    + cbn [HTMLResponse set_cookies status_code].
      split; [|split; [|split]].
      * split; [intros H; now elim H | intros; contradiction].
      * split; [discriminate | intros; contradiction].
      * split; [intros _; assumption | reflexivity].
      * intros c [].
    + cbn [set_cookie RedirectResponse set_cookies status_code app].
      split; [|split; [|split]].
      * split; [intros _; assumption | intros _; discriminate].
      * split; [intros _; assumption | reflexivity].
      * split; [discriminate | intros; contradiction].
      * intros c [<- | []].
        cbn [cookie_key cookie_value max_age httponly].
        repeat split; try reflexivity; assumption.
  - intros e. unfold login_post.
    destruct (str_eqb password APP_PASSWORD) eqn:E; cbn [negb];
      [|discriminate].
    apply str_eqb_eq in E.
    destruct (_make_token APP_PASSWORD AUTH_SALT) as [t|e'] eqn:Et;
      cbn [and_then]; [discriminate|].
    intros [= <-]. split; [assumption | now apply make_token_raises].
Qed.

(** ** The routes behind the gate *)

Lemma Depends_refused {A} (request : Request) (handler : M A) (g : Globals) :
  (forall t, _make_token APP_PASSWORD AUTH_SALT = Returns t ->
             dict_get AUTH_COOKIE_NAME (cookies request) <> Some t) ->
  refused g (Depends (require_auth APP_PASSWORD AUTH_SALT request) handler g).
Proof.
  intros H. unfold Depends, require_auth, refused.
  destruct (is_authenticated_other request H) as [-> | ->];
    cbn [and_then negb fst snd]; split; auto.
Qed.

Lemma Depends_passes {A} (request : Request) (t : str) (handler : M A)
    (g : Globals) :
  dict_get AUTH_COOKIE_NAME (cookies request) = Some t ->
  _make_token APP_PASSWORD AUTH_SALT = Returns t ->
  Depends (require_auth APP_PASSWORD AUTH_SALT request) handler g
  = as_outcome (handler g).
Proof.
  intros Hc Ht. unfold Depends, require_auth.
  rewrite (is_authenticated_token request t Hc Ht). cbn [and_then negb].
  unfold as_outcome. now destruct (handler g) as [[a|e] g'].
Qed.

(** X18.  Without the token no route under [/api] answers or changes
    anything: for a request whose cookie [rohini_auth] is missing, empty or
    not the token, [meta], [suggest], [lookup] and [reload] all raise, the
    error 401 or, when the token cannot be made, [UnicodeEncodeError], and
    leave the module state as it was; the reload does not load. *)
Theorem api_refused_without_token
    (request : Request) (w : World) (q : str) (limit : Z) (name : str)
    (g : Globals) :
  (forall t, _make_token APP_PASSWORD AUTH_SALT = Returns t ->
             dict_get AUTH_COOKIE_NAME (cookies request) <> Some t) ->
  refused g (get_api_meta APP_PASSWORD AUTH_SALT request g) /\
  refused g (get_api_suggest APP_PASSWORD AUTH_SALT request q limit g) /\
  refused g (get_api_lookup APP_PASSWORD AUTH_SALT request name g) /\
  refused g (post_api_reload FORCE_NAME_COL APP_PASSWORD AUTH_SALT w request g).
Proof.
  intros H.
  repeat split; try (now apply Depends_refused);
    apply (Depends_refused request _ g H).
Qed.

(** X19.  With the token the gate is transparent: for a request whose
    cookie [rohini_auth] is the token, each route under [/api] gives the
    answer, or the error, and the state of its handler. *)
Theorem api_passes_with_token
    (request : Request) (t : str) (w : World) (q : str) (limit : Z)
    (name : str) (g : Globals) :
  dict_get AUTH_COOKIE_NAME (cookies request) = Some t ->
  _make_token APP_PASSWORD AUTH_SALT = Returns t ->
  get_api_meta APP_PASSWORD AUTH_SALT request g = as_outcome (meta g) /\
  get_api_suggest APP_PASSWORD AUTH_SALT request q limit g
  = as_outcome (suggest q limit g) /\
  get_api_lookup APP_PASSWORD AUTH_SALT request name g
  = as_outcome (lookup name g) /\
  post_api_reload FORCE_NAME_COL APP_PASSWORD AUTH_SALT w request g
  = as_outcome (reload_ds FORCE_NAME_COL w g).
Proof.
  intros Hc Ht. repeat split; now apply (Depends_passes request t).
Qed.

(** ** The two pages *)

(** X20.  The pages [/] and [/login] never send a client back and forth: for
    every request exactly one of [index] and [login_page] redirects, [index]
    to [/login] when the request is not authenticated and [login_page] to
    [/] when it is, and the other serves its page; they raise together. *)
Theorem no_redirect_loop (request : Request) :
  match index APP_PASSWORD AUTH_SALT request,
        login_page APP_PASSWORD AUTH_SALT LOGIN_HTML request with
  | Returns r1, Returns r2 =>
      (body r1 = Redirect (py "/login") /\
       body r2 = HTML (replace (py "{error_block}") [] LOGIN_HTML)) \/
      (body r1 = File (py "static/index.html") /\
       body r2 = Redirect (py "/"))
  | Raises e1, Raises e2 => e1 = e2
  | _, _ => False
  end.
Proof.
  unfold index, login_page.
  destruct (_is_authenticated APP_PASSWORD AUTH_SALT request) as [[|]|e];
    cbn [and_then negb body RedirectResponse FileResponse HTMLResponse].
  - right. now split.
  - left. now split.
  - reflexivity.
Qed.

(** ** Logging out *)

(** X21.  Logging out ends the session of a client that obeys the answer:
    [logout] redirects to [/login] and deletes the cookie, so that the next
    request carries no cookie [rohini_auth], keeps every other cookie, is
    not authenticated, is sent to [/login] by [index] and is refused with
    401 by the routes under [/api], whatever the password and the salt. *)
Theorem logout_ends_session
    (jar : list (str * str)) (w : World) (q : str) (limit : Z) (name : str)
    (g : Globals) :
  let request := client_after logout jar in
  body logout = Redirect (py "/login") /\
  dict_get AUTH_COOKIE_NAME (cookies request) = None /\
  (forall k, k <> AUTH_COOKIE_NAME ->
             dict_get k (cookies request) = dict_get k jar) /\
  _is_authenticated APP_PASSWORD AUTH_SALT request = Returns false /\
  index APP_PASSWORD AUTH_SALT request
  = Returns (RedirectResponse (py "/login") 302) /\
  get_api_meta APP_PASSWORD AUTH_SALT request g
  = (Raises (Exn (HTTPException 401)), g) /\
  get_api_suggest APP_PASSWORD AUTH_SALT request q limit g
  = (Raises (Exn (HTTPException 401)), g) /\
  get_api_lookup APP_PASSWORD AUTH_SALT request name g
  = (Raises (Exn (HTTPException 401)), g) /\
  post_api_reload FORCE_NAME_COL APP_PASSWORD AUTH_SALT w request g
  = (Raises (Exn (HTTPException 401)), g).
Proof.
  intros request.
  assert (cookies request
          = filter (fun kv => negb (str_eqb (fst kv) AUTH_COOKIE_NAME)) jar)
    as Hjar by reflexivity.
  assert (dict_get AUTH_COOKIE_NAME (cookies request) = None) as Hc
    by (rewrite Hjar; apply dict_get_filter_same).
  assert (_is_authenticated APP_PASSWORD AUTH_SALT request = Returns false)
    as Ha by (unfold _is_authenticated; now rewrite Hc).
  split; [reflexivity|]. split; [assumption|]. split; [|split; [assumption|]].
  - intros k Hk. rewrite Hjar. now apply dict_get_filter_other.
  - unfold index, get_api_meta, get_api_suggest, get_api_lookup,
      post_api_reload, Depends, require_auth.
    rewrite Ha. cbn [and_then negb]. repeat split; reflexivity.
Qed.

End GateProperties.

(** ** The gate with the default password and salt *)

Example default_token :
  _make_token (py "change_me_123") (py "rohini-secret-salt")
  = Returns
      (py "c95208e3e6c2660345d1bb665d276441f82c6c3d9735b235f1fee75061b4deda").
Proof. vm_compute. reflexivity. Qed.

Lemma login_round_trip_witness :
  exists response,
    login_post (py "change_me_123") (py "rohini-secret-salt")
               (py "<p>{error_block}</p>") (py "change_me_123")
    = Returns response /\
    py "change_me_123" = py "change_me_123" /\
    body response = Redirect (py "/") /\
    _is_authenticated (py "change_me_123") (py "rohini-secret-salt")
      (client_after response [(py "theme", py "dark")])
    = Returns true /\
    index (py "change_me_123") (py "rohini-secret-salt")
      (client_after response [(py "theme", py "dark")])
    = Returns (FileResponse (py "static/index.html")) /\
    login_page (py "change_me_123") (py "rohini-secret-salt")
      (py "<p>{error_block}</p>")
      (client_after response [(py "theme", py "dark")])
    = Returns (RedirectResponse (py "/") 302) /\
    require_auth (py "change_me_123") (py "rohini-secret-salt")
      (client_after response [(py "theme", py "dark")])
    = Returns tt.
Proof.
  eexists. split; [vm_compute; reflexivity|].
  apply (login_round_trip (py "change_me_123") (py "rohini-secret-salt")
           (py "<p>{error_block}</p>") (py "change_me_123"));
    vm_compute; reflexivity.
Defined.

Lemma api_refused_without_token_witness :
  refused (loaded None voters)
    (get_api_meta (py "change_me_123") (py "rohini-secret-salt")
       {| cookies := [(AUTH_COOKIE_NAME, py "guess")] |}
       (loaded None voters)) /\
  refused (loaded None voters)
    (get_api_suggest (py "change_me_123") (py "rohini-secret-salt")
       {| cookies := [(AUTH_COOKIE_NAME, py "guess")] |}
       (py "rav") 5 (loaded None voters)) /\
  refused (loaded None voters)
    (get_api_lookup (py "change_me_123") (py "rohini-secret-salt")
       {| cookies := [(AUTH_COOKIE_NAME, py "guess")] |}
       (py "ravi") (loaded None voters)) /\
  refused (loaded None voters)
    (post_api_reload None (py "change_me_123") (py "rohini-secret-salt")
       (world_of one_ravi)
       {| cookies := [(AUTH_COOKIE_NAME, py "guess")] |}
       (loaded None voters)).
Proof.
  apply (api_refused_without_token None (py "change_me_123")
           (py "rohini-secret-salt")
           {| cookies := [(AUTH_COOKIE_NAME, py "guess")] |}
           (world_of one_ravi) (py "rav") 5 (py "ravi") (loaded None voters)).
  intros t Ht Hc. vm_compute in Ht. vm_compute in Hc. congruence.
Defined.

Lemma api_passes_with_token_witness :
  get_api_meta (py "change_me_123") (py "rohini-secret-salt")
    {| cookies :=
         [(AUTH_COOKIE_NAME,
           py "c95208e3e6c2660345d1bb665d276441f82c6c3d9735b235f1fee75061b4deda")] |}
    (loaded None voters)
  = as_outcome (meta (loaded None voters)) /\
  get_api_suggest (py "change_me_123") (py "rohini-secret-salt")
    {| cookies :=
         [(AUTH_COOKIE_NAME,
           py "c95208e3e6c2660345d1bb665d276441f82c6c3d9735b235f1fee75061b4deda")] |}
    (py "rav") 5 (loaded None voters)
  = as_outcome (suggest (py "rav") 5 (loaded None voters)) /\
  get_api_lookup (py "change_me_123") (py "rohini-secret-salt")
    {| cookies :=
         [(AUTH_COOKIE_NAME,
           py "c95208e3e6c2660345d1bb665d276441f82c6c3d9735b235f1fee75061b4deda")] |}
    (py "ravi") (loaded None voters)
  = as_outcome (lookup (py "ravi") (loaded None voters)) /\
  post_api_reload None (py "change_me_123") (py "rohini-secret-salt")
    (world_of one_ravi)
    {| cookies :=
         [(AUTH_COOKIE_NAME,
           py "c95208e3e6c2660345d1bb665d276441f82c6c3d9735b235f1fee75061b4deda")] |}
    (loaded None voters)
  = as_outcome (reload_ds None (world_of one_ravi) (loaded None voters)).
Proof.
  apply (api_passes_with_token None (py "change_me_123")
           (py "rohini-secret-salt")
           {| cookies :=
                [(AUTH_COOKIE_NAME,
                  py "c95208e3e6c2660345d1bb665d276441f82c6c3d9735b235f1fee75061b4deda")] |}
           (py "c95208e3e6c2660345d1bb665d276441f82c6c3d9735b235f1fee75061b4deda")).
  - vm_compute. reflexivity.
  - vm_compute. reflexivity.
Defined.

(** The digests agree with the published test vectors. *)
Example sha256_abc :
  hex (SHA256.digest [97; 98; 99]%N)
  = py "ba7816bf8f01cfea414140de5dae2223b00361a396177a9cb410ff61f20015ad".
Proof. vm_compute. reflexivity. Qed.

Example hmac_sha256_rfc4231_case2 :
  option_map hex
    (match utf8 (py "Jefe"), utf8 (py "what do ya want for nothing?") with
     | Some key, Some msg => Some (hmac_sha256 key msg)
     | _, _ => None
     end)
  = Some
      (py "5bdcc146bf60754e6a042426089575c75a003f089d2739839dec58b964ec3843").
Proof. vm_compute. reflexivity. Qed.

(** * The heuristic without a candidate *)

Section NoCandidate.

Context {R : PyRuntime} {FL : FloatLaws R} {SL : SampleLaws R}.

Lemma score_nil : score [] = None.
Proof.
  unfold score.
  assert (sample 1 [] = []) as ->
    by (apply length_zero_iff_nil; now rewrite sample_size).
  simpl map. now apply fmean_nan.
Qed.

Lemma fold_heuristic_none (l : DataFrame) (acc : option str * Q) :
  (forall c s, In (c, s) l -> _is_probably_epic s = true \/ s = []) ->
  fold_left heuristic_step l acc = acc.
Proof.
  revert acc. induction l as [|[c s] l IH]; intros acc H; cbn [fold_left];
    [reflexivity|].
  assert (heuristic_step acc (c, s) = acc) as ->.
  { unfold heuristic_step.
    destruct (H c s (or_introl eq_refl)) as [-> | ->]; [reflexivity|].
    rewrite score_nil. now destruct (_is_probably_epic []). }
  apply IH. intros c' s' Hin. apply (H c' s'). now right.
Qed.

(** X22.  When no column is a candidate, every column being taken for
    identifier-like or having no cell, as in a file that holds the header
    line only, the heuristic of [pick_name_column] settles for the first
    column of the table, of whatever kind it is; for a table without
    columns it raises [IndexError]. *)
Theorem heuristic_without_candidate (df : DataFrame) :
  (forall c s, In (c, s) df -> _is_probably_epic s = true \/ s = []) ->
  heuristic df = match columns df with
                 | c :: _ => Ok c
                 | [] => Raise IndexError
                 end.
Proof.
  intros H. unfold heuristic. now rewrite (fold_heuristic_none df _ H).
Qed.

End NoCandidate.

Lemma heuristic_without_candidate_witness :
  heuristic [ (py "Voter", [py "ABC1234567"; py "XYZ7654321"]);
              (py "Serial", [py "101"; py "102"]) ]
  = Ok (py "Voter").
Proof.
  apply (heuristic_without_candidate
           [ (py "Voter", [py "ABC1234567"; py "XYZ7654321"]);
             (py "Serial", [py "101"; py "102"]) ]).
  intros c s [[= <- <-] | [[= <- <-] | []]]; left; vm_compute; reflexivity.
Defined.

(** * What a search finds *)

Lemma select_none {A} (mask : list bool) (l : list A) :
  existsb (fun b => b) mask = false -> select mask l = [].
Proof.
  revert l. induction mask as [|b mask IH]; intros [|y l]; simpl;
    try reflexivity.
  destruct b; simpl; [discriminate | apply IH].
Qed.

Lemma existsb_In_true (mask : list bool) :
  existsb (fun b => b) mask = true -> In true mask.
Proof.
  induction mask as [|b mask IH]; simpl; [discriminate|].
  destruct b; [now left | intros H; right; now apply IH].
Qed.

Section SearchAfterLoad.

Context {R : PyRuntime} {RL : RegexLaws R}.
Variable FORCE_NAME_COL : option str.

(** X23.  What the two searches find, for an input without pattern
    characters, in a loaded table whose columns have one length and whose
    name column is neither [_name_key] nor [_name_norm].  [suggest] returns
    the [head(limit)] of the distinct trimmed names, in row order, of the
    rows whose normalised name contains the normalised query.  [lookup]
    returns the rows whose trimmed, lower-cased name is the trimmed,
    lower-cased input when there is such a row, and else the rows whose
    trimmed, lower-cased name contains it. *)
Theorem search_after_load
    (w : World) (g0 g : Globals) (df0 : DataFrame)
    (q : str) (limit : Z) (name : str) :
  _read_csv_with_fallbacks w = Ok df0 ->
  (forall c s, In (c, s) df0 -> length s = nrows df0) ->
  load_dataset FORCE_NAME_COL w g0 = (Ok tt, g) ->
  NAME_COL g <> py "_name_key" ->
  NAME_COL g <> py "_name_norm" ->
  exists df names,
    DF g = Some df /\ getcol df (NAME_COL g) = Some names /\
    (strip_marks q <> [] -> plain (strip_marks q) = true ->
     suggest q limit g =
     (Ok (head limit
            (first_occurrences
               (map strip
                    (filter (fun x => substring (strip_marks q) (strip_marks x))
                            names)))),
      g)) /\
    (strip name <> [] ->
     let key := lower (strip name) in
     let exact := map (fun x => str_eqb (lower (strip x)) key) names in
     let mask :=
       if existsb (fun b => b) exact then exact
       else map (fun x => substring key (lower (strip x))) names in
     existsb (fun b => b) exact = true \/ plain key = true ->
     lookup name g =
     (Ok {| count_rows := length (iterrows (select_rows mask df));
            rows := map (filter (fun kv => visible (fst kv)))
                        (iterrows (select_rows mask df)) |},
      g)).
Proof.
  intros Hr0 Hlen Hload Hk Hn.
  destruct (load_dataset_ready FORCE_NAME_COL w g0 g df0 Hr0 Hlen Hload Hk Hn)
    as (df & names & HDF & Hnames & Hkeys & Hdf & Hrows).
  destruct (load_dataset_keys FORCE_NAME_COL w g0 g Hload Hk Hn)
    as (df' & names' & HDF' & Hnames' & _ & Hnorm).
  rewrite HDF in HDF'. injection HDF' as <-.
  rewrite Hnames in Hnames'. injection Hnames' as <-.
  exists df, names. split; [assumption|]. split; [assumption|]. split.
  - intros Hq Hp.
    rewrite (suggest_plain_query q limit g df names _ HDF Hnames Hnorm Hq Hp).
    rewrite map_map.
    now rewrite (select_map_filter
                   (fun x => substring (strip_marks q) (strip_marks x)) names).
  - intros Hne key exact mask Hcase.
    assert (map (fun k => str_eqb k (lower (strip name)))
                (map (fun x => lower (strip x)) names) = exact) as Hmask
      by (unfold exact, key; now rewrite map_map).
    assert (empty (select_rows exact df)
            = negb (existsb (fun b => b) exact)) as Hempty.
    { unfold empty. destruct df as [|[c s] df]; [congruence|].
      cbn [select_rows map nrows snd].
      destruct (existsb (fun b => b) exact) eqn:Ex; cbn [negb].
      - apply Nat.eqb_neq.
        assert (1 <= length (select exact s)); [|lia].
        apply select_hit; [|now apply existsb_In_true].
        unfold exact. rewrite length_map. exact Hrows.
      - now rewrite (select_none exact s Ex). }
    destruct (existsb (fun b => b) exact) eqn:Ex; cbn [negb] in Hempty.
    + pose proof (lookup_exact_match name g df _ HDF Hkeys Hne) as Hl.
      cbv zeta in Hl. rewrite Hmask in Hl. unfold mask.
      now apply Hl.
    + destruct Hcase as [Hcase | Hp]; [discriminate|].
      pose proof (lookup_fallback_plain name g df _ names HDF Hkeys Hnames
                                        Hne Hp) as Hl.
      rewrite Hmask in Hl. cbv zeta in Hl. unfold mask.
      rewrite map_map in Hl. now apply Hl.
Qed.

End SearchAfterLoad.

Lemma search_after_load_witness :
  exists df names,
    DF (loaded None voters) = Some df /\
    getcol df (NAME_COL (loaded None voters)) = Some names /\
    (strip_marks (py "KUM") <> [] -> plain (strip_marks (py "KUM")) = true ->
     suggest (py "KUM") 5 (loaded None voters) =
     (Ok (head 5
            (first_occurrences
               (map strip
                    (filter (fun x => substring (strip_marks (py "KUM"))
                                                (strip_marks x))
                            names)))),
      loaded None voters)) /\
    (strip (py "amit") <> [] ->
     let key := lower (strip (py "amit")) in
     let exact := map (fun x => str_eqb (lower (strip x)) key) names in
     let mask :=
       if existsb (fun b => b) exact then exact
       else map (fun x => substring key (lower (strip x))) names in
     existsb (fun b => b) exact = true \/ plain key = true ->
     lookup (py "amit") (loaded None voters) =
     (Ok {| count_rows := length (iterrows (select_rows mask df));
            rows := map (filter (fun kv => visible (fst kv)))
                        (iterrows (select_rows mask df)) |},
      loaded None voters)).
Proof.
  apply (search_after_load None (world_of voters) initial (loaded None voters)
                           voters (py "KUM") 5 (py "amit")).
  - reflexivity.
  - intros c s [[= <- <-] | [[= <- <-] | []]]; reflexivity.
  - vm_compute. reflexivity.
  - vm_compute. discriminate.
  - vm_compute. discriminate.
Defined.

Lemma load_dataset_print_failure_witness :
  load_dataset None (world_mute voters) (loaded None one_ravi)
  = (Raise (PrintError (info_line 3 (py "Person"))), loaded None voters) /\
  reload_ds None (world_mute voters) (loaded None one_ravi)
  = (Raise (PrintError (info_line 3 (py "Person"))), loaded None voters).
Proof.
  eapply (load_dataset_print_failure None (world_mute voters)
            (loaded None one_ravi) (loaded None voters)).
  - vm_compute. reflexivity.
  - vm_compute. reflexivity.
  - vm_compute. reflexivity.
Defined.
